(** * Identity metrics of TrackEval ([trackeval/metrics/identity.py])

    A shallow embedding of the two metric classes [Identity] and
    [TrackIdentity], and the properties of them that the specification
    states.

    Conventions of the embedding.
    - A numpy [float64] is an exact rational ([Qc]); the three values a
      division can produce besides a finite number are kept apart
      ([npfloat]).  Rounding is not modelled.
    - Identity indices are [nat]: the loader hands over non-negative
      indices, and a numpy index that is too large raises [IndexError].
    - Python exceptions are the [Raise] results of the [result] monad.
    - [scipy.optimize.linear_sum_assignment] is a parameter of the
      development, together with its contract. *)

From Stdlib Require Import ZArith QArith Qcanon Lia.
From stdpp Require Import base option list numbers strings gmap.

Local Open Scope Z_scope.
Local Open Scope nat_scope.

(** ** Numbers *)

(** A numpy floating-point value. *)
Inductive npfloat : Type :=
  | Fin (q : Qc)
  | PInf
  | NInf
  | NaN.

Global Instance npfloat_eq_dec : EqDecision npfloat.
Proof. solve_decision. Defined.

Definition Qc_of_nat (n : nat) : Qc := Qc_of_Z (Z.of_nat n).

(** [a / b] on [float64]: a zero divisor gives [nan] or an infinity (numpy
    warns and goes on). *)
Definition np_divide (a b : Qc) : npfloat :=
  if decide (b = 0%Qc) then
    if decide (a = 0%Qc) then NaN
    else if decide (0 < a)%Qc then PInf else NInf
  else Fin (a / b)%Qc.

(** [np.less_equal(x, y)] for a finite [y]. *)
Definition np_less_equal (x : npfloat) (y : Qc) : bool :=
  match x with
  | Fin q => bool_decide (q ≤ y)%Qc
  | NInf => true
  | PInf | NaN => false
  end.

(** [np.maximum(a, b)] on finite values. *)
Definition np_maximum (a b : Qc) : Qc :=
  if decide (a ≤ b)%Qc then b else a.

(** [x.astype(np.int)]: truncation towards zero. *)
Definition astype_int (x : Qc) : Z :=
  Z.quot (Qnum (this x)) (Z.pos (Qden (this x))).

(** ** Exceptions *)

Inductive pyexn : Type :=
  | IndexError
  | ValueError.

Inductive result (A : Type) : Type :=
  | Ok (a : A)
  | Raise (e : pyexn).
Global Arguments Ok {A} a.
Global Arguments Raise {A} e.

Global Instance result_ret : MRet result := λ A, @Ok A.
Global Instance result_bind : MBind result := λ A B f m,
  match m with Ok a => f a | Raise e => Raise e end.

Fixpoint foldM {A B} (f : B → A → result B) (b : B) (l : list A) : result B :=
  match l with
  | [] => Ok b
  | x :: l => b' ← f b x; foldM f b' l
  end.

(** [a[idx]] for a list of indices [idx]: every index must be in range. *)
Definition take_idx {A} (a : list A) (idx : list nat) : result (list A) :=
  mapM (λ i, match a !! i with Some x => Ok x | None => Raise IndexError end) idx.

(** ** Arrays *)

Definition zeros (n : nat) : list Qc := replicate n 0%Qc.
Definition zeros2 (r c : nat) : list (list Qc) := replicate r (zeros c).

Definition vec_at (v : list Qc) (i : nat) : Qc := default 0%Qc (v !! i).
Definition mat_get {A} (M : list (list A)) (i j : nat) : option A :=
  M !! i ≫= (.!! j).
Definition mat_at (M : list (list Qc)) (i j : nat) : Qc :=
  default 0%Qc (mat_get M i j).

Definition mat_imap {A B} (f : nat → nat → A → B) (M : list (list A))
  : list (list B) :=
  imap (λ i row, imap (f i) row) M.

(** Index ranges of a slice assignment: [lo:], [:hi] and a single index. *)
Definition from (lo : nat) : nat → bool := λ i, bool_decide (lo ≤ i).
Definition upto (hi : nat) : nat → bool := λ i, bool_decide (i < hi).
Definition only (k : nat) : nat → bool := λ i, bool_decide (i = k).

(** [M[rows, cols] = v] *)
Definition set_slice (rows cols : nat → bool) (v : Qc) (M : list (list Qc))
  : list (list Qc) :=
  mat_imap (λ i j x, if rows i && cols j then v else x) M.

(** [M[:r, :c] -= D] *)
Definition sub_block (r c : nat) (D M : list (list Qc)) : list (list Qc) :=
  mat_imap (λ i j x, if upto r i && upto c j then (x - mat_at D i j)%Qc else x) M.

(** [A + B], elementwise, on arrays of one shape. *)
Definition mat_add (A B : list (list Qc)) : list (list Qc) :=
  mat_imap (λ i j x, (x + mat_at B i j)%Qc) A.

(** [a[idx] += 1]: numpy reads [a[idx]], adds, and writes back, so an index
    listed twice is still incremented once. *)
Definition incr_at (n : nat) (a : list Qc) (idx : list nat) : result (list Qc) :=
  if forallb (λ i, bool_decide (i < n)) idx
  then Ok (imap (λ i x, if bool_decide (i ∈ idx) then (x + 1)%Qc else x) a)
  else Raise IndexError.

(** [M[rs, cs] += 1] for index lists of one length, on an array of shape
    [(r, c)]. *)
Definition incr_at2 (r c : nat) (M : list (list Qc)) (rs cs : list nat)
  : result (list (list Qc)) :=
  if forallb (λ '(i, j), bool_decide (i < r) && bool_decide (j < c)) (zip rs cs)
  then Ok (mat_imap (λ i j x,
             if bool_decide ((i, j) ∈ zip rs cs) then (x + 1)%Qc else x) M)
  else Raise IndexError.

(** [np.nonzero(np.greater_equal(sim, thr))]: row and column indices of the
    entries at or above the threshold, in row-major order. *)
Definition nonzero_ge (sim : list (list Qc)) (thr : Qc) : list (nat * nat) :=
  mjoin (imap (λ i row,
    omap (λ '(j, x), if bool_decide (thr ≤ x)%Qc then Some (i, j) else None)
         (imap pair row)) sim).

(** ** Input data and configuration *)

Record SequenceData : Type := {
  num_gt_ids : nat;
  num_tracker_ids : nat;
  num_gt_dets : nat;
  num_tracker_dets : nat;
  gt_ids : list (list nat);
  tracker_ids : list (list nat);
  similarity_scores : list (list (list Qc));
}.

Record Config : Type := {
  THRESHOLD : Qc;
  TRACK_IOU_THRESH : Qc;
}.

Definition Q_of (n : Z) (d : positive) : Qc := Q2Qc (n # d).

Definition default_config : Config :=
  {| THRESHOLD := Q_of 1 2; TRACK_IOU_THRESH := Q_of 1 5 |}.

(** ** Accumulation of the global association counts *)

Record Tables : Type := {
  potential_matches_count : list (list Qc);
  gt_id_count : list Qc;
  tracker_id_count : list Qc;
}.

(** The body of the loop over the timesteps. *)
Definition accumulate_step (threshold : Qc) (data : SequenceData)
    (tb : Tables) (frame : nat * (list nat * list nat)) : result Tables :=
  let '(t, (gt_ids_t, tracker_ids_t)) := frame in
  sim ← match similarity_scores data !! t with
        | Some s => Ok s | None => Raise IndexError end;
  let matches := nonzero_ge sim threshold in
  gs ← take_idx gt_ids_t matches.*1;
  ts ← take_idx tracker_ids_t matches.*2;
  pmc ← incr_at2 (num_gt_ids data) (num_tracker_ids data)
          (potential_matches_count tb) gs ts;
  gc ← incr_at (num_gt_ids data) (gt_id_count tb) gt_ids_t;
  tc ← incr_at (num_tracker_ids data) (tracker_id_count tb) tracker_ids_t;
  Ok {| potential_matches_count := pmc; gt_id_count := gc; tracker_id_count := tc |}.

Definition accumulate (threshold : Qc) (data : SequenceData) : result Tables :=
  foldM (accumulate_step threshold data)
    {| potential_matches_count := zeros2 (num_gt_ids data) (num_tracker_ids data);
       gt_id_count := zeros (num_gt_ids data);
       tracker_id_count := zeros (num_tracker_ids data) |}
    (imap pair (zip (gt_ids data) (tracker_ids data))).

(** ** Results *)

(** The result mapping: [fields = float_fields + integer_fields]. *)
Record MetricResult : Type := {
  IDF1 : npfloat;
  IDR : npfloat;
  IDP : npfloat;
  IDTP : Z;
  IDFN : Z;
  IDFP : Z;
}.

Definition integer_fields : list string := ["IDTP"; "IDFN"; "IDFP"]%string.
Definition float_fields : list string := ["IDF1"; "IDR"; "IDP"]%string.
Definition fields : list string := float_fields ++ integer_fields.

(** [res[field] = v] *)
Definition set_IDF1 (v : npfloat) (res : MetricResult) : MetricResult :=
  {| IDF1 := v; IDR := IDR res; IDP := IDP res;
     IDTP := IDTP res; IDFN := IDFN res; IDFP := IDFP res |}.
Definition set_IDR (v : npfloat) (res : MetricResult) : MetricResult :=
  {| IDF1 := IDF1 res; IDR := v; IDP := IDP res;
     IDTP := IDTP res; IDFN := IDFN res; IDFP := IDFP res |}.
Definition set_IDP (v : npfloat) (res : MetricResult) : MetricResult :=
  {| IDF1 := IDF1 res; IDR := IDR res; IDP := v;
     IDTP := IDTP res; IDFN := IDFN res; IDFP := IDFP res |}.
Definition set_IDTP (v : Z) (res : MetricResult) : MetricResult :=
  {| IDF1 := IDF1 res; IDR := IDR res; IDP := IDP res;
     IDTP := v; IDFN := IDFN res; IDFP := IDFP res |}.
Definition set_IDFN (v : Z) (res : MetricResult) : MetricResult :=
  {| IDF1 := IDF1 res; IDR := IDR res; IDP := IDP res;
     IDTP := IDTP res; IDFN := v; IDFP := IDFP res |}.
Definition set_IDFP (v : Z) (res : MetricResult) : MetricResult :=
  {| IDF1 := IDF1 res; IDR := IDR res; IDP := IDP res;
     IDTP := IDTP res; IDFN := IDFN res; IDFP := v |}.

(** [res = {}; for field in self.fields: res[field] = 0] *)
Definition init_res : MetricResult :=
  {| IDF1 := Fin 0; IDR := Fin 0; IDP := Fin 0; IDTP := 0; IDFN := 0; IDFP := 0 |}.

(** Sums of arrays. *)
Definition vec_sum (v : list Qc) : Qc := foldr Qcplus 0%Qc v.

(** [M[rows, cols]] for index lists of one length. *)
Definition take_idx2 {A} (M : list (list A)) (rows cols : list nat)
  : result (list A) :=
  mapM (λ '(i, j), match mat_get M i j with
                   | Some x => Ok x | None => Raise IndexError end)
       (zip rows cols).

(** [np.sum] of a boolean array. *)
Definition count_true {A} (p : A → bool) (l : list A) : Z :=
  Z.of_nat (length (filter (λ x, Is_true (p x)) l)).

(** The literals [1e10], [0.5] and [1.0 - 1e-6]. *)
Definition lit_1e10 : Qc := Qc_of_Z 10000000000.
Definition lit_half : Qc := Q_of 1 2.
Definition lit_one_minus_1e6 : Qc := (1 - Q_of 1 1000000)%Qc.

(** Modelled from the spec: [_BaseMetric._combine_sum] lives in
    [_base_metric.py], which is not part of the sources at hand; the
    specification describes it as summing one integer field across a mapping
    of named per-unit results. *)
Definition _combine_sum (all_res : gmap string MetricResult)
    (field : MetricResult → Z) : Z :=
  foldr Z.add 0%Z (field <$> (map_to_list all_res).*2).

(** ** The class [Identity] *)

Module Identity.

(** [_compute_final_fields] *)
Definition _compute_final_fields (res : MetricResult) : MetricResult :=
  let res :=
    if decide (IDFN res ≠ 0%Z)
    then set_IDR (np_divide (Qc_of_Z (IDTP res))
                    (np_maximum 1 (Qc_of_Z (IDTP res + IDFN res)))) res
    else set_IDR (Fin 1) res in
  let res :=
    if decide (IDFP res ≠ 0%Z)
    then set_IDP (np_divide (Qc_of_Z (IDTP res))
                    (np_maximum 1 (Qc_of_Z (IDTP res + IDFP res)))) res
    else set_IDP (Fin 1) res in
  let res :=
    if decide (IDFN res ≠ 0%Z ∨ IDFP res ≠ 0%Z)
    then set_IDF1 (np_divide (Qc_of_Z (IDTP res))
                     (np_maximum 1 (Qc_of_Z (IDTP res)
                                    + lit_half * Qc_of_Z (IDFP res)
                                    + lit_half * Qc_of_Z (IDFN res))%Qc)) res
    else set_IDF1 (Fin 1) res in
  res.

(** The two matrices [(fn_mat, fp_mat)] of the assignment problem. *)
Definition cost_matrices (data : SequenceData) (tb : Tables)
  : list (list Qc) * list (list Qc) :=
  let num_gt_ids := num_gt_ids data in
  let num_tracker_ids := num_tracker_ids data in
  let fp_mat := zeros2 (num_gt_ids + num_tracker_ids) (num_gt_ids + num_tracker_ids) in
  let fn_mat := zeros2 (num_gt_ids + num_tracker_ids) (num_gt_ids + num_tracker_ids) in
  let fp_mat := set_slice (from num_gt_ids) (upto num_tracker_ids) lit_1e10 fp_mat in
  let fn_mat := set_slice (upto num_gt_ids) (from num_tracker_ids) lit_1e10 fn_mat in
  let fn_mat :=
    foldl (λ fn_mat gt_id,
             let fn_mat := set_slice (only gt_id) (upto num_tracker_ids)
                             (vec_at (gt_id_count tb) gt_id) fn_mat in
             set_slice (only gt_id) (only (num_tracker_ids + gt_id))
               (vec_at (gt_id_count tb) gt_id) fn_mat)
          fn_mat (seq 0 num_gt_ids) in
  let fp_mat :=
    foldl (λ fp_mat tracker_id,
             let fp_mat := set_slice (upto num_gt_ids) (only tracker_id)
                             (vec_at (tracker_id_count tb) tracker_id) fp_mat in
             set_slice (only (tracker_id + num_gt_ids)) (only tracker_id)
               (vec_at (tracker_id_count tb) tracker_id) fp_mat)
          fp_mat (seq 0 num_tracker_ids) in
  let fn_mat := sub_block num_gt_ids num_tracker_ids (potential_matches_count tb) fn_mat in
  let fp_mat := sub_block num_gt_ids num_tracker_ids (potential_matches_count tb) fp_mat in
  (fn_mat, fp_mat).

(** The matrix handed to the solver, [fn_mat + fp_mat]. *)
Definition cost_matrix (data : SequenceData) (tb : Tables) : list (list npfloat) :=
  let '(fn_mat, fp_mat) := cost_matrices data tb in
  mat_imap (λ _ _, Fin) (mat_add fn_mat fp_mat).

Section solver.
Variable linear_sum_assignment :
  list (list npfloat) → result (list nat * list nat).

(** [Identity.eval_sequence] *)
Definition eval_sequence (cfg : Config) (data : SequenceData)
  : result MetricResult :=
  let res := init_res in
  if decide (num_tracker_dets data = 0) then
    let res := set_IDFN (Z.of_nat (num_gt_dets data)) res in
    Ok (_compute_final_fields res)
  else if decide (num_gt_dets data = 0) then
    let res := set_IDFP (Z.of_nat (num_tracker_dets data)) res in
    Ok (_compute_final_fields res)
  else
    tb ← accumulate (THRESHOLD cfg) data;
    let '(fn_mat, fp_mat) := cost_matrices data tb in
    '(match_rows, match_cols) ←
      linear_sum_assignment (mat_imap (λ _ _, Fin) (mat_add fn_mat fp_mat));
    fns ← take_idx2 fn_mat match_rows match_cols;
    fps ← take_idx2 fp_mat match_rows match_cols;
    let res := set_IDFN (astype_int (vec_sum fns)) res in
    let res := set_IDFP (astype_int (vec_sum fps)) res in
    let res := set_IDTP (astype_int (vec_sum (gt_id_count tb)
                                     - Qc_of_Z (IDFN res))%Qc) res in
    Ok (_compute_final_fields res).
End solver.

(** [Identity.combine_sequences] *)
Definition combine_sequences (all_res : gmap string MetricResult) : MetricResult :=
  let res := init_res in
  let res := set_IDTP (_combine_sum all_res IDTP) res in
  let res := set_IDFN (_combine_sum all_res IDFN) res in
  let res := set_IDFP (_combine_sum all_res IDFP) res in
  _compute_final_fields res.

End Identity.


(** ** The class [TrackIdentity] *)

(** Addition and mean of floating-point values ([np.mean]). *)
Definition np_add (x y : npfloat) : npfloat :=
  match x, y with
  | Fin a, Fin b => Fin (a + b)%Qc
  | NaN, _ | _, NaN => NaN
  | PInf, NInf | NInf, PInf => NaN
  | PInf, _ | _, PInf => PInf
  | NInf, _ | _, NInf => NInf
  end.

Definition np_mean (l : list npfloat) : npfloat :=
  match foldr np_add (Fin 0) l with
  | Fin s => np_divide s (Qc_of_nat (length l))
  | x => x
  end.

Module TrackIdentity.

(** The matrix handed to the solver. *)
Definition cost_matrix (data : SequenceData) (tb : Tables) : list (list npfloat) :=
  let num_gt_ids := num_gt_ids data in
  let num_tracker_ids := num_tracker_ids data in
  let fp_mat := zeros2 (num_gt_ids + num_tracker_ids) (num_gt_ids + num_tracker_ids) in
  let fn_mat := zeros2 (num_gt_ids + num_tracker_ids) (num_gt_ids + num_tracker_ids) in
  let fp_mat := set_slice (from num_gt_ids) (upto num_tracker_ids) 1%Qc fp_mat in
  let fn_mat := set_slice (upto num_gt_ids) (from num_tracker_ids) 1%Qc fn_mat in
  let fn_mat :=
    foldl (λ fn_mat gt_id,
             let fn_mat := set_slice (only gt_id) (upto num_tracker_ids)
                             (vec_at (gt_id_count tb) gt_id) fn_mat in
             set_slice (only gt_id) (only (num_tracker_ids + gt_id))
               lit_one_minus_1e6 fn_mat)
          fn_mat (seq 0 num_gt_ids) in
  let fp_mat :=
    foldl (λ fp_mat tracker_id,
             let fp_mat := set_slice (upto num_gt_ids) (only tracker_id)
                             (vec_at (tracker_id_count tb) tracker_id) fp_mat in
             set_slice (only (tracker_id + num_gt_ids)) (only tracker_id)
               lit_one_minus_1e6 fp_mat)
          fp_mat (seq 0 num_tracker_ids) in
  let fn_mat := sub_block num_gt_ids num_tracker_ids (potential_matches_count tb) fn_mat in
  let fp_mat := sub_block num_gt_ids num_tracker_ids (potential_matches_count tb) fp_mat in
  let cost_matrix := mat_add fn_mat fp_mat in
  let cost_matrix :=
    mat_imap (λ i j x,
                if upto num_gt_ids i && upto num_tracker_ids j
                then np_divide x (x + mat_at (potential_matches_count tb) i j)%Qc
                else Fin x) cost_matrix in
  let cost_matrix :=
    mat_imap (λ i j x,
                if from num_gt_ids i && from num_tracker_ids j
                then Fin 1%Qc else x) cost_matrix in
  cost_matrix.

(** The three counts taken from a matching. *)
Definition re_assigned (cfg : Config) (data : SequenceData) (tb : Tables)
    (match_rows match_cols : list nat) : Z :=
  let match_mask := λ '(r, c),
    bool_decide (r < num_gt_ids data) && bool_decide (c < num_tracker_ids data) in
  let matched := filter (λ p, Is_true (match_mask p)) (zip match_rows match_cols) in
  count_true (λ '(r, c),
      np_less_equal
        (np_divide (mat_at (potential_matches_count tb) r c)
                   (vec_at (tracker_id_count tb) c))
        (TRACK_IOU_THRESH cfg)) matched.

Section solver.
Variable linear_sum_assignment :
  list (list npfloat) → result (list nat * list nat).

(** [TrackIdentity.eval_sequence] *)
Definition eval_sequence (cfg : Config) (data : SequenceData)
  : result MetricResult :=
  let res := init_res in
  if decide (num_tracker_dets data = 0) then
    let res := set_IDFN (Z.of_nat (num_gt_ids data)) res in
    Ok res
  else if decide (num_gt_dets data = 0) then
    let res := set_IDFP (Z.of_nat (num_tracker_ids data)) res in
    Ok res
  else
    tb ← accumulate (THRESHOLD cfg) data;
    let num_gt_ids := num_gt_ids data in
    let num_tracker_ids := num_tracker_ids data in
    '(match_rows, match_cols) ← linear_sum_assignment (cost_matrix data tb);
    let re_assigned := re_assigned cfg data tb match_rows match_cols in
    let res :=
      set_IDFN (Z.add
                  (count_true (λ '(r, c), bool_decide (r < num_gt_ids)
                                          && bool_decide (num_tracker_ids ≤ c))
                     (zip match_rows match_cols))
                  re_assigned) res in
    let res :=
      set_IDFP (Z.add
                  (count_true (λ '(r, c), bool_decide (num_gt_ids ≤ r)
                                          && bool_decide (c < num_tracker_ids))
                     (zip match_rows match_cols))
                  re_assigned) res in
    let res := set_IDTP (Z.of_nat num_gt_ids - IDFN res)%Z res in
    Ok (Identity._compute_final_fields res).
End solver.

(** [TrackIdentity.combine_sequences]; [average] defaults to ["macro"]. *)
Definition combine_sequences (all_res : gmap string MetricResult)
    (average : string) : result MetricResult :=
  let res := init_res in
  let res := set_IDTP (_combine_sum all_res IDTP) res in
  let res := set_IDFN (_combine_sum all_res IDFN) res in
  let res := set_IDFP (_combine_sum all_res IDFP) res in
  if decide (average = "micro"%string) then
    Ok (Identity._compute_final_fields res)
  else if decide (average = "macro"%string) then
    let res := set_IDF1 (np_mean (IDF1 <$> (map_to_list all_res).*2)) res in
    let res := set_IDR (np_mean (IDR <$> (map_to_list all_res).*2)) res in
    let res := set_IDP (np_mean (IDP <$> (map_to_list all_res).*2)) res in
    Ok res
  else Raise ValueError.

End TrackIdentity.

(** ** Aggregation over classes *)

(** [np.finfo('float').eps], two to the power -52. *)
Definition lit_eps : Qc := Q_of 1 4503599627370496.

(** [v['IDTP'] + v['IDFN'] + v['IDFP'] > 0 + np.finfo('float').eps] *)
Definition class_not_empty (v : MetricResult) : bool :=
  bool_decide (0 + lit_eps < Qc_of_Z (IDTP v + IDFN v + IDFP v))%Qc.

(** [Identity.combine_classes_class_averaged], which [TrackIdentity]
    inherits. *)
Definition combine_classes_class_averaged (all_res : gmap string MetricResult)
    (ignore_empty_classes : bool) : MetricResult :=
  let sum_field (field : MetricResult → Z) :=
    if ignore_empty_classes
    then _combine_sum (filter (λ kv, Is_true (class_not_empty kv.2)) all_res) field
    else _combine_sum all_res field in
  let mean_field (field : MetricResult → npfloat) :=
    if ignore_empty_classes
    then np_mean (field <$> filter (λ v, Is_true (class_not_empty v))
                              (map_to_list all_res).*2)
    else np_mean (field <$> (map_to_list all_res).*2) in
  let res := init_res in
  let res := set_IDTP (sum_field IDTP) res in
  let res := set_IDFN (sum_field IDFN) res in
  let res := set_IDFP (sum_field IDFP) res in
  let res := set_IDF1 (mean_field IDF1) res in
  let res := set_IDR (mean_field IDR) res in
  let res := set_IDP (mean_field IDP) res in
  res.

(** [Identity.combine_classes_det_averaged] *)
Definition combine_classes_det_averaged (all_res : gmap string MetricResult)
  : MetricResult :=
  let res := init_res in
  let res := set_IDTP (_combine_sum all_res IDTP) res in
  let res := set_IDFN (_combine_sum all_res IDFN) res in
  let res := set_IDFP (_combine_sum all_res IDFP) res in
  Identity._compute_final_fields res.

(** ** The assignment solver

    [scipy.optimize.linear_sum_assignment] is not part of the repository.
    Its documented contract, for a square matrix of finite costs: the row
    indices are [0 .. n-1] in order, the column indices are a permutation of
    them, and no other assignment is cheaper. *)

Definition finite_entry (x : npfloat) : option Qc :=
  match x with Fin q => Some q | _ => None end.

Definition to_finite (M : list (list npfloat)) : option (list (list Qc)) :=
  mapM (mapM finite_entry) M.

Definition is_square {A} (M : list (list A)) : Prop :=
  Forall (λ row, length row = length M) M.

Definition assignment_cost (M : list (list Qc)) (rows cols : list nat) : Qc :=
  vec_sum ((λ '(i, j), mat_at M i j) <$> zip rows cols).

Definition is_assignment (n : nat) (rows cols : list nat) : Prop :=
  rows = seq 0 n ∧ cols ≡ₚ seq 0 n.

Definition optimal_assignment (Mq : list (list Qc)) (rows cols : list nat) : Prop :=
  is_assignment (length Mq) rows cols
  ∧ ∀ cols', cols' ≡ₚ seq 0 (length Mq) →
      (assignment_cost Mq rows cols ≤ assignment_cost Mq rows cols')%Qc.

Definition solver_contract
    (lsa : list (list npfloat) → result (list nat * list nat)) : Prop :=
  ∀ M Mq, to_finite M = Some Mq → is_square Mq →
    ∃ rows cols, lsa M = Ok (rows, cols) ∧ optimal_assignment Mq rows cols.

(** A reference solver, by exhaustive search; it shows that the contract can
    be met and serves to run the metrics on examples. *)
Definition argmin {A} (cost : A → Qc) (x0 : A) (l : list A) : A :=
  foldl (λ best x, if decide (cost x < cost best)%Qc then x else best) x0 l.

Definition exhaustive_lsa (M : list (list npfloat))
  : result (list nat * list nat) :=
  match to_finite M with
  | Some Mq =>
      let rows := seq 0 (length Mq) in
      Ok (rows, argmin (assignment_cost Mq rows) rows (permutations rows))
  | None => Raise ValueError
  end.

(** ** Well-formed input and the co-occurrence counts of the specification *)

(** The frames the loop visits, each with its similarity matrix. *)
Definition frames (data : SequenceData)
  : list (list nat * list nat * list (list Qc)) :=
  zip (zip (gt_ids data) (tracker_ids data)) (similarity_scores data).

(** In a frame, some detection of [g] and some detection of [t] have a
    similarity at or above the threshold. *)
Definition similar (thr : Qc) (fr : list nat * list nat * list (list Qc))
    (g t : nat) : bool :=
  let '(gs, ts, sim) := fr in
  existsb (λ i, existsb (λ j,
      bool_decide (gs !! i = Some g) && bool_decide (ts !! j = Some t)
      && match mat_get sim i j with
         | Some x => bool_decide (thr ≤ x)%Qc
         | None => false
         end) (seq 0 (length ts))) (seq 0 (length gs)).

Definition count_frames {A} (p : A → bool) (l : list A) : nat :=
  length (filter (λ x, Is_true (p x)) l).

Definition matchCount (thr : Qc) (data : SequenceData) (g t : nat) : nat :=
  count_frames (λ fr, similar thr fr g t) (frames data).
Definition gtCount (data : SequenceData) (g : nat) : nat :=
  count_frames (λ fr, bool_decide (g ∈ fr.1.1)) (frames data).
Definition trackerCount (data : SequenceData) (t : nat) : nat :=
  count_frames (λ fr, bool_decide (t ∈ fr.1.2)) (frames data).

Definition wf_frame (G T : nat) (fr : list nat * list nat * list (list Qc))
  : bool :=
  let '(gs, ts, sim) := fr in
  forallb (λ g, bool_decide (g < G)) gs
  && forallb (λ t, bool_decide (t < T)) ts
  && bool_decide (NoDup gs) && bool_decide (NoDup ts)
  && bool_decide (length sim = length gs)
  && forallb (λ row, bool_decide (length row = length ts)) sim.

(** Every index is within its declared range, a frame lists an identity at
    most once, the similarity matrices have the shape of their frames, and
    the detection totals are the totals of the frames. *)
Definition wf_data (data : SequenceData) : bool :=
  bool_decide (length (tracker_ids data) = length (gt_ids data))
  && bool_decide (length (similarity_scores data) = length (gt_ids data))
  && forallb (wf_frame (num_gt_ids data) (num_tracker_ids data)) (frames data)
  && bool_decide (num_gt_dets data = sum_list (length <$> gt_ids data))
  && bool_decide (num_tracker_dets data = sum_list (length <$> tracker_ids data)).

(** Every declared identity occurs in some frame. *)
Definition ids_present (data : SequenceData) : bool :=
  forallb (λ g, bool_decide (0 < gtCount data g)) (seq 0 (num_gt_ids data))
  && forallb (λ t, bool_decide (0 < trackerCount data t))
       (seq 0 (num_tracker_ids data)).

Definition valid_data (data : SequenceData) : bool :=
  wf_data data && ids_present data.

(** ** Auxiliary definitions *)

Definition tabulate {A} (n : nat) (f : nat → A) : list A := f <$> seq 0 n.
Definition tabulate2 {A} (r c : nat) (f : nat → nat → A) : list (list A) :=
  tabulate r (λ i, tabulate c (f i)).

(** The loop body of the accumulation, once the similarity matrix of the
    timestep has been fetched. *)
Definition frame_step (threshold : Qc) (G T : nat) (tb : Tables)
    (fr : list nat * list nat * list (list Qc)) : result Tables :=
  let '(gt_ids_t, tracker_ids_t, sim) := fr in
  let matches := nonzero_ge sim threshold in
  gs ← take_idx gt_ids_t matches.*1;
  ts ← take_idx tracker_ids_t matches.*2;
  pmc ← incr_at2 G T (potential_matches_count tb) gs ts;
  gc ← incr_at G (gt_id_count tb) gt_ids_t;
  tc ← incr_at T (tracker_id_count tb) tracker_ids_t;
  Ok {| potential_matches_count := pmc; gt_id_count := gc; tracker_id_count := tc |}.

(** The tables that hold the counts of the specification. *)
Definition count_tables (thr : Qc) (data : SequenceData) : Tables :=
  {| potential_matches_count :=
       tabulate2 (num_gt_ids data) (num_tracker_ids data)
         (λ g t, Qc_of_nat (matchCount thr data g t));
     gt_id_count := tabulate (num_gt_ids data) (λ g, Qc_of_nat (gtCount data g));
     tracker_id_count :=
       tabulate (num_tracker_ids data) (λ t, Qc_of_nat (trackerCount data t)) |}.

(** The construction of [fn_mat] and [fp_mat] shared by the two classes:
    they differ in the penalty [P] written into the sink blocks and in the
    values [sg], [st] written on the self-sink diagonals. *)
Definition gen_matrices (G T : nat) (P : Qc) (sg st : nat → Qc) (tb : Tables)
  : list (list Qc) * list (list Qc) :=
  let fp_mat := zeros2 (G + T) (G + T) in
  let fn_mat := zeros2 (G + T) (G + T) in
  let fp_mat := set_slice (from G) (upto T) P fp_mat in
  let fn_mat := set_slice (upto G) (from T) P fn_mat in
  let fn_mat :=
    foldl (λ fn_mat gt_id,
             let fn_mat := set_slice (only gt_id) (upto T)
                             (vec_at (gt_id_count tb) gt_id) fn_mat in
             set_slice (only gt_id) (only (T + gt_id)) (sg gt_id) fn_mat)
          fn_mat (seq 0 G) in
  let fp_mat :=
    foldl (λ fp_mat tracker_id,
             let fp_mat := set_slice (upto G) (only tracker_id)
                             (vec_at (tracker_id_count tb) tracker_id) fp_mat in
             set_slice (only (tracker_id + G)) (only tracker_id) (st tracker_id) fp_mat)
          fp_mat (seq 0 T) in
  let fn_mat := sub_block G T (potential_matches_count tb) fn_mat in
  let fp_mat := sub_block G T (potential_matches_count tb) fp_mat in
  (fn_mat, fp_mat).

(** The cells of [fn_mat] and [fp_mat] in closed form. *)
Definition fn_cell (G T : nat) (P : Qc) (sg : nat → Qc) (tb : Tables)
    (i j : nat) : Qc :=
  if bool_decide (i < G) then
    if bool_decide (j < T)
    then (vec_at (gt_id_count tb) i - mat_at (potential_matches_count tb) i j)%Qc
    else if bool_decide (j = T + i) then sg i else P
  else 0%Qc.

Definition fp_cell (G T : nat) (P : Qc) (st : nat → Qc) (tb : Tables)
    (i j : nat) : Qc :=
  if bool_decide (j < T) then
    if bool_decide (i < G)
    then (vec_at (tracker_id_count tb) j - mat_at (potential_matches_count tb) i j)%Qc
    else if bool_decide (i = j + G) then st j else P
  else 0%Qc.

(** What [Identity.eval_sequence] does with the solver's answer. *)
Definition Identity_finish (data : SequenceData) (tb : Tables)
    (match_rows match_cols : list nat) : result MetricResult :=
  fns ← take_idx2 (Identity.cost_matrices data tb).1 match_rows match_cols;
  fps ← take_idx2 (Identity.cost_matrices data tb).2 match_rows match_cols;
  let res := set_IDFN (astype_int (vec_sum fns)) init_res in
  let res := set_IDFP (astype_int (vec_sum fps)) res in
  let res := set_IDTP (astype_int (vec_sum (gt_id_count tb)
                                   - Qc_of_Z (IDFN res))%Qc) res in
  Ok (Identity._compute_final_fields res).

(** What [TrackIdentity.eval_sequence] does with the solver's answer. *)
Definition TrackIdentity_finish (cfg : Config) (data : SequenceData) (tb : Tables)
    (match_rows match_cols : list nat) : MetricResult :=
  let re_assigned := TrackIdentity.re_assigned cfg data tb match_rows match_cols in
  let res :=
    set_IDFN (Z.add
                (count_true (λ '(r, c), bool_decide (r < num_gt_ids data)
                                        && bool_decide (num_tracker_ids data ≤ c))
                   (zip match_rows match_cols))
                re_assigned) init_res in
  let res :=
    set_IDFP (Z.add
                (count_true (λ '(r, c), bool_decide (num_gt_ids data ≤ r)
                                        && bool_decide (c < num_tracker_ids data))
                   (zip match_rows match_cols))
                re_assigned) res in
  let res := set_IDTP (Z.of_nat (num_gt_ids data) - IDFN res)%Z res in
  Identity._compute_final_fields res.

(** The cells of the matrix of [TrackIdentity] in closed form. *)
Definition track_cell (G T : nat) (tb : Tables) (i j : nat) : npfloat :=
  if from G i && from T j then Fin 1%Qc
  else
    let x := (fn_cell G T 1 (λ _, lit_one_minus_1e6) tb i j
              + fp_cell G T 1 (λ _, lit_one_minus_1e6) tb i j)%Qc in
    if upto G i && upto T j
    then np_divide x (x + mat_at (potential_matches_count tb) i j)%Qc
    else Fin x.

(** The cells of [fn_mat] and [fp_mat] of [Identity] as integers, for the
    tables of the counts. *)
Definition fnZ (thr : Qc) (data : SequenceData) (i j : nat) : Z :=
  if bool_decide (i < num_gt_ids data) then
    if bool_decide (j < num_tracker_ids data)
    then Z.of_nat (gtCount data i) - Z.of_nat (matchCount thr data i j)
    else if bool_decide (j = num_tracker_ids data + i)
         then Z.of_nat (gtCount data i) else 10000000000
  else 0.

Definition fpZ (thr : Qc) (data : SequenceData) (i j : nat) : Z :=
  if bool_decide (j < num_tracker_ids data) then
    if bool_decide (i < num_gt_ids data)
    then Z.of_nat (trackerCount data j) - Z.of_nat (matchCount thr data i j)
    else if bool_decide (i = j + num_gt_ids data)
         then Z.of_nat (trackerCount data j) else 10000000000
  else 0.

Definition sumZ (f : nat → nat → Z) (pairs : list (nat * nat)) : Z :=
  foldr Z.add 0%Z ((λ '(i, j), f i j) <$> pairs).

(** The track-level overlap ratio of the specification and the units a
    matched pair adds to [IDFN] and to [IDFP]. *)
Definition overlap_ratio (thr : Qc) (data : SequenceData) (g t : nat) : Qc :=
  (Qc_of_nat (matchCount thr data g t) / Qc_of_nat (trackerCount data t))%Qc.

Definition rejected (cfg : Config) (data : SequenceData) (g t : nat) : bool :=
  bool_decide (overlap_ratio (THRESHOLD cfg) data g t ≤ TRACK_IOU_THRESH cfg)%Qc.

Definition track_fn_units (cfg : Config) (data : SequenceData) (r c : nat) : Z :=
  if bool_decide (r < num_gt_ids data) then
    if bool_decide (c < num_tracker_ids data)
    then (if rejected cfg data r c then 1 else 0)
    else 1
  else 0.

Definition track_fp_units (cfg : Config) (data : SequenceData) (r c : nat) : Z :=
  if bool_decide (c < num_tracker_ids data) then
    if bool_decide (r < num_gt_ids data)
    then (if rejected cfg data r c then 1 else 0)
    else 1
  else 0.

(** A sequence of two frames with two ground-truth identities and one
    tracker identity. *)
Definition example_data : SequenceData :=
  {| num_gt_ids := 2; num_tracker_ids := 1;
     num_gt_dets := 3; num_tracker_dets := 2;
     gt_ids := [[0; 1]; [0]]; tracker_ids := [[0]; [0]];
     similarity_scores := [[[Q_of 3 4]; [Q_of 1 4]]; [[Q_of 3 5]]] |}.

(** A sequence without tracker detections, on which the shortcut of
    [TrackIdentity.eval_sequence] is taken. *)
Definition no_tracker_data : SequenceData :=
  {| num_gt_ids := 2; num_tracker_ids := 0;
     num_gt_dets := 3; num_tracker_dets := 0;
     gt_ids := [[0; 1]; [0]]; tracker_ids := [[]; []];
     similarity_scores := [[[]; []]; [[]]] |}.

Definition costZ (thr : Qc) (data : SequenceData) (i j : nat) : Z :=
  fnZ thr data i j + fpZ thr data i j.

(** Detections of the identity a row or a column stands for; none for a
    sink. *)
Definition row_dets (data : SequenceData) (i : nat) : Z :=
  if bool_decide (i < num_gt_ids data) then Z.of_nat (gtCount data i) else 0.
Definition col_dets (data : SequenceData) (j : nat) : Z :=
  if bool_decide (j < num_tracker_ids data) then Z.of_nat (trackerCount data j) else 0.

(** A ground-truth row paired with the sink of another ground-truth
    identity, and [fn_mat] with the penalty of such cells replaced by what the
    row's own sink costs. *)
Definition bad_pair (G T : nat) (i j : nat) : bool :=
  bool_decide (i < G) && bool_decide (T ≤ j) && negb (bool_decide (j = T + i)).

Definition fn_relaxed (thr : Qc) (data : SequenceData) (i j : nat) : Z :=
  if bool_decide (i < num_gt_ids data) then
    if bool_decide (j < num_tracker_ids data)
    then Z.of_nat (gtCount data i) - Z.of_nat (matchCount thr data i j)
    else Z.of_nat (gtCount data i)
  else 0.

Definition sumN (n : nat) (h : nat → Z) : Z := foldr Z.add 0%Z (h <$> seq 0 n).

(** The misplaced ground-truth rows of an assignment, and its cost under
    the relaxed [fn_mat]. *)
Definition misplaced_rows (data : SequenceData) (cols : list nat) : Z :=
  let G := num_gt_ids data in
  let T := num_tracker_ids data in
  sumN (G + T) (λ i, if bad_pair G T i (cols !!! i) then 1 else 0)%Z.

Definition relaxed_cost (thr : Qc) (data : SequenceData) (cols : list nat) : Z :=
  sumN (num_gt_ids data + num_tracker_ids data)
       (λ i, fn_relaxed thr data i (cols !!! i) + fpZ thr data i (cols !!! i))%Z.

(** The assignment that sends every identity to its own sink. *)
Definition all_unmatched (G T : nat) : list nat := seq T G ++ seq 0 T.

(** A sequence of thirty thousand million frames.  Both ground-truth
    identities occur in every frame; the tracker identity occurs in the first
    half of the frames, with similarity 0.6 to identity 0 and 0 to
    identity 1. *)
Definition half_len_sig : {n : nat | Z.of_nat n = 15000000000%Z}.
Proof. exists (Z.to_nat 15000000000). apply Z2Nat.id. discriminate. Qed.

(** Fifteen thousand million, as a unary number that is never expanded. *)
Definition half_len : nat := proj1_sig half_len_sig.

Definition long_data : SequenceData :=
  {| num_gt_ids := 2; num_tracker_ids := 1;
     num_gt_dets := 4 * half_len; num_tracker_dets := half_len;
     gt_ids := replicate half_len [0; 1] ++ replicate half_len [0; 1];
     tracker_ids := replicate half_len [0] ++ replicate half_len [];
     similarity_scores :=
       replicate half_len [[Q_of 3 5]; [0%Qc]] ++ replicate half_len [[]; []] |}.

Definition config_high : Config :=
  {| THRESHOLD := Q_of 7 10; TRACK_IOU_THRESH := Q_of 1 5 |}.

Definition long_frame_a : list nat * list nat * list (list Qc) :=
  ([0; 1], [0], [[Q_of 3 5]; [0%Qc]]).
Definition long_frame_b : list nat * list nat * list (list Qc) :=
  ([0; 1], [], [[]; []]).

(** The shape of [long_data] without its frames, and its tables at the
    thresholds 0.5 and 0.7. *)
Definition long_shape : SequenceData :=
  {| num_gt_ids := 2; num_tracker_ids := 1;
     num_gt_dets := 0; num_tracker_dets := 0;
     gt_ids := []; tracker_ids := []; similarity_scores := [] |}.

Definition long_tables_low : Tables :=
  {| potential_matches_count := [[Qc_of_Z 15000000000]; [Qc_of_Z 0]];
     gt_id_count := [Qc_of_Z 30000000000; Qc_of_Z 30000000000];
     tracker_id_count := [Qc_of_Z 15000000000] |}.

Definition long_tables_high : Tables :=
  {| potential_matches_count := [[Qc_of_Z 0]; [Qc_of_Z 0]];
     gt_id_count := [Qc_of_Z 30000000000; Qc_of_Z 30000000000];
     tracker_id_count := [Qc_of_Z 15000000000] |}.

(** A finite floating-point value between 0 and 1. *)
Definition in_unit_interval (x : npfloat) : Prop :=
  ∃ q, x = Fin q ∧ (0 ≤ q)%Qc ∧ (q ≤ 1)%Qc.

Definition finite_or_zero (x : npfloat) : Qc :=
  match x with Fin q => q | _ => 0%Qc end.

(** A timestep without a similarity matrix, or with an identity index
    outside the declared range. *)
Definition bad_frame (data : SequenceData) (fr : nat * (list nat * list nat))
  : Prop :=
  length (similarity_scores data) ≤ fr.1
  ∨ (∃ g, g ∈ fr.2.1 ∧ num_gt_ids data ≤ g)
  ∨ (∃ t, t ∈ fr.2.2 ∧ num_tracker_ids data ≤ t).

(** The potential matches a pair of an assignment realises: [matchCount]
    for a pair of real identities, nothing for a pair with a sink. *)
Definition matched (thr : Qc) (data : SequenceData) (i j : nat) : Z :=
  if bool_decide (i < num_gt_ids data) && bool_decide (j < num_tracker_ids data)
  then Z.of_nat (matchCount thr data i j) else 0.

(** A sink row paired with a tracker identity that is not its own, and
    [fp_mat] with the penalty of such cells replaced by what the tracker's
    own sink costs. *)
Definition bad_pair_fp (G T : nat) (i j : nat) : bool :=
  bool_decide (G ≤ i) && bool_decide (j < T) && negb (bool_decide (i = j + G)).

Definition fp_relaxed (thr : Qc) (data : SequenceData) (i j : nat) : Z :=
  if bool_decide (j < num_tracker_ids data) then
    if bool_decide (i < num_gt_ids data)
    then Z.of_nat (trackerCount data j) - Z.of_nat (matchCount thr data i j)
    else Z.of_nat (trackerCount data j)
  else 0.

Definition misplaced_sinks (data : SequenceData) (cols : list nat) : Z :=
  let G := num_gt_ids data in
  let T := num_tracker_ids data in
  sumN (G + T) (λ i, if bad_pair_fp G T i (cols !!! i) then 1 else 0)%Z.

Definition relaxed_cost_both (thr : Qc) (data : SequenceData) (cols : list nat) : Z :=
  sumN (num_gt_ids data + num_tracker_ids data)
       (λ i, fn_relaxed thr data i (cols !!! i)
             + fp_relaxed thr data i (cols !!! i))%Z.

(** A second reference solver, which searches the assignments in the
    opposite order and so breaks ties the other way. *)
Definition exhaustive_lsa_last (M : list (list npfloat))
  : result (list nat * list nat) :=
  match to_finite M with
  | Some Mq =>
      let rows := seq 0 (length Mq) in
      Ok (rows, argmin (assignment_cost Mq rows) rows (reverse (permutations rows)))
  | None => Raise ValueError
  end.

(** A sequence whose only frame lists the ground-truth index 1 although one
    identity is declared. *)
Definition out_of_range_data : SequenceData :=
  {| num_gt_ids := 1; num_tracker_ids := 1;
     num_gt_dets := 1; num_tracker_dets := 1;
     gt_ids := [[1]]; tracker_ids := [[0]];
     similarity_scores := [[[Q_of 9 10]]] |}.

(** [example_data] with its two frames in the opposite order. *)
Definition example_data_reversed : SequenceData :=
  {| num_gt_ids := 2; num_tracker_ids := 1;
     num_gt_dets := 3; num_tracker_dets := 2;
     gt_ids := [[0]; [0; 1]]; tracker_ids := [[0]; [0]];
     similarity_scores := [[[Q_of 3 5]]; [[Q_of 3 4]; [Q_of 1 4]]] |}.

(** A sequence in which the tracker reproduces the two ground-truth
    identities. *)
Definition perfect_data : SequenceData :=
  {| num_gt_ids := 2; num_tracker_ids := 2;
     num_gt_dets := 3; num_tracker_dets := 3;
     gt_ids := [[0; 1]; [0]]; tracker_ids := [[0; 1]; [0]];
     similarity_scores := [[[1%Qc; 0%Qc]; [0%Qc; 1%Qc]]; [[1%Qc]]] |}.

(** The default configuration with [TRACK_IOU_THRESH] raised to 1. *)
Definition config_strict : Config :=
  {| THRESHOLD := Q_of 1 2; TRACK_IOU_THRESH := 1%Qc |}.

(** The result of a sequence of three ground-truth detections that the
    tracker missed. *)
Definition missed_result : MetricResult :=
  {| IDF1 := Fin 0; IDR := Fin 0; IDP := Fin 1; IDTP := 0; IDFN := 3; IDFP := 0 |}.

(** A sequence of eight frames in which two ground-truth tracks tie for one
    tracker track: identity 0 occurs once, matched; identity 1 occurs seven
    times, matched twice; the tracker identity occurs five times. *)
Definition tie_data : SequenceData :=
  {| num_gt_ids := 2; num_tracker_ids := 1;
     num_gt_dets := 8; num_tracker_dets := 5;
     gt_ids := [[0]; [1]; [1]; [1]; [1]; [1]; [1]; [1]];
     tracker_ids := [[0]; [0]; [0]; [0]; [0]; []; []; []];
     similarity_scores :=
       [[[1%Qc]]; [[1%Qc]]; [[1%Qc]]; [[0%Qc]]; [[0%Qc]]; [[]]; [[]]; [[]]] |}.

(** The three counts of a result, if there is one. *)
Definition result_counts (m : result MetricResult) : option (Z * Z * Z) :=
  match m with
  | Ok r => Some (IDTP r, IDFN r, IDFP r)
  | Raise _ => None
  end.

(** ** Proof automation *)

(** Moves a goal between integer-valued rationals to the integers. *)
Ltac qc_of_Z :=
  unfold Qc_of_nat, lit_1e10;
  rewrite <-?Z2Qc_inj_1, <-?Z2Qc_inj_0;
  repeat (rewrite <-?Z2Qc_inj_add, <-?Z2Qc_inj_sub, <-?Z2Qc_inj_mul, <-?Z2Qc_inj_opp);
  first [apply -> Z2Qc_inj_lt | apply -> Z2Qc_inj_le | apply <- Z2Qc_inj_iff | idtac].

(** Decides which block of the track-level matrix a cell lies in. *)
Ltac cell_cases :=
  unfold track_cell, fn_cell, fp_cell, from, upto, lit_one_minus_1e6;
  repeat (case_bool_decide; try lia); cbn [andb];
  first [done | apply (f_equal (λ x, Some (Fin x))); ring].

(** * Properties *)

(** ** Lists and arrays *)

Lemma lookup_tabulate {A} n (f : nat → A) i :
  i < n → tabulate n f !! i = Some (f i).
Proof.
  intros Hi. unfold tabulate. rewrite list_lookup_fmap, lookup_seq_lt by done.
  done.
Qed.

Lemma lookup_tabulate_ge {A} n (f : nat → A) i :
  n ≤ i → tabulate n f !! i = None.
Proof.
  intros Hi. unfold tabulate. rewrite list_lookup_fmap, lookup_seq_ge by done.
  done.
Qed.

Lemma length_tabulate {A} n (f : nat → A) : length (tabulate n f) = n.
Proof. unfold tabulate. by rewrite length_fmap, length_seq. Qed.

Lemma length_tabulate2 {A} r c (f : nat → nat → A) : length (tabulate2 r c f) = r.
Proof. apply length_tabulate. Qed.

Lemma tabulate_ext {A} n (f g : nat → A) :
  (∀ i, i < n → f i = g i) → tabulate n f = tabulate n g.
Proof.
  intros Hfg. apply list_eq; intros i. destruct (decide (i < n)).
  - rewrite !lookup_tabulate by done. by rewrite Hfg.
  - rewrite !lookup_tabulate_ge by lia. done.
Qed.

Lemma imap_tabulate {A B} (h : nat → A → B) n (f : nat → A) :
  imap h (tabulate n f) = tabulate n (λ i, h i (f i)).
Proof.
  apply list_eq; intros i. rewrite list_lookup_imap.
  destruct (decide (i < n)).
  - rewrite !lookup_tabulate by done. done.
  - rewrite !lookup_tabulate_ge by lia. done.
Qed.

Lemma mat_imap_tabulate2 {A B} (h : nat → nat → A → B) r c (f : nat → nat → A) :
  mat_imap h (tabulate2 r c f) = tabulate2 r c (λ i j, h i j (f i j)).
Proof.
  unfold mat_imap, tabulate2. rewrite imap_tabulate.
  apply tabulate_ext; intros i _. apply imap_tabulate.
Qed.

Lemma zeros_tabulate n : zeros n = tabulate n (λ _, 0%Qc).
Proof.
  apply list_eq; intros i. unfold zeros. destruct (decide (i < n)).
  - rewrite lookup_tabulate, lookup_replicate_2 by done. done.
  - rewrite lookup_tabulate_ge by lia. by apply lookup_replicate_None; lia.
Qed.

Lemma zeros2_tabulate r c : zeros2 r c = tabulate2 r c (λ _ _, 0%Qc).
Proof.
  apply list_eq; intros i. unfold zeros2, tabulate2. destruct (decide (i < r)).
  - rewrite lookup_tabulate, lookup_replicate_2 by done. by rewrite zeros_tabulate.
  - rewrite lookup_tabulate_ge by lia. by apply lookup_replicate_None; lia.
Qed.

Lemma mat_get_tabulate2 {A} r c (f : nat → nat → A) i j :
  i < r → j < c → mat_get (tabulate2 r c f) i j = Some (f i j).
Proof.
  intros Hi Hj. unfold mat_get, tabulate2. rewrite lookup_tabulate by done.
  simpl. by rewrite lookup_tabulate.
Qed.

Lemma mat_at_tabulate2 r c (f : nat → nat → Qc) i j :
  i < r → j < c → mat_at (tabulate2 r c f) i j = f i j.
Proof. intros. unfold mat_at. by rewrite mat_get_tabulate2. Qed.

Lemma vec_at_tabulate n (f : nat → Qc) i : i < n → vec_at (tabulate n f) i = f i.
Proof. intros. unfold vec_at. by rewrite lookup_tabulate. Qed.

Lemma mat_get_imap {A B} (h : nat → nat → A → B) M i j :
  mat_get (mat_imap h M) i j = h i j <$> mat_get M i j.
Proof.
  unfold mat_get, mat_imap. rewrite list_lookup_imap.
  destruct (M !! i) as [row|]; simpl; [|done]. by rewrite list_lookup_imap.
Qed.

(** ** The accumulation computes the counts of the specification *)

Lemma nonzero_ge_spec sim thr i j :
  (i, j) ∈ nonzero_ge sim thr ↔ ∃ x, mat_get sim i j = Some x ∧ (thr ≤ x)%Qc.
Proof.
  unfold nonzero_ge, mat_get. rewrite list_elem_of_join. split.
  - intros (l & Hin & Hl). apply elem_of_lookup_imap in Hl as (i' & row & -> & Hrow).
    apply list_elem_of_omap in Hin as ([j' x] & Hjx & Hx).
    apply elem_of_lookup_imap in Hjx as (j'' & x' & [= -> ->] & Hx').
    case_bool_decide; [|done]. injection Hx as -> ->.
    exists x'. rewrite Hrow. simpl. done.
  - intros (x & Hx & Hle). destruct (sim !! i) as [row|] eqn:Hrow; [|done].
    simpl in Hx.
    exists (omap (λ '(j, x), if bool_decide (thr ≤ x)%Qc then Some (i, j) else None)
              (imap pair row)).
    split.
    + apply list_elem_of_omap. exists (j, x). split.
      * apply elem_of_lookup_imap. by exists j, x.
      * by rewrite bool_decide_eq_true_2.
    + apply elem_of_lookup_imap. by exists i, row.
Qed.

Lemma take_idx_ok (a : list nat) idx :
  Forall (λ i, i < length a) idx →
  take_idx a idx = Ok ((λ i, a !!! i) <$> idx).
Proof.
  unfold take_idx. induction 1 as [|i idx Hi _ IH]; [done|].
  cbn [mapM]. rewrite IH, (list_lookup_lookup_total_lt a i) by done. done.
Qed.

Lemma accumulate_step_frame thr data tb k gs ts sim :
  similarity_scores data !! k = Some sim →
  accumulate_step thr data tb (k, (gs, ts))
  = frame_step thr (num_gt_ids data) (num_tracker_ids data) tb (gs, ts, sim).
Proof. intros Hsim. unfold accumulate_step, frame_step. by rewrite Hsim. Qed.

Lemma similar_true thr gs ts sim g t :
  similar thr (gs, ts, sim) g t = true ↔
  ∃ i j x, gs !! i = Some g ∧ ts !! j = Some t
           ∧ mat_get sim i j = Some x ∧ (thr ≤ x)%Qc.
Proof.
  unfold similar. rewrite existsb_exists. split.
  - intros (i & _ & Hi). apply existsb_exists in Hi as (j & _ & Hj).
    apply andb_true_iff in Hj as [Hj Hx]. apply andb_true_iff in Hj as [Hg Ht].
    apply bool_decide_eq_true in Hg, Ht.
    destruct (mat_get sim i j) as [x|] eqn:Hm; [|done].
    apply bool_decide_eq_true in Hx. by exists i, j, x.
  - intros (i & j & x & Hg & Ht & Hm & Hx). exists i. split.
    { apply in_seq. apply lookup_lt_Some in Hg. lia. }
    apply existsb_exists. exists j. split.
    { apply in_seq. apply lookup_lt_Some in Ht. lia. }
    rewrite Hm. by rewrite !bool_decide_eq_true_2.
Qed.

Lemma zip_take_idx (gs ts : list nat) (m : list (nat * nat)) :
  zip ((λ i, gs !!! i) <$> m.*1) ((λ j, ts !!! j) <$> m.*2)
  = (λ p, (gs !!! p.1, ts !!! p.2)) <$> m.
Proof. induction m as [|[i j] m IH]; [done|]. cbn. by f_equal. Qed.

Lemma mat_get_lt {A} (M : list (list A)) n i j x :
  Forall (λ row, length row = n) M → mat_get M i j = Some x →
  i < length M ∧ j < n.
Proof.
  unfold mat_get. intros HM Hx. destruct (M !! i) as [row|] eqn:Hrow; [|done].
  simpl in Hx. split; [by eapply lookup_lt_Some|].
  rewrite Forall_lookup in HM. rewrite <-(HM _ _ Hrow). by eapply lookup_lt_Some.
Qed.

Lemma similar_matched thr gs ts sim g t :
  length sim = length gs → Forall (λ row, length row = length ts) sim →
  similar thr (gs, ts, sim) g t
  = bool_decide ((g, t) ∈ (λ p, (gs !!! p.1, ts !!! p.2)) <$> nonzero_ge sim thr).
Proof.
  intros Hrows Hcols. apply eq_true_iff_eq. rewrite similar_true.
  rewrite bool_decide_eq_true, list_elem_of_fmap. split.
  - intros (i & j & x & Hg & Ht & Hm & Hx). exists (i, j). simpl. split.
    + by rewrite (list_lookup_total_correct _ _ _ Hg),
        (list_lookup_total_correct _ _ _ Ht).
    + apply nonzero_ge_spec. eauto.
  - intros ([i j] & [= -> ->] & Hin). apply nonzero_ge_spec in Hin as (x & Hm & Hx).
    destruct (mat_get_lt _ _ _ _ _ Hcols Hm) as [Hi Hj]. simpl.
    exists i, j, x. split_and!; [| |done..].
    + apply list_lookup_lookup_total_lt. lia.
    + by apply list_lookup_lookup_total_lt.
Qed.

Lemma wf_frame_spec G T gs ts sim :
  wf_frame G T (gs, ts, sim) = true →
  Forall (λ g, g < G) gs ∧ Forall (λ t, t < T) ts ∧ NoDup gs ∧ NoDup ts
  ∧ length sim = length gs ∧ Forall (λ row, length row = length ts) sim.
Proof.
  unfold wf_frame. rewrite !andb_true_iff, !bool_decide_eq_true.
  intros [[[[[Hg Ht] ?] ?] ?] Hs]. split_and!; [| |done..| ].
  - apply Forall_forall. intros g Hin. rewrite forallb_forall in Hg.
    apply list_elem_of_In, Hg in Hin. by apply bool_decide_eq_true in Hin.
  - apply Forall_forall. intros g Hin. rewrite forallb_forall in Ht.
    apply list_elem_of_In, Ht in Hin. by apply bool_decide_eq_true in Hin.
  - apply Forall_forall. intros g Hin. rewrite forallb_forall in Hs.
    apply list_elem_of_In, Hs in Hin. by apply bool_decide_eq_true in Hin.
Qed.

Lemma incr_at_tabulate n idx (a : nat → Qc) :
  Forall (λ i, i < n) idx →
  incr_at n (tabulate n a) idx
  = Ok (tabulate n (λ i, if bool_decide (i ∈ idx) then (a i + 1)%Qc else a i)).
Proof.
  intros Hidx. unfold incr_at.
  replace (forallb _ idx) with true; [by rewrite imap_tabulate|].
  symmetry. apply forallb_forall. intros i Hi. apply bool_decide_eq_true_2.
  rewrite Forall_forall in Hidx. by apply Hidx, list_elem_of_In.
Qed.

Lemma incr_at2_tabulate r c rs cs (f : nat → nat → Qc) :
  Forall (λ p, p.1 < r ∧ p.2 < c) (zip rs cs) →
  incr_at2 r c (tabulate2 r c f) rs cs
  = Ok (tabulate2 r c (λ i j, if bool_decide ((i, j) ∈ zip rs cs)
                              then (f i j + 1)%Qc else f i j)).
Proof.
  intros Hidx. unfold incr_at2.
  replace (forallb _ (zip rs cs)) with true; [by rewrite mat_imap_tabulate2|].
  symmetry. apply forallb_forall. intros [i j] Hi.
  rewrite Forall_forall in Hidx. apply list_elem_of_In, Hidx in Hi as [??].
  simpl in *. by rewrite !bool_decide_eq_true_2.
Qed.

Lemma frame_step_tabulate thr G T gs ts sim (f : nat → nat → Qc) (a b : nat → Qc) :
  wf_frame G T (gs, ts, sim) = true →
  frame_step thr G T
    {| potential_matches_count := tabulate2 G T f;
       gt_id_count := tabulate G a; tracker_id_count := tabulate T b |}
    (gs, ts, sim)
  = Ok {| potential_matches_count :=
            tabulate2 G T (λ g t, if similar thr (gs, ts, sim) g t
                                  then (f g t + 1)%Qc else f g t);
          gt_id_count :=
            tabulate G (λ g, if bool_decide (g ∈ gs) then (a g + 1)%Qc else a g);
          tracker_id_count :=
            tabulate T (λ t, if bool_decide (t ∈ ts) then (b t + 1)%Qc else b t) |}.
Proof.
  intros (Hg & Ht & _ & _ & Hrows & Hcols)%wf_frame_spec.
  assert (Hm : ∀ i j, (i, j) ∈ nonzero_ge sim thr → i < length gs ∧ j < length ts).
  { intros i j (x & Hx & _)%nonzero_ge_spec.
    destruct (mat_get_lt _ _ _ _ _ Hcols Hx). lia. }
  unfold frame_step. rewrite !take_idx_ok; first last.
  { apply Forall_fmap, Forall_forall. intros [i j] Hin. by apply (Hm i j). }
  { apply Forall_fmap, Forall_forall. intros [i j] Hin. by apply (Hm i j). }
  cbn [mbind result_bind potential_matches_count gt_id_count tracker_id_count].
  rewrite incr_at2_tabulate; rewrite zip_take_idx; first last.
  { apply Forall_fmap, Forall_forall. intros [i j] Hin. simpl.
    destruct (Hm i j Hin) as [Hi Hj]. rewrite Forall_forall in Hg, Ht. split.
    - apply Hg, list_elem_of_lookup_total_2. done.
    - apply Ht, list_elem_of_lookup_total_2. done. }
  cbn [mbind result_bind]. rewrite !incr_at_tabulate by done.
  cbn [mbind result_bind]. do 2 f_equal.
  unfold tabulate2. apply tabulate_ext; intros g _. apply tabulate_ext; intros t _.
  by rewrite similar_matched.
Qed.

Lemma count_frames_cons {A} (p : A → bool) x l :
  count_frames p (x :: l) = (if p x then 1 else 0) + count_frames p l.
Proof.
  unfold count_frames. rewrite filter_cons.
  destruct (p x); [rewrite decide_True by done|rewrite decide_False by auto]; done.
Qed.

Lemma count_frames_app {A} (p : A → bool) l k :
  count_frames p (l ++ k) = count_frames p l + count_frames p k.
Proof. unfold count_frames. by rewrite filter_app, length_app. Qed.

Lemma count_frames_le {A} (p q : A → bool) l :
  (∀ x, x ∈ l → p x = true → q x = true) → count_frames p l ≤ count_frames q l.
Proof.
  induction l as [|x l IH]; intros Hpq; [done|]. rewrite !count_frames_cons.
  assert (count_frames p l ≤ count_frames q l).
  { apply IH. intros y Hy. apply Hpq. by right. }
  destruct (p x) eqn:Hp.
  - rewrite (Hpq x) by (done || left). lia.
  - destruct (q x); lia.
Qed.

Lemma Qc_of_nat_S n : Qc_of_nat (S n) = (Qc_of_nat n + 1)%Qc.
Proof.
  unfold Qc_of_nat. by rewrite Nat2Z.inj_succ, <-Z.add_1_r, Z2Qc_inj_add, Z2Qc_inj_1.
Qed.

Lemma Qc_of_nat_0 : Qc_of_nat 0 = 0%Qc.
Proof. apply Z2Qc_inj_0. Qed.

Lemma foldM_frames_tabulate thr G T frs :
  ∀ (f : nat → nat → Qc) (a b : nat → Qc),
  Forall (λ fr, wf_frame G T fr = true) frs →
  foldM (frame_step thr G T)
    {| potential_matches_count := tabulate2 G T f;
       gt_id_count := tabulate G a; tracker_id_count := tabulate T b |} frs
  = Ok {| potential_matches_count :=
            tabulate2 G T (λ g t,
              f g t + Qc_of_nat (count_frames (λ fr, similar thr fr g t) frs))%Qc;
          gt_id_count :=
            tabulate G (λ g,
              a g + Qc_of_nat (count_frames (λ fr, bool_decide (g ∈ fr.1.1)) frs))%Qc;
          tracker_id_count :=
            tabulate T (λ t,
              b t + Qc_of_nat (count_frames (λ fr, bool_decide (t ∈ fr.1.2)) frs))%Qc |}.
Proof.
  induction frs as [|[[gs ts] sim] frs IH]; intros f a b Hwf.
  - simpl. do 2 f_equal.
    + unfold tabulate2. apply tabulate_ext; intros g _. apply tabulate_ext; intros t _.
      unfold count_frames. simpl. rewrite Qc_of_nat_0. ring.
    + apply tabulate_ext; intros g _. unfold count_frames. simpl.
      rewrite Qc_of_nat_0. ring.
    + apply tabulate_ext; intros g _. unfold count_frames. simpl.
      rewrite Qc_of_nat_0. ring.
  - apply Forall_cons in Hwf as [Hfr Hwf]. cbn [foldM].
    rewrite frame_step_tabulate by done. cbn [mbind result_bind].
    rewrite IH by done. do 2 f_equal.
    + unfold tabulate2. apply tabulate_ext; intros g _. apply tabulate_ext; intros t _.
      rewrite count_frames_cons. destruct (similar thr (gs, ts, sim) g t).
      * rewrite Nat.add_1_l, Qc_of_nat_S. ring.
      * done.
    + apply tabulate_ext; intros g _. rewrite count_frames_cons. cbn [fst snd].
      destruct (bool_decide (g ∈ gs)).
      * rewrite Nat.add_1_l, Qc_of_nat_S. ring.
      * done.
    + apply tabulate_ext; intros t _. rewrite count_frames_cons. cbn [fst snd].
      destruct (bool_decide (t ∈ ts)).
      * rewrite Nat.add_1_l, Qc_of_nat_S. ring.
      * done.
Qed.

Lemma foldM_accumulate_frames thr data (l : list (list nat * list nat)) :
  ∀ k tb, length l ≤ length (drop k (similarity_scores data)) →
  foldM (accumulate_step thr data) tb (imap (λ i, pair (k + i)) l)
  = foldM (frame_step thr (num_gt_ids data) (num_tracker_ids data)) tb
      (zip l (drop k (similarity_scores data))).
Proof.
  induction l as [|[gs ts] l IH]; intros k tb Hlen; [done|].
  destruct (drop k (similarity_scores data)) as [|sim rest] eqn:Hdrop;
    [simpl in Hlen; lia|].
  assert (Hk : similarity_scores data !! k = Some sim).
  { rewrite <-(Nat.add_0_r k), <-lookup_drop, Hdrop. done. }
  rewrite imap_cons. cbn [foldM zip zip_with]. rewrite Nat.add_0_r.
  rewrite (accumulate_step_frame _ _ _ _ _ _ _ Hk).
  destruct (frame_step _ _ _ tb (gs, ts, sim)) as [tb'|e]; [|done].
  cbn [mbind result_bind].
  assert (Hrest : drop (S k) (similarity_scores data) = rest).
  { rewrite <-Nat.add_1_r, <-drop_drop, Hdrop. done. }
  rewrite <-Hrest. rewrite <-IH.
  - f_equal. apply imap_ext. intros i x _. simpl. f_equal. lia.
  - rewrite Hrest. simpl in Hlen. lia.
Qed.

Lemma accumulate_frames thr data :
  length (gt_ids data) ≤ length (similarity_scores data) →
  accumulate thr data
  = foldM (frame_step thr (num_gt_ids data) (num_tracker_ids data))
      {| potential_matches_count := zeros2 (num_gt_ids data) (num_tracker_ids data);
         gt_id_count := zeros (num_gt_ids data);
         tracker_id_count := zeros (num_tracker_ids data) |}
      (frames data).
Proof.
  intros Hlen. unfold accumulate, frames.
  pose proof (foldM_accumulate_frames thr data
                (zip (gt_ids data) (tracker_ids data)) 0) as H.
  rewrite drop_0 in H. rewrite <-H; [done|].
  rewrite length_zip. lia.
Qed.

Lemma wf_data_spec data :
  wf_data data = true →
  length (tracker_ids data) = length (gt_ids data)
  ∧ length (similarity_scores data) = length (gt_ids data)
  ∧ Forall (λ fr, wf_frame (num_gt_ids data) (num_tracker_ids data) fr = true)
      (frames data)
  ∧ num_gt_dets data = sum_list (length <$> gt_ids data)
  ∧ num_tracker_dets data = sum_list (length <$> tracker_ids data).
Proof.
  unfold wf_data. rewrite !andb_true_iff, !bool_decide_eq_true.
  intros [[[[? ?] Hfr] ?] ?]. split_and!; try done.
  apply Forall_forall. intros fr Hin. rewrite forallb_forall in Hfr.
  by apply Hfr, list_elem_of_In.
Qed.

(** Under well-formed input the accumulation raises nothing and returns the
    tables of the counts. *)
Lemma accumulate_counts thr data :
  wf_data data = true → accumulate thr data = Ok (count_tables thr data).
Proof.
  intros (Hlt & Hls & Hfr & _ & _)%wf_data_spec.
  rewrite accumulate_frames by lia.
  rewrite zeros2_tabulate, !zeros_tabulate, foldM_frames_tabulate by done.
  unfold count_tables, matchCount, gtCount, trackerCount. do 2 f_equal.
  - unfold tabulate2. apply tabulate_ext; intros g _. apply tabulate_ext; intros t _.
    ring.
  - apply tabulate_ext; intros g _. ring.
  - apply tabulate_ext; intros g _. ring.
Qed.

(** ** The cost matrices in closed form *)

Lemma foldl_seq_at {A} (h : nat → A → A) k n x :
  (∀ g y, g ≠ k → h g y = y) →
  foldl (λ y g, h g y) x (seq 0 n) = if bool_decide (k < n) then h k x else x.
Proof.
  intros Hh. induction n as [|n IH]; [done|].
  rewrite seq_S, foldl_app, IH. simpl.
  destruct (decide (k = n)) as [->|Hne].
  - rewrite bool_decide_eq_false_2, bool_decide_eq_true_2 by lia. done.
  - rewrite Hh by done. repeat case_bool_decide; done || lia.
Qed.

Lemma foldl_mat_imap_tabulate2 {A} (body : nat → list (list A) → list (list A))
    (hb : nat → nat → nat → A → A) r c l :
  (∀ g f, body g (tabulate2 r c f) = tabulate2 r c (λ i j, hb g i j (f i j))) →
  ∀ f, foldl (λ M g, body g M) (tabulate2 r c f) l
       = tabulate2 r c (λ i j, foldl (λ x g, hb g i j x) (f i j) l).
Proof.
  intros Hbody. induction l as [|g l IH]; intros f; [done|].
  simpl. by rewrite Hbody, IH.
Qed.

Lemma gen_matrices_tabulate G T P sg st tb :
  gen_matrices G T P sg st tb
  = (tabulate2 (G + T) (G + T) (fn_cell G T P sg tb),
     tabulate2 (G + T) (G + T) (fp_cell G T P st tb)).
Proof.
  unfold gen_matrices, set_slice, sub_block. rewrite zeros2_tabulate.
  rewrite !mat_imap_tabulate2.
  rewrite (foldl_mat_imap_tabulate2 _
             (λ g i j x, if only g i && only (T + g) j then sg g
                         else if only g i && upto T j
                              then vec_at (gt_id_count tb) g else x));
    [|intros g f; by rewrite !mat_imap_tabulate2].
  rewrite (foldl_mat_imap_tabulate2 _
             (λ t i j x, if only (t + G) i && only t j then st t
                         else if upto G i && only t j
                              then vec_at (tracker_id_count tb) t else x));
    [|intros g f; by rewrite !mat_imap_tabulate2].
  rewrite !mat_imap_tabulate2. f_equal.
  - unfold tabulate2. apply tabulate_ext; intros i Hi. apply tabulate_ext; intros j Hj.
    rewrite (foldl_seq_at (λ g x, if only g i && only (T + g) j then sg g
                         else if only g i && upto T j
                              then vec_at (gt_id_count tb) g else x) i).
    + unfold fn_cell, only, upto, from.
      repeat (case_bool_decide; simpl; try lia); done.
    + intros g y Hg. unfold only. rewrite !bool_decide_eq_false_2 by done. done.
  - unfold tabulate2. apply tabulate_ext; intros i Hi. apply tabulate_ext; intros j Hj.
    rewrite (foldl_seq_at (λ t x, if only (t + G) i && only t j then st t
                         else if upto G i && only t j
                              then vec_at (tracker_id_count tb) t else x) j).
    + unfold fp_cell, only, upto, from.
      repeat (case_bool_decide; simpl; try lia); done.
    + intros t y Ht. unfold only. rewrite (bool_decide_eq_false_2 (j = t)) by done.
      rewrite !andb_false_r. done.
Qed.

Lemma Identity_cost_matrices_gen data tb :
  Identity.cost_matrices data tb
  = gen_matrices (num_gt_ids data) (num_tracker_ids data) lit_1e10
      (vec_at (gt_id_count tb)) (vec_at (tracker_id_count tb)) tb.
Proof. reflexivity. Qed.

Lemma result_bind_ext {A B} (f g : A → result B) (m : result A) :
  (∀ a, f a = g a) → m ≫= f = m ≫= g.
Proof. intros Hfg. destruct m; simpl; [apply Hfg|done]. Qed.

Lemma Identity_eval_sequence_main lsa cfg data :
  num_tracker_dets data ≠ 0 → num_gt_dets data ≠ 0 →
  Identity.eval_sequence lsa cfg data
  = (tb ← accumulate (THRESHOLD cfg) data;
     '(match_rows, match_cols) ← lsa (Identity.cost_matrix data tb);
     Identity_finish data tb match_rows match_cols).
Proof.
  intros Ht Hg. unfold Identity.eval_sequence.
  rewrite !decide_False by done.
  destruct (accumulate _ data) as [tb|e]; [|done]. cbn [mbind result_bind].
  unfold Identity.cost_matrix, Identity_finish.
  destruct (Identity.cost_matrices data tb) as [fn_mat fp_mat].
  destruct (lsa _) as [[rows cols]|e]; done.
Qed.

Lemma TrackIdentity_eval_sequence_main lsa cfg data :
  num_tracker_dets data ≠ 0 → num_gt_dets data ≠ 0 →
  TrackIdentity.eval_sequence lsa cfg data
  = (tb ← accumulate (THRESHOLD cfg) data;
     '(match_rows, match_cols) ← lsa (TrackIdentity.cost_matrix data tb);
     Ok (TrackIdentity_finish cfg data tb match_rows match_cols)).
Proof.
  intros Ht Hg. unfold TrackIdentity.eval_sequence.
  rewrite !decide_False by done.
  apply result_bind_ext; intros tb. apply result_bind_ext; intros [rows cols].
  unfold TrackIdentity_finish. cbv zeta. reflexivity.
Qed.

Lemma mat_add_tabulate2 r c (f g : nat → nat → Qc) :
  mat_add (tabulate2 r c f) (tabulate2 r c g)
  = tabulate2 r c (λ i j, f i j + g i j)%Qc.
Proof.
  unfold mat_add. rewrite mat_imap_tabulate2. unfold tabulate2.
  apply tabulate_ext; intros i Hi. apply tabulate_ext; intros j Hj.
  by rewrite (mat_at_tabulate2 r c g).
Qed.

Lemma Identity_cost_matrix_tabulate data tb :
  let G := num_gt_ids data in
  let T := num_tracker_ids data in
  Identity.cost_matrix data tb
  = tabulate2 (G + T) (G + T) (λ i j,
      Fin (fn_cell G T lit_1e10 (vec_at (gt_id_count tb)) tb i j
           + fp_cell G T lit_1e10 (vec_at (tracker_id_count tb)) tb i j)%Qc).
Proof.
  intros G T. unfold Identity.cost_matrix.
  rewrite Identity_cost_matrices_gen, gen_matrices_tabulate.
  by rewrite mat_add_tabulate2, mat_imap_tabulate2.
Qed.

Lemma count_tables_gt thr data g :
  g < num_gt_ids data →
  vec_at (gt_id_count (count_tables thr data)) g = Qc_of_nat (gtCount data g).
Proof. intros. unfold count_tables. simpl. by rewrite vec_at_tabulate. Qed.

Lemma count_tables_tracker thr data t :
  t < num_tracker_ids data →
  vec_at (tracker_id_count (count_tables thr data)) t
  = Qc_of_nat (trackerCount data t).
Proof. intros. unfold count_tables. simpl. by rewrite vec_at_tabulate. Qed.

Lemma count_tables_match thr data g t :
  g < num_gt_ids data → t < num_tracker_ids data →
  mat_at (potential_matches_count (count_tables thr data)) g t
  = Qc_of_nat (matchCount thr data g t).
Proof. intros. unfold count_tables. simpl. by rewrite mat_at_tabulate2. Qed.

(** ** Bounds on the counts *)

Lemma matchCount_le_gtCount thr data g t :
  matchCount thr data g t ≤ gtCount data g.
Proof.
  apply count_frames_le. intros [[gs ts] sim] _ Hs.
  apply similar_true in Hs as (i & j & x & Hg & _). apply bool_decide_eq_true_2.
  simpl. by eapply list_elem_of_lookup_2.
Qed.

Lemma matchCount_le_trackerCount thr data g t :
  matchCount thr data g t ≤ trackerCount data t.
Proof.
  apply count_frames_le. intros [[gs ts] sim] _ Hs.
  apply similar_true in Hs as (i & j & x & _ & Ht & _). apply bool_decide_eq_true_2.
  simpl. by eapply list_elem_of_lookup_2.
Qed.

Lemma sum_list_fmap_add {A} (a b : A → nat) l :
  sum_list ((λ x, a x + b x) <$> l) = sum_list (a <$> l) + sum_list (b <$> l).
Proof. induction l as [|x l IH]; [done|]. cbn. rewrite IH. lia. Qed.

Lemma sum_list_indicator {A} (p : A → bool) l :
  sum_list ((λ x, if p x then 1 else 0) <$> l) = count_frames p l.
Proof.
  induction l as [|x l IH]; [done|]. rewrite count_frames_cons. cbn. by rewrite IH.
Qed.

Lemma count_present ids n :
  NoDup ids → Forall (λ i, i < n) ids →
  count_frames (λ i, bool_decide (i ∈ ids)) (seq 0 n) = length ids.
Proof.
  intros Hnd Hlt. unfold count_frames. apply Permutation_length.
  apply NoDup_Permutation; [|done|].
  - apply NoDup_filter, NoDup_seq.
  - intros i. rewrite list_elem_of_filter, elem_of_seq.
    rewrite Forall_forall in Hlt. split.
    + intros [Hi _]. by apply bool_decide_unpack in Hi.
    + intros Hi. split; [by apply bool_decide_pack|]. apply Hlt in Hi. lia.
Qed.

Lemma sum_counts_frames G frs (sel : list nat * list nat * list (list Qc) → list nat) :
  Forall (λ fr, NoDup (sel fr) ∧ Forall (λ i, i < G) (sel fr)) frs →
  sum_list ((λ g, count_frames (λ fr, bool_decide (g ∈ sel fr)) frs) <$> seq 0 G)
  = sum_list ((λ fr, length (sel fr)) <$> frs).
Proof.
  induction 1 as [|fr frs [Hnd Hlt] _ IH].
  - simpl. change (λ g : nat, count_frames _ []) with (λ _ : nat, 0).
    rewrite sum_list_fmap_const. lia.
  - rewrite fmap_cons. simpl. rewrite <-IH, <-(count_present (sel fr) G) by done.
    rewrite <-sum_list_indicator, <-sum_list_fmap_add.
    f_equal. apply list_fmap_ext. intros _ g _. by rewrite count_frames_cons.
Qed.

Lemma frames_gt_ids data :
  length (tracker_ids data) = length (gt_ids data) →
  length (similarity_scores data) = length (gt_ids data) →
  (frames data).*1.*1 = gt_ids data ∧ (frames data).*1.*2 = tracker_ids data.
Proof.
  intros Ht Hs. unfold frames.
  rewrite fst_zip by (rewrite length_zip; lia).
  split; [apply fst_zip|apply snd_zip]; lia.
Qed.

Lemma gtCount_sum data :
  wf_data data = true →
  sum_list (gtCount data <$> seq 0 (num_gt_ids data)) = num_gt_dets data.
Proof.
  intros (Hlt & Hls & Hfr & -> & _)%wf_data_spec.
  unfold gtCount. rewrite (sum_counts_frames _ _ (λ fr, fr.1.1)).
  - destruct (frames_gt_ids data Hlt Hls) as [<- _].
    by rewrite <-!list_fmap_compose.
  - eapply Forall_impl; [exact Hfr|]. intros [[gs ts] sim] Hwf. simpl.
    apply wf_frame_spec in Hwf. tauto.
Qed.

Lemma trackerCount_sum data :
  wf_data data = true →
  sum_list (trackerCount data <$> seq 0 (num_tracker_ids data)) = num_tracker_dets data.
Proof.
  intros (Hlt & Hls & Hfr & _ & ->)%wf_data_spec.
  unfold trackerCount. rewrite (sum_counts_frames _ _ (λ fr, fr.1.2)).
  - destruct (frames_gt_ids data Hlt Hls) as [_ <-].
    by rewrite <-!list_fmap_compose.
  - eapply Forall_impl; [exact Hfr|]. intros [[gs ts] sim] Hwf. simpl.
    apply wf_frame_spec in Hwf. tauto.
Qed.

Lemma sum_list_seq_le (c : nat → nat) n g :
  g < n → c g ≤ sum_list (c <$> seq 0 n).
Proof.
  intros Hg. assert (Hin : g ∈ seq 0 n) by (apply elem_of_seq; lia).
  induction Hin as [g l|g y l _ IH]; cbn; lia.
Qed.

Lemma gtCount_le_dets data g :
  wf_data data = true → g < num_gt_ids data → gtCount data g ≤ num_gt_dets data.
Proof. intros Hwf Hg. rewrite <-(gtCount_sum data Hwf). by apply sum_list_seq_le. Qed.

Lemma trackerCount_le_dets data t :
  wf_data data = true → t < num_tracker_ids data →
  trackerCount data t ≤ num_tracker_dets data.
Proof. intros Hwf Ht. rewrite <-(trackerCount_sum data Hwf). by apply sum_list_seq_le. Qed.

Lemma vec_sum_of_nat (l : list nat) :
  vec_sum (Qc_of_nat <$> l) = Qc_of_nat (sum_list l).
Proof.
  induction l as [|n l IH]; [symmetry; apply Qc_of_nat_0|].
  rewrite fmap_cons. cbn [vec_sum foldr sum_list sum_list_with].
  change (foldr Qcplus 0%Qc (Qc_of_nat <$> l)) with (vec_sum (Qc_of_nat <$> l)).
  change (sum_list_with id l) with (sum_list l).
  rewrite IH. unfold Qc_of_nat, id. by rewrite Nat2Z.inj_add, Z2Qc_inj_add.
Qed.

Lemma vec_sum_gt_id_count thr data :
  wf_data data = true →
  vec_sum (gt_id_count (count_tables thr data)) = Qc_of_nat (num_gt_dets data).
Proof.
  intros Hwf. rewrite <-(gtCount_sum data Hwf), <-vec_sum_of_nat.
  unfold count_tables, tabulate. simpl. by rewrite <-list_fmap_compose.
Qed.

(** ** Floating-point helpers *)

Lemma np_maximum_ge_l a b : (a ≤ np_maximum a b)%Qc.
Proof. unfold np_maximum. case_decide; [done|]. apply Qcle_refl. Qed.

Lemma np_maximum_ge_r a b : (b ≤ np_maximum a b)%Qc.
Proof.
  unfold np_maximum. case_decide; [apply Qcle_refl|].
  apply Qclt_le_weak. by apply Qcnot_le_lt.
Qed.

Lemma np_maximum_nonzero b : np_maximum 1 b ≠ 0%Qc.
Proof.
  intros H. pose proof (np_maximum_ge_l 1 b) as Hle. rewrite H in Hle.
  by apply Qcle_not_lt in Hle.
Qed.

Lemma np_divide_finite a b : b ≠ 0%Qc → np_divide a b = Fin (a / b)%Qc.
Proof. intros Hb. unfold np_divide. by rewrite decide_False. Qed.

(** ** The derivation of the ratios *)

Section final_fields.
Import Identity.

Lemma final_fields_counts res :
  IDTP (_compute_final_fields res) = IDTP res
  ∧ IDFN (_compute_final_fields res) = IDFN res
  ∧ IDFP (_compute_final_fields res) = IDFP res.
Proof. unfold _compute_final_fields. repeat case_decide; done. Qed.

(** C4. [_compute_final_fields] leaves the counts alone and sets
    [IDR = 1] if [IDFN = 0] and [IDTP / max(1, IDTP + IDFN)] otherwise,
    [IDP = 1] if [IDFP = 0] and [IDTP / max(1, IDTP + IDFP)] otherwise,
    [IDF1 = 1] if both are zero and
    [IDTP / max(1, IDTP + 0.5 IDFP + 0.5 IDFN)] otherwise.  Every divisor is
    at least one, so every quotient is a finite number; this holds for all
    integer counts.  [combine_sequences] of [Identity] applies the same
    function to the summed counts. *)
Theorem compute_final_fields_spec (res : MetricResult) :
  let tp := Qc_of_Z (IDTP res) in
  let fn := Qc_of_Z (IDFN res) in
  let fp := Qc_of_Z (IDFP res) in
  let r := _compute_final_fields res in
  IDR r = (if decide (IDFN res = 0%Z) then Fin 1
           else Fin (tp / np_maximum 1 (tp + fn))%Qc)
  ∧ IDP r = (if decide (IDFP res = 0%Z) then Fin 1
             else Fin (tp / np_maximum 1 (tp + fp))%Qc)
  ∧ IDF1 r = (if decide (IDFN res = 0%Z ∧ IDFP res = 0%Z) then Fin 1
              else Fin (tp / np_maximum 1 (tp + lit_half * fp + lit_half * fn))%Qc)
  ∧ (1 ≤ np_maximum 1 (tp + fn))%Qc
  ∧ (1 ≤ np_maximum 1 (tp + fp))%Qc
  ∧ (1 ≤ np_maximum 1 (tp + lit_half * fp + lit_half * fn))%Qc
  ∧ IDTP r = IDTP res ∧ IDFN r = IDFN res ∧ IDFP r = IDFP res
  ∧ ∀ all_res,
      Identity.combine_sequences all_res
      = _compute_final_fields
          (set_IDFP (_combine_sum all_res IDFP)
             (set_IDFN (_combine_sum all_res IDFN)
                (set_IDTP (_combine_sum all_res IDTP) init_res))).
Proof.
  intros tp fn fp r. subst r tp fn fp. unfold _compute_final_fields.
  split_and!; try apply np_maximum_ge_l; try reflexivity.
  - repeat case_decide; simpl; try done;
      rewrite ?np_divide_finite by apply np_maximum_nonzero;
      by rewrite ?Z2Qc_inj_add.
  - repeat case_decide; simpl; try done;
      rewrite ?np_divide_finite by apply np_maximum_nonzero;
      by rewrite ?Z2Qc_inj_add.
  - repeat case_decide; simpl; try (exfalso; tauto);
      rewrite ?np_divide_finite by apply np_maximum_nonzero; try done;
      exfalso; lia.
  - repeat case_decide; done.
  - repeat case_decide; done.
  - repeat case_decide; done.
Qed.
End final_fields.

(** ** The cost matrix of [Identity] *)

Lemma mat_get_cost_matrix data tb i j :
  let G := num_gt_ids data in
  let T := num_tracker_ids data in
  i < G + T → j < G + T →
  mat_get (Identity.cost_matrix data tb) i j
  = Some (Fin (fn_cell G T lit_1e10 (vec_at (gt_id_count tb)) tb i j
               + fp_cell G T lit_1e10 (vec_at (tracker_id_count tb)) tb i j)%Qc).
Proof.
  intros G T Hi Hj. rewrite Identity_cost_matrix_tabulate.
  by rewrite mat_get_tabulate2.
Qed.

(** C1, as the code has it.  For a well-formed sequence with detections
    on both sides, the accumulation returns the tables of the counts, and the
    matrix handed to the solver is square of dimension [G + T] with:
    [gtCount g + trackerCount t - 2 matchCount g t] at a real cell [(g, t)],
    where [fn_mat] holds [gtCount g - matchCount g t] and [fp_mat] holds
    [trackerCount t - matchCount g t]; [gtCount g] at [(g, T + g)];
    [trackerCount t] at [(G + t, t)]; [0] at every [(G + t, T + g)]; and the
    literal [1e10] at every other cell of the two sink blocks.  The literal
    exceeds the real and self-sink entries whenever the sequence has fewer
    than [1e10] detections in total. *)
Theorem identity_cost_matrix_cells (thr : Qc) (data : SequenceData) :
  wf_data data = true →
  num_gt_dets data ≠ 0 → num_tracker_dets data ≠ 0 →
  let G := num_gt_ids data in
  let T := num_tracker_ids data in
  let tb := count_tables thr data in
  let M := Identity.cost_matrix data tb in
  let gtC := λ g, Qc_of_nat (gtCount data g) in
  let trC := λ t, Qc_of_nat (trackerCount data t) in
  let mC := λ g t, Qc_of_nat (matchCount thr data g t) in
  accumulate thr data = Ok tb
  ∧ (∀ lsa cfg, THRESHOLD cfg = thr →
       Identity.eval_sequence lsa cfg data
       = ('(match_rows, match_cols) ← lsa M;
          Identity_finish data tb match_rows match_cols))
  ∧ (∀ g t, g < G → t < T →
       mat_get (Identity.cost_matrices data tb).1 g t = Some (gtC g - mC g t)%Qc
       ∧ mat_get (Identity.cost_matrices data tb).2 g t = Some (trC t - mC g t)%Qc
       ∧ mat_get M g t = Some (Fin (gtC g + trC t - 2 * mC g t)%Qc))
  ∧ (∀ g, g < G → mat_get M g (T + g) = Some (Fin (gtC g)))
  ∧ (∀ t, t < T → mat_get M (G + t) t = Some (Fin (trC t)))
  ∧ (∀ g t, g < G → t < T → mat_get M (G + t) (T + g) = Some (Fin 0%Qc))
  ∧ (∀ g c, g < G → c < G → c ≠ g → mat_get M g (T + c) = Some (Fin lit_1e10))
  ∧ (∀ t c, t < T → c < T → c ≠ t → mat_get M (G + t) c = Some (Fin lit_1e10))
  ∧ ((Z.of_nat (num_gt_dets data + num_tracker_dets data) < 10000000000)%Z →
       ∀ g t, g < G → t < T →
         (gtC g + trC t - 2 * mC g t < lit_1e10)%Qc
         ∧ (gtC g < lit_1e10)%Qc ∧ (trC t < lit_1e10)%Qc).
Proof.
  intros Hwf Hg Ht G T tb M gtC trC mC.
  assert (Hcell : ∀ i j, i < G + T → j < G + T →
    mat_get M i j
    = Some (Fin (fn_cell G T lit_1e10 (vec_at (gt_id_count tb)) tb i j
                 + fp_cell G T lit_1e10 (vec_at (tracker_id_count tb)) tb i j)%Qc))
    by (intros; by apply mat_get_cost_matrix).
  split_and!.
  - by apply accumulate_counts.
  - intros lsa cfg <-. rewrite Identity_eval_sequence_main by done.
    by rewrite accumulate_counts.
  - intros g t Hg' Ht'.
    rewrite Identity_cost_matrices_gen, gen_matrices_tabulate. cbn [fst snd].
    rewrite !mat_get_tabulate2, Hcell by (fold G T; lia).
    unfold fn_cell, fp_cell. rewrite !bool_decide_eq_true_2 by done.
    subst tb. rewrite count_tables_gt, count_tables_tracker, count_tables_match by done.
    split_and!; try done. subst gtC trC mC. apply (f_equal (λ x, Some (Fin x))); ring.
  - intros g Hg'. rewrite Hcell by lia. unfold fn_cell, fp_cell.
    rewrite (bool_decide_eq_true_2 (g < G)), !(bool_decide_eq_false_2 (T + g < T)),
      (bool_decide_eq_true_2 (T + g = T + g)) by (done || lia).
    subst tb. rewrite count_tables_gt by done. subst gtC. apply (f_equal (λ x, Some (Fin x))); ring.
  - intros t Ht'. rewrite Hcell by lia. unfold fn_cell, fp_cell.
    rewrite (bool_decide_eq_true_2 (t < T)), !(bool_decide_eq_false_2 (G + t < G)),
      (bool_decide_eq_true_2 (G + t = t + G)) by (done || lia).
    subst tb. rewrite count_tables_tracker by done. subst trC. apply (f_equal (λ x, Some (Fin x))); ring.
  - intros g t Hg' Ht'. rewrite Hcell by lia. unfold fn_cell, fp_cell.
    rewrite !(bool_decide_eq_false_2 (T + g < T)),
      !(bool_decide_eq_false_2 (G + t < G)) by lia.
    apply (f_equal (λ x, Some (Fin x))); ring.
  - intros g c Hg' Hc Hne. rewrite Hcell by lia. unfold fn_cell, fp_cell.
    rewrite (bool_decide_eq_true_2 (g < G)), !(bool_decide_eq_false_2 (T + c < T)),
      (bool_decide_eq_false_2 (T + c = T + g)) by (done || lia).
    apply (f_equal (λ x, Some (Fin x))); ring.
  - intros t c Ht' Hc Hne. rewrite Hcell by lia. unfold fn_cell, fp_cell.
    rewrite (bool_decide_eq_true_2 (c < T)), !(bool_decide_eq_false_2 (G + t < G)),
      (bool_decide_eq_false_2 (G + t = c + G)) by (done || lia).
    apply (f_equal (λ x, Some (Fin x))); ring.
  - intros Hsmall g t Hg' Ht'. subst gtC trC mC. simpl.
    pose proof (gtCount_le_dets data g Hwf Hg').
    pose proof (trackerCount_le_dets data t Hwf Ht').
    split_and!; qc_of_Z; lia.
Qed.

(** ** The cost matrix of [TrackIdentity] *)

Lemma TrackIdentity_cost_matrix_tabulate data tb :
  let G := num_gt_ids data in
  let T := num_tracker_ids data in
  TrackIdentity.cost_matrix data tb = tabulate2 (G + T) (G + T) (track_cell G T tb).
Proof.
  intros G T. unfold TrackIdentity.cost_matrix.
  change (let '(fn_mat, fp_mat) :=
            gen_matrices G T 1 (λ _, lit_one_minus_1e6) (λ _, lit_one_minus_1e6) tb in
          mat_imap (λ i j x, if from G i && from T j then Fin 1%Qc else x)
            (mat_imap (λ i j x,
                 if upto G i && upto T j
                 then np_divide x (x + mat_at (potential_matches_count tb) i j)%Qc
                 else Fin x) (mat_add fn_mat fp_mat))
          = tabulate2 (G + T) (G + T) (track_cell G T tb)).
  rewrite gen_matrices_tabulate, mat_add_tabulate2, !mat_imap_tabulate2.
  done.
Qed.

Lemma ids_present_spec data :
  ids_present data = true →
  (∀ g, g < num_gt_ids data → 0 < gtCount data g)
  ∧ (∀ t, t < num_tracker_ids data → 0 < trackerCount data t).
Proof.
  unfold ids_present. rewrite andb_true_iff, !forallb_forall.
  intros [Hg Ht]. split.
  - intros g Hlt. eapply bool_decide_eq_true, Hg, in_seq. lia.
  - intros t Hlt. eapply bool_decide_eq_true, Ht, in_seq. lia.
Qed.

Lemma valid_data_spec data :
  valid_data data = true → wf_data data = true ∧ ids_present data = true.
Proof. unfold valid_data. by rewrite andb_true_iff. Qed.

Lemma Qc_ratio_bounds (a b : Qc) :
  (0 ≤ a)%Qc → (0 ≤ b)%Qc → (0 < a + b)%Qc →
  (0 ≤ a / (a + b))%Qc ∧ (a / (a + b) ≤ 1)%Qc.
Proof.
  intros Ha Hb Hab. pose proof (Qcinv_pos _ Hab) as Hinv.
  unfold Qcdiv. split.
  - apply Qcmult_nonneg_nonneg; [done|]. by apply Qclt_le_weak.
  - rewrite <-(Qcmult_inv_r (a + b)) by (intros H0; rewrite H0 in Hab; done).
    apply Qcmult_le_mono_nonneg_r; [by apply Qclt_le_weak|].
    rewrite <-(Qcplus_0_r a) at 1. by apply Qcplus_le_mono_l.
Qed.

Lemma Qc_of_nat_nonneg n : (0 ≤ Qc_of_nat n)%Qc.
Proof. qc_of_Z. lia. Qed.

Lemma mapM_tabulate {A B} (h : A → option B) n (f : nat → A) (q : nat → B) :
  (∀ i, i < n → h (f i) = Some (q i)) →
  mapM h (tabulate n f) = Some (tabulate n q).
Proof.
  intros Hf. apply mapM_Some_2, Forall2_same_length_lookup_2.
  - by rewrite !length_tabulate.
  - intros i x y Hx Hy. assert (i < n).
    { apply lookup_lt_Some in Hx. by rewrite length_tabulate in Hx. }
    rewrite lookup_tabulate in Hx by done. rewrite lookup_tabulate in Hy by done.
    injection Hx as <-. injection Hy as <-. by apply Hf.
Qed.

Lemma to_finite_tabulate2 n (f : nat → nat → npfloat) (q : nat → nat → Qc) :
  (∀ i j, i < n → j < n → f i j = Fin (q i j)) →
  to_finite (tabulate2 n n f) = Some (tabulate2 n n q).
Proof.
  intros Hf. unfold to_finite, tabulate2. apply mapM_tabulate. intros i Hi.
  apply mapM_tabulate. intros j Hj. by rewrite Hf.
Qed.

Lemma is_square_tabulate2 {A} n (f : nat → nat → A) : is_square (tabulate2 n n f).
Proof.
  unfold is_square, tabulate2. rewrite length_tabulate.
  apply Forall_forall. intros row (i & -> & _)%list_elem_of_fmap.
  apply length_tabulate.
Qed.

(** The real cells of the track-level matrix, for counts that make the
    union of the two tracks non-empty. *)
Lemma track_cell_real thr data g t :
  let G := num_gt_ids data in
  let T := num_tracker_ids data in
  let raw := (Qc_of_nat (gtCount data g) + Qc_of_nat (trackerCount data t)
              - 2 * Qc_of_nat (matchCount thr data g t))%Qc in
  let m := Qc_of_nat (matchCount thr data g t) in
  g < G → t < T → 0 < gtCount data g + trackerCount data t →
  track_cell G T (count_tables thr data) g t = Fin (raw / (raw + m))%Qc
  ∧ (0 ≤ raw)%Qc ∧ (0 < raw + m)%Qc.
Proof.
  intros G T raw m Hg Ht Hpos.
  pose proof (matchCount_le_gtCount thr data g t).
  pose proof (matchCount_le_trackerCount thr data g t).
  assert (Hraw : (0 ≤ raw)%Qc) by (subst raw; qc_of_Z; lia).
  assert (Hden : (0 < raw + m)%Qc) by (subst raw m; qc_of_Z; lia).
  split_and!; [|done..].
  unfold track_cell, fn_cell, fp_cell, from, upto.
  rewrite (bool_decide_eq_false_2 (G ≤ g)), !(bool_decide_eq_true_2 (g < G)),
    !(bool_decide_eq_true_2 (t < T)) by (done || lia).
  cbn [andb]. rewrite count_tables_gt, count_tables_tracker, count_tables_match by done.
  fold m. replace (_ - m + (_ - m))%Qc with raw by (subst raw m; ring).
  apply np_divide_finite. intros Hz. rewrite Hz in Hden. done.
Qed.

(** C2.  For a valid sequence with detections on both sides, the matrix that
    [TrackIdentity] hands to the solver has [raw / (raw + matchCount g t)] at
    a real cell [(g, t)], where [raw = gtCount g + trackerCount t
    - 2 matchCount g t], a value between 0 and 1; [1 - 1e-6] on the two
    self-sink diagonals; and [1] everywhere else in the two sink blocks and
    in the whole sink-to-sink block. *)
Theorem track_cost_matrix_cells (thr : Qc) (data : SequenceData) :
  valid_data data = true →
  num_gt_dets data ≠ 0 → num_tracker_dets data ≠ 0 →
  let G := num_gt_ids data in
  let T := num_tracker_ids data in
  let tb := count_tables thr data in
  let M := TrackIdentity.cost_matrix data tb in
  let m := λ g t, Qc_of_nat (matchCount thr data g t) in
  let raw := λ g t, (Qc_of_nat (gtCount data g) + Qc_of_nat (trackerCount data t)
                     - 2 * m g t)%Qc in
  accumulate thr data = Ok tb
  ∧ (∀ lsa cfg, THRESHOLD cfg = thr →
       TrackIdentity.eval_sequence lsa cfg data
       = ('(match_rows, match_cols) ← lsa M;
          Ok (TrackIdentity_finish cfg data tb match_rows match_cols)))
  ∧ (∀ g t, g < G → t < T →
       mat_get M g t = Some (Fin (raw g t / (raw g t + m g t))%Qc)
       ∧ (0 ≤ raw g t / (raw g t + m g t))%Qc
       ∧ (raw g t / (raw g t + m g t) ≤ 1)%Qc)
  ∧ (∀ g, g < G → mat_get M g (T + g) = Some (Fin (1 - Q_of 1 1000000)%Qc))
  ∧ (∀ t, t < T → mat_get M (G + t) t = Some (Fin (1 - Q_of 1 1000000)%Qc))
  ∧ (∀ g c, g < G → c < G → c ≠ g → mat_get M g (T + c) = Some (Fin 1%Qc))
  ∧ (∀ t c, t < T → c < T → c ≠ t → mat_get M (G + t) c = Some (Fin 1%Qc))
  ∧ (∀ g t, g < G → t < T → mat_get M (G + t) (T + g) = Some (Fin 1%Qc)).
Proof.
  intros [Hwf [Hpg Hpt]%ids_present_spec]%valid_data_spec Hg Ht G T tb M m raw.
  assert (Hcell : ∀ i j, i < G + T → j < G + T →
            mat_get M i j = Some (track_cell G T tb i j)).
  { intros i j Hi Hj. subst M. rewrite TrackIdentity_cost_matrix_tabulate.
    by rewrite mat_get_tabulate2. }
  split_and!.
  - by apply accumulate_counts.
  - intros lsa cfg <-. rewrite TrackIdentity_eval_sequence_main by done.
    by rewrite accumulate_counts.
  - intros g t Hg' Ht'. rewrite Hcell by lia.
    destruct (track_cell_real thr data g t Hg' Ht') as (Hc & Hraw & Hden).
    { specialize (Hpg g Hg'). lia. }
    split; [f_equal; exact Hc|].
    apply Qc_ratio_bounds; [done|apply Qc_of_nat_nonneg|done].
  - intros g Hg'. rewrite Hcell by lia. cell_cases.
  - intros t Ht'. rewrite Hcell by lia. cell_cases.
  - intros g c Hg' Hc Hne. rewrite Hcell by lia. cell_cases.
  - intros t c Ht' Hc Hne. rewrite Hcell by lia. cell_cases.
  - intros g t Hg' Ht'. rewrite Hcell by lia. cell_cases.
Qed.

Lemma track_cell_finite thr data i j :
  let G := num_gt_ids data in
  let T := num_tracker_ids data in
  ids_present data = true →
  track_cell G T (count_tables thr data) i j
  = Fin (finite_or_zero (track_cell G T (count_tables thr data) i j)).
Proof.
  intros G T [Hpg Hpt]%ids_present_spec.
  destruct (decide (i < G ∧ j < T)) as [[Hi Hj]|Hn].
  - destruct (track_cell_real thr data i j Hi Hj) as (Hc & _).
    { specialize (Hpg i Hi). lia. }
    fold G T in Hc. by rewrite Hc.
  - unfold track_cell, from, upto.
    repeat (case_bool_decide; try lia); cbn [andb]; done.
Qed.

Lemma track_matrix_finite thr data :
  let G := num_gt_ids data in
  let T := num_tracker_ids data in
  ids_present data = true →
  to_finite (TrackIdentity.cost_matrix data (count_tables thr data))
  = Some (tabulate2 (G + T) (G + T)
            (λ i j, finite_or_zero (track_cell G T (count_tables thr data) i j))).
Proof.
  intros G T Hp. rewrite TrackIdentity_cost_matrix_tabulate.
  apply to_finite_tabulate2. intros i j _ _. by apply track_cell_finite.
Qed.

(** C10.  In a well-formed sequence in which every declared identity occurs
    in some frame, for every real cell [(g, t)]: [matchCount g t] is at most
    [min (gtCount g) (trackerCount t)], both counts are positive, the
    divisor [raw + matchCount g t] of the normalisation equals
    [gtCount g + trackerCount t - matchCount g t] and is at least 1, and the
    division yields the finite quotient; no entry of the matrix is [nan] or
    infinite. *)
Theorem track_division_defined (thr : Qc) (data : SequenceData) :
  wf_data data = true → ids_present data = true →
  let G := num_gt_ids data in
  let T := num_tracker_ids data in
  let tb := count_tables thr data in
  let M := TrackIdentity.cost_matrix data tb in
  let m := λ g t, Qc_of_nat (matchCount thr data g t) in
  let raw := λ g t, (Qc_of_nat (gtCount data g) + Qc_of_nat (trackerCount data t)
                     - 2 * m g t)%Qc in
  accumulate thr data = Ok tb
  ∧ (∀ g t, g < G → t < T →
       matchCount thr data g t ≤ Nat.min (gtCount data g) (trackerCount data t)
       ∧ 0 < gtCount data g ∧ 0 < trackerCount data t
       ∧ (raw g t + m g t)%Qc
         = Qc_of_Z (Z.of_nat (gtCount data g) + Z.of_nat (trackerCount data t)
                    - Z.of_nat (matchCount thr data g t))
       ∧ (1 ≤ raw g t + m g t)%Qc
       ∧ np_divide (raw g t) (raw g t + m g t)
         = Fin (raw g t / (raw g t + m g t))%Qc
       ∧ mat_get M g t = Some (np_divide (raw g t) (raw g t + m g t)))
  ∧ ∃ Mq, to_finite M = Some Mq ∧ is_square Mq ∧ length Mq = G + T.
Proof.
  intros Hwf Hp G T tb M m raw.
  pose proof Hp as [Hpg Hpt]%ids_present_spec.
  split_and!.
  - by apply accumulate_counts.
  - intros g t Hg Ht.
    pose proof (matchCount_le_gtCount thr data g t).
    pose proof (matchCount_le_trackerCount thr data g t).
    specialize (Hpg g Hg). specialize (Hpt t Ht).
    assert (Hden : (1 ≤ raw g t + m g t)%Qc) by (subst raw m; qc_of_Z; lia).
    assert (Hdiv : np_divide (raw g t) (raw g t + m g t)
                   = Fin (raw g t / (raw g t + m g t))%Qc).
    { apply np_divide_finite. intros Hz. rewrite Hz in Hden. done. }
    split_and!; [lia|done|done| |done|done|].
    + subst raw m. qc_of_Z. lia.
    + subst M. rewrite TrackIdentity_cost_matrix_tabulate.
      rewrite mat_get_tabulate2 by (fold G T; lia). f_equal. rewrite Hdiv.
      destruct (track_cell_real thr data g t Hg Ht) as (Hc & _); [lia|].
      exact Hc.
  - eexists. split; [by apply track_matrix_finite|].
    split; [apply is_square_tabulate2|apply length_tabulate].
Qed.

(** ** The reference solver meets the contract *)

Lemma argmin_spec {A} (cost : A → Qc) l :
  ∀ x0, argmin cost x0 l ∈ x0 :: l
        ∧ ∀ y, y ∈ x0 :: l → (cost (argmin cost x0 l) ≤ cost y)%Qc.
Proof.
  unfold argmin. induction l as [|x l IH]; intros x0; simpl.
  - split; [left|]. intros y ->%list_elem_of_singleton. apply Qcle_refl.
  - destruct (IH (if decide (cost x < cost x0)%Qc then x else x0)) as [Hin Hmin].
    split.
    + apply elem_of_cons in Hin as [->|Hin].
      * case_decide; [right; left | left].
      * by do 2 right.
    + intros y Hy. apply elem_of_cons in Hy as [->|Hy].
      * etrans; [apply Hmin; left|]. case_decide; [by apply Qclt_le_weak|apply Qcle_refl].
      * apply elem_of_cons in Hy as [->|Hy].
        -- etrans; [apply Hmin; left|]. case_decide; [apply Qcle_refl|by apply Qcnot_lt_le].
        -- apply Hmin. by right.
Qed.

Lemma exhaustive_lsa_contract : solver_contract exhaustive_lsa.
Proof.
  intros M Mq HM Hsq. unfold exhaustive_lsa. rewrite HM.
  set (rows := seq 0 (length Mq)).
  destruct (argmin_spec (assignment_cost Mq rows) (permutations rows) rows)
    as [Hin Hmin].
  eexists _, _. split; [done|]. split; [split; [done|]|].
  - symmetry. apply permutations_Permutation.
    apply elem_of_cons in Hin as [->|Hin]; [apply permutations_refl|done].
  - intros cols' Hc. apply Hmin. right. by apply permutations_Permutation.
Qed.

(** ** What [Identity] reads off an assignment *)

Lemma fn_cell_Z thr data i j :
  let G := num_gt_ids data in
  let T := num_tracker_ids data in
  let tb := count_tables thr data in
  fn_cell G T lit_1e10 (vec_at (gt_id_count tb)) tb i j = Qc_of_Z (fnZ thr data i j).
Proof.
  intros G T tb. unfold fn_cell, fnZ. fold G T.
  repeat case_bool_decide; subst tb;
    rewrite ?count_tables_gt, ?count_tables_match by done; qc_of_Z; done.
Qed.

Lemma fp_cell_Z thr data i j :
  let G := num_gt_ids data in
  let T := num_tracker_ids data in
  let tb := count_tables thr data in
  fp_cell G T lit_1e10 (vec_at (tracker_id_count tb)) tb i j
  = Qc_of_Z (fpZ thr data i j).
Proof.
  intros G T tb. unfold fp_cell, fpZ. fold G T.
  repeat case_bool_decide; subst tb;
    rewrite ?count_tables_tracker, ?count_tables_match by done; qc_of_Z; done.
Qed.

Lemma take_idx2_tabulate2 {A} n (f : nat → nat → A) rows cols :
  Forall (λ p, p.1 < n ∧ p.2 < n) (zip rows cols) →
  take_idx2 (tabulate2 n n f) rows cols = Ok ((λ '(i, j), f i j) <$> zip rows cols).
Proof.
  unfold take_idx2. induction 1 as [|[i j] l [Hi Hj] _ IH]; [done|].
  cbn [mapM]. rewrite IH. simpl in Hi, Hj.
  by rewrite mat_get_tabulate2.
Qed.

Lemma vec_sum_of_Z (l : list Z) :
  vec_sum (Qc_of_Z <$> l) = Qc_of_Z (foldr Z.add 0%Z l).
Proof.
  induction l as [|z l IH]; [symmetry; apply Z2Qc_inj_0|].
  rewrite fmap_cons. cbn [vec_sum foldr].
  change (foldr Qcplus 0%Qc (Qc_of_Z <$> l)) with (vec_sum (Qc_of_Z <$> l)).
  by rewrite IH, Z2Qc_inj_add.
Qed.

Lemma astype_int_of_Z z : astype_int (Qc_of_Z z) = z.
Proof. unfold astype_int. simpl. apply Z.quot_1_r. Qed.

Lemma assignment_in_range n rows cols :
  is_assignment n rows cols → Forall (λ p, p.1 < n ∧ p.2 < n) (zip rows cols).
Proof.
  intros [-> Hperm]. apply Forall_forall. intros [i j] Hin. simpl. split.
  - apply elem_of_zip_l in Hin. apply elem_of_seq in Hin. lia.
  - apply elem_of_zip_r in Hin. rewrite Hperm in Hin. apply elem_of_seq in Hin. lia.
Qed.

Lemma fn_mat_tabulate thr data :
  let n := num_gt_ids data + num_tracker_ids data in
  Identity.cost_matrices data (count_tables thr data)
  = (tabulate2 n n (λ i j, Qc_of_Z (fnZ thr data i j)),
     tabulate2 n n (λ i j, Qc_of_Z (fpZ thr data i j))).
Proof.
  intros n. rewrite Identity_cost_matrices_gen, gen_matrices_tabulate. f_equal.
  - unfold tabulate2. apply tabulate_ext; intros i _. apply tabulate_ext; intros j _.
    apply fn_cell_Z.
  - unfold tabulate2. apply tabulate_ext; intros i _. apply tabulate_ext; intros j _.
    apply fp_cell_Z.
Qed.

Lemma sumZ_cost (f : nat → nat → Z) n pairs :
  Forall (λ p, p.1 < n ∧ p.2 < n) pairs →
  vec_sum ((λ '(i, j), mat_at (tabulate2 n n (λ i j, Qc_of_Z (f i j))) i j) <$> pairs)
  = Qc_of_Z (sumZ f pairs).
Proof.
  intros Hr. unfold sumZ. rewrite <-vec_sum_of_Z, <-list_fmap_compose. f_equal.
  apply Forall_fmap_ext_1. eapply Forall_impl; [exact Hr|].
  intros [i j] [Hi Hj]. simpl in *. by rewrite mat_at_tabulate2.
Qed.

Lemma Identity_finish_counts thr data rows cols :
  let n := num_gt_ids data + num_tracker_ids data in
  let pairs := zip rows cols in
  wf_data data = true →
  Forall (λ p, p.1 < n ∧ p.2 < n) pairs →
  Identity_finish data (count_tables thr data) rows cols
  = Ok (Identity._compute_final_fields
          {| IDF1 := Fin 0; IDR := Fin 0; IDP := Fin 0;
             IDTP := Z.of_nat (num_gt_dets data) - sumZ (fnZ thr data) pairs;
             IDFN := sumZ (fnZ thr data) pairs;
             IDFP := sumZ (fpZ thr data) pairs |}).
Proof.
  intros n pairs Hwf Hr. unfold Identity_finish.
  rewrite fn_mat_tabulate. cbn [fst snd]. fold n.
  rewrite !take_idx2_tabulate2 by done. cbn [mbind result_bind].
  rewrite vec_sum_gt_id_count by done. fold pairs.
  replace ((λ '(i, j), Qc_of_Z (fnZ thr data i j)) <$> pairs)
    with (Qc_of_Z <$> ((λ '(i, j), fnZ thr data i j) <$> pairs))
    by (rewrite <-list_fmap_compose; apply list_fmap_ext; by intros ? [??] ?).
  replace ((λ '(i, j), Qc_of_Z (fpZ thr data i j)) <$> pairs)
    with (Qc_of_Z <$> ((λ '(i, j), fpZ thr data i j) <$> pairs))
    by (rewrite <-list_fmap_compose; apply list_fmap_ext; by intros ? [??] ?).
  rewrite !vec_sum_of_Z. fold (sumZ (fnZ thr data) pairs) (sumZ (fpZ thr data) pairs).
  unfold set_IDTP, set_IDFN, set_IDFP, init_res. cbn [IDFN IDFP IDTP IDF1 IDR IDP].
  rewrite !astype_int_of_Z. unfold Qc_of_nat. rewrite <-Z2Qc_inj_sub, astype_int_of_Z.
  done.
Qed.

Lemma Identity_matrix_finite thr data :
  let n := num_gt_ids data + num_tracker_ids data in
  let tb := count_tables thr data in
  mat_add (Identity.cost_matrices data tb).1 (Identity.cost_matrices data tb).2
  = tabulate2 n n (λ i j, Qc_of_Z (fnZ thr data i j + fpZ thr data i j))
  ∧ to_finite (Identity.cost_matrix data tb)
    = Some (tabulate2 n n (λ i j, Qc_of_Z (fnZ thr data i j + fpZ thr data i j))).
Proof.
  intros n tb. unfold Identity.cost_matrix. subst tb. rewrite fn_mat_tabulate.
  cbn [fst snd]. fold n. rewrite mat_add_tabulate2, mat_imap_tabulate2. split.
  - unfold tabulate2. apply tabulate_ext; intros i _. apply tabulate_ext; intros j _.
    by rewrite Z2Qc_inj_add.
  - apply to_finite_tabulate2. intros i j _ _. by rewrite Z2Qc_inj_add.
Qed.

(** The outcome of the main branch of [Identity.eval_sequence] under a
    solver that meets its contract. *)
Lemma Identity_eval_main lsa cfg data :
  solver_contract lsa → wf_data data = true →
  num_tracker_dets data ≠ 0 → num_gt_dets data ≠ 0 →
  let thr := THRESHOLD cfg in
  let tb := count_tables thr data in
  let n := num_gt_ids data + num_tracker_ids data in
  ∃ rows cols,
    lsa (Identity.cost_matrix data tb) = Ok (rows, cols)
    ∧ optimal_assignment
        (tabulate2 n n (λ i j, Qc_of_Z (fnZ thr data i j + fpZ thr data i j)))
        rows cols
    ∧ Identity.eval_sequence lsa cfg data
      = Ok (Identity._compute_final_fields
              {| IDF1 := Fin 0; IDR := Fin 0; IDP := Fin 0;
                 IDTP := Z.of_nat (num_gt_dets data)
                         - sumZ (fnZ thr data) (zip rows cols);
                 IDFN := sumZ (fnZ thr data) (zip rows cols);
                 IDFP := sumZ (fpZ thr data) (zip rows cols) |}).
Proof.
  intros Hlsa Hwf Ht Hg thr tb n.
  destruct (Identity_matrix_finite thr data) as [_ Hfin]. fold tb n in Hfin.
  destruct (Hlsa _ _ Hfin (is_square_tabulate2 _ _)) as (rows & cols & Hcall & Hopt).
  exists rows, cols. split_and!; [done..|].
  rewrite Identity_eval_sequence_main by done. fold thr.
  rewrite accumulate_counts by done. cbn [mbind result_bind]. fold tb.
  rewrite Hcall. cbn [mbind result_bind]. apply Identity_finish_counts; [done|].
  destruct Hopt as [Hassign _]. rewrite length_tabulate2 in Hassign.
  by apply assignment_in_range.
Qed.

(** C3.  With a solver that meets its contract, [Identity.eval_sequence]
    returns a result for every well-formed sequence, and the result has
    [IDTP + IDFN = numGtDetections], in the two shortcut branches as well.  In
    the main branch [IDFN] is the sum of [fn_mat] and [IDFP] the sum of
    [fp_mat] over the pairs of the optimal assignment the solver returned,
    and [IDTP = numGtDetections - IDFN]. *)
Theorem identity_gt_detections_accounted
    (lsa : list (list npfloat) → result (list nat * list nat))
    (cfg : Config) (data : SequenceData) :
  solver_contract lsa → wf_data data = true →
  ∃ res, Identity.eval_sequence lsa cfg data = Ok res
    ∧ (IDTP res + IDFN res)%Z = Z.of_nat (num_gt_dets data)
    ∧ (num_tracker_dets data ≠ 0 → num_gt_dets data ≠ 0 →
       let tb := count_tables (THRESHOLD cfg) data in
       let fn_mat := (Identity.cost_matrices data tb).1 in
       let fp_mat := (Identity.cost_matrices data tb).2 in
       ∃ match_rows match_cols,
         accumulate (THRESHOLD cfg) data = Ok tb
         ∧ lsa (Identity.cost_matrix data tb) = Ok (match_rows, match_cols)
         ∧ optimal_assignment (mat_add fn_mat fp_mat) match_rows match_cols
         ∧ Qc_of_Z (IDFN res) = assignment_cost fn_mat match_rows match_cols
         ∧ Qc_of_Z (IDFP res) = assignment_cost fp_mat match_rows match_cols
         ∧ IDTP res = (Z.of_nat (num_gt_dets data) - IDFN res)%Z).
Proof.
  intros Hlsa Hwf.
  destruct (decide (num_tracker_dets data = 0)) as [Ht|Ht].
  { eexists. split; [unfold Identity.eval_sequence; by rewrite decide_True|].
    destruct (final_fields_counts (set_IDFN (Z.of_nat (num_gt_dets data)) init_res))
      as (-> & -> & _).
    split; [done|]. intros; done. }
  destruct (decide (num_gt_dets data = 0)) as [Hg|Hg].
  { eexists. split.
    { unfold Identity.eval_sequence. by rewrite decide_False, decide_True. }
    destruct (final_fields_counts
                (set_IDFP (Z.of_nat (num_tracker_dets data)) init_res))
      as (-> & -> & _).
    split; [simpl; lia|]. intros; done. }
  destruct (Identity_eval_main lsa cfg data Hlsa Hwf Ht Hg)
    as (rows & cols & Hcall & Hopt & Heval).
  eexists. split; [exact Heval|].
  match goal with |- context [Identity._compute_final_fields ?r] =>
    destruct (final_fields_counts r) as (Htp & Hfn & Hfp) end.
  rewrite Htp, Hfn, Hfp. cbn [IDTP IDFN IDFP]. split; [lia|].
  intros _ _. cbv zeta. exists rows, cols.
  destruct (Identity_matrix_finite (THRESHOLD cfg) data) as [Hadd _].
  pose proof (fn_mat_tabulate (THRESHOLD cfg) data) as Hmats. cbv zeta in Hmats.
  assert (Hr : Forall (λ p, p.1 < num_gt_ids data + num_tracker_ids data
                           ∧ p.2 < num_gt_ids data + num_tracker_ids data)
                 (zip rows cols)).
  { destruct Hopt as [Hassign _]. rewrite length_tabulate2 in Hassign.
    by apply assignment_in_range. }
  split_and!.
  - by apply accumulate_counts.
  - done.
  - by rewrite Hadd.
  - rewrite Hmats. cbn [fst]. unfold assignment_cost. by rewrite sumZ_cost.
  - rewrite Hmats. cbn [snd]. unfold assignment_cost. by rewrite sumZ_cost.
  - done.
Qed.

(** ** The shortcuts of [TrackIdentity.eval_sequence] *)

Lemma TrackIdentity_no_tracker lsa cfg data :
  num_tracker_dets data = 0 →
  TrackIdentity.eval_sequence lsa cfg data
  = Ok {| IDF1 := Fin 0; IDR := Fin 0; IDP := Fin 0;
          IDTP := 0; IDFN := Z.of_nat (num_gt_ids data); IDFP := 0 |}.
Proof. intros H0. unfold TrackIdentity.eval_sequence. by rewrite decide_True. Qed.

Lemma TrackIdentity_no_gt lsa cfg data :
  num_tracker_dets data ≠ 0 → num_gt_dets data = 0 →
  TrackIdentity.eval_sequence lsa cfg data
  = Ok {| IDF1 := Fin 0; IDR := Fin 0; IDP := Fin 0;
          IDTP := 0; IDFN := 0; IDFP := Z.of_nat (num_tracker_ids data) |}.
Proof.
  intros Ht Hg. unfold TrackIdentity.eval_sequence.
  by rewrite decide_False, decide_True.
Qed.

(** C7, the code at a sequence of two ground-truth identities and no tracker
    detection: the counts are [IDFN = 2], [IDFP = IDTP = 0] as claimed, but
    the three ratios are left at their initial [0]; the derivation of the
    ratios, which [Identity.eval_sequence] applies in its shortcut, would give
    [IDP = 1]. *)
Theorem track_shortcut_skips_derivation :
  valid_data no_tracker_data = true
  ∧ ∃ res,
      TrackIdentity.eval_sequence exhaustive_lsa default_config no_tracker_data
      = Ok res
      ∧ IDFN res = 2%Z ∧ IDFP res = 0%Z ∧ IDTP res = 0%Z
      ∧ IDP res = Fin 0 ∧ IDR res = Fin 0 ∧ IDF1 res = Fin 0
      ∧ IDP (Identity._compute_final_fields res) = Fin 1
      ∧ res ≠ Identity._compute_final_fields res
      ∧ ∃ res',
          Identity.eval_sequence exhaustive_lsa default_config no_tracker_data
          = Ok res'
          ∧ res' = Identity._compute_final_fields res' ∧ IDP res' = Fin 1.
Proof.
  split; [by vm_compute|]. eexists. split; [by apply TrackIdentity_no_tracker|].
  split_and!; try reflexivity.
  - intros H. apply (f_equal IDP) in H. vm_compute in H. discriminate.
  - eexists. split; [reflexivity|]. split; reflexivity.
Qed.

(** ** Aggregation over sequences *)

Lemma np_sum_finite (qs : list Qc) :
  foldr np_add (Fin 0) (Fin <$> qs) = Fin (vec_sum qs).
Proof.
  induction qs as [|q qs IH]; [done|]. rewrite fmap_cons. cbn [foldr].
  rewrite IH. done.
Qed.

Lemma np_mean_finite (qs : list Qc) :
  qs ≠ [] → np_mean (Fin <$> qs) = Fin (vec_sum qs / Qc_of_nat (length qs))%Qc.
Proof.
  intros Hne. unfold np_mean. rewrite np_sum_finite, length_fmap.
  apply np_divide_finite. intros Hz. destruct qs as [|q qs]; [done|].
  simpl in Hz. rewrite Qc_of_nat_S in Hz.
  pose proof (Qc_of_nat_nonneg (length qs)) as Hle.
  assert (Hlt : (0 < Qc_of_nat (length qs) + 1)%Qc).
  { apply Qcplus_nonneg_pos; done. }
  rewrite Hz in Hlt. done.
Qed.

(** C8.  [TrackIdentity.combine_sequences] sums the three integer fields
    over the given results in both modes.  With ["micro"] the ratios are
    derived from the summed counts by [_compute_final_fields]; with ["macro"]
    each ratio is the mean of the per-sequence values of that ratio (the sum
    divided by the number of sequences, for finite values of at least one
    sequence); any other mode raises [ValueError]. *)
Theorem track_combine_sequences_modes (all_res : gmap string MetricResult) :
  let vals := (map_to_list all_res).*2 in
  let sums := {| IDF1 := Fin 0; IDR := Fin 0; IDP := Fin 0;
                 IDTP := _combine_sum all_res IDTP;
                 IDFN := _combine_sum all_res IDFN;
                 IDFP := _combine_sum all_res IDFP |} in
  _combine_sum all_res IDTP = foldr Z.add 0%Z (IDTP <$> vals)
  ∧ _combine_sum all_res IDFN = foldr Z.add 0%Z (IDFN <$> vals)
  ∧ _combine_sum all_res IDFP = foldr Z.add 0%Z (IDFP <$> vals)
  ∧ TrackIdentity.combine_sequences all_res "micro"
    = Ok (Identity._compute_final_fields sums)
  ∧ IDTP (Identity._compute_final_fields sums) = _combine_sum all_res IDTP
  ∧ IDFN (Identity._compute_final_fields sums) = _combine_sum all_res IDFN
  ∧ IDFP (Identity._compute_final_fields sums) = _combine_sum all_res IDFP
  ∧ TrackIdentity.combine_sequences all_res "macro"
    = Ok {| IDF1 := np_mean (IDF1 <$> vals);
            IDR := np_mean (IDR <$> vals);
            IDP := np_mean (IDP <$> vals);
            IDTP := _combine_sum all_res IDTP;
            IDFN := _combine_sum all_res IDFN;
            IDFP := _combine_sum all_res IDFP |}
  ∧ (∀ qs, qs ≠ [] →
       np_mean (Fin <$> qs) = Fin (vec_sum qs / Qc_of_nat (length qs))%Qc)
  ∧ (∀ average, average ≠ "micro"%string → average ≠ "macro"%string →
       TrackIdentity.combine_sequences all_res average = Raise ValueError).
Proof.
  intros vals sums. split_and!; try reflexivity.
  - apply final_fields_counts.
  - apply final_fields_counts.
  - apply final_fields_counts.
  - apply np_mean_finite.
  - intros average Hmi Hma. unfold TrackIdentity.combine_sequences.
    by rewrite !decide_False.
Qed.

(** ** What [TrackIdentity] reads off an assignment *)

Lemma count_true_cons {A} (p : A → bool) x l :
  count_true p (x :: l) = ((if p x then 1 else 0) + count_true p l)%Z.
Proof.
  unfold count_true. change (length (filter _ ?k)) with (count_frames p k).
  rewrite count_frames_cons. destruct (p x); lia.
Qed.

Lemma code_rejected cfg data r c :
  ids_present data = true →
  r < num_gt_ids data → c < num_tracker_ids data →
  let tb := count_tables (THRESHOLD cfg) data in
  np_less_equal
    (np_divide (mat_at (potential_matches_count tb) r c)
               (vec_at (tracker_id_count tb) c))
    (TRACK_IOU_THRESH cfg)
  = rejected cfg data r c.
Proof.
  intros [_ Hpt]%ids_present_spec Hr Hc tb. subst tb.
  rewrite count_tables_match, count_tables_tracker by done.
  rewrite np_divide_finite; [done|].
  specialize (Hpt c Hc). intros Hz.
  assert (Hlt : (0 < Qc_of_nat (trackerCount data c))%Qc) by (qc_of_Z; lia).
  rewrite Hz in Hlt. done.
Qed.

Lemma track_units_sum cfg data rows cols :
  ids_present data = true →
  let tb := count_tables (THRESHOLD cfg) data in
  let pairs := zip rows cols in
  Z.add (count_true (λ '(r, c), bool_decide (r < num_gt_ids data)
                                && bool_decide (num_tracker_ids data ≤ c)) pairs)
        (TrackIdentity.re_assigned cfg data tb rows cols)
  = sumZ (track_fn_units cfg data) pairs
  ∧ Z.add (count_true (λ '(r, c), bool_decide (num_gt_ids data ≤ r)
                                  && bool_decide (c < num_tracker_ids data)) pairs)
          (TrackIdentity.re_assigned cfg data tb rows cols)
    = sumZ (track_fp_units cfg data) pairs.
Proof.
  intros Hp tb pairs. unfold TrackIdentity.re_assigned. fold pairs.
  generalize pairs. clear pairs rows cols. intros pairs.
  induction pairs as [|[r c] pairs [IHn IHp]]; [done|].
  rewrite !count_true_cons, filter_cons. unfold sumZ in *.
  rewrite !fmap_cons. cbn [foldr]. rewrite <-IHn, <-IHp.
  unfold track_fn_units, track_fp_units.
  destruct (decide (r < num_gt_ids data)) as [Hr|Hr];
    destruct (decide (c < num_tracker_ids data)) as [Hc|Hc].
  - rewrite decide_True by (rewrite !bool_decide_eq_true_2 by done; done).
    rewrite count_true_cons. subst tb. rewrite code_rejected by done.
    rewrite !(bool_decide_eq_true_2 (r < _)), !(bool_decide_eq_true_2 (c < _)),
      !(bool_decide_eq_false_2 (_ ≤ _)) by (done || lia).
    cbn [andb]. destruct (rejected cfg data r c); lia.
  - rewrite decide_False
      by (rewrite (bool_decide_eq_false_2 (c < _)), andb_false_r by done; auto).
    rewrite !(bool_decide_eq_true_2 (r < _)), !(bool_decide_eq_false_2 (c < _)),
      (bool_decide_eq_true_2 (num_tracker_ids data ≤ c)),
      (bool_decide_eq_false_2 (num_gt_ids data ≤ r)) by (done || lia).
    cbn [andb]. lia.
  - rewrite decide_False by (rewrite (bool_decide_eq_false_2 (r < _)) by done; auto).
    rewrite !(bool_decide_eq_false_2 (r < _)), !(bool_decide_eq_true_2 (c < _)),
      (bool_decide_eq_false_2 (num_tracker_ids data ≤ c)),
      (bool_decide_eq_true_2 (num_gt_ids data ≤ r)) by (done || lia).
    cbn [andb]. lia.
  - rewrite decide_False by (rewrite (bool_decide_eq_false_2 (r < _)) by done; auto).
    rewrite !(bool_decide_eq_false_2 (r < _)), !(bool_decide_eq_false_2 (c < _))
      by done.
    cbn [andb]. rewrite andb_false_r. lia.
Qed.

Lemma TrackIdentity_finish_counts cfg data rows cols :
  ids_present data = true →
  let pairs := zip rows cols in
  TrackIdentity_finish cfg data (count_tables (THRESHOLD cfg) data) rows cols
  = Identity._compute_final_fields
      {| IDF1 := Fin 0; IDR := Fin 0; IDP := Fin 0;
         IDTP := Z.of_nat (num_gt_ids data) - sumZ (track_fn_units cfg data) pairs;
         IDFN := sumZ (track_fn_units cfg data) pairs;
         IDFP := sumZ (track_fp_units cfg data) pairs |}.
Proof.
  intros Hp pairs. unfold TrackIdentity_finish. cbv zeta.
  destruct (track_units_sum cfg data rows cols Hp) as [-> ->]. done.
Qed.

(** The outcome of the main branch of [TrackIdentity.eval_sequence] under a
    solver that meets its contract. *)
Lemma TrackIdentity_eval_main lsa cfg data :
  solver_contract lsa → valid_data data = true →
  num_tracker_dets data ≠ 0 → num_gt_dets data ≠ 0 →
  let tb := count_tables (THRESHOLD cfg) data in
  let n := num_gt_ids data + num_tracker_ids data in
  ∃ rows cols Mq,
    to_finite (TrackIdentity.cost_matrix data tb) = Some Mq
    ∧ length Mq = n
    ∧ lsa (TrackIdentity.cost_matrix data tb) = Ok (rows, cols)
    ∧ optimal_assignment Mq rows cols
    ∧ TrackIdentity.eval_sequence lsa cfg data
      = Ok (Identity._compute_final_fields
              {| IDF1 := Fin 0; IDR := Fin 0; IDP := Fin 0;
                 IDTP := Z.of_nat (num_gt_ids data)
                         - sumZ (track_fn_units cfg data) (zip rows cols);
                 IDFN := sumZ (track_fn_units cfg data) (zip rows cols);
                 IDFP := sumZ (track_fp_units cfg data) (zip rows cols) |}).
Proof.
  intros Hlsa [Hwf Hp]%valid_data_spec Ht Hg tb n.
  pose proof (track_matrix_finite (THRESHOLD cfg) data Hp) as Hfin.
  fold tb n in Hfin.
  destruct (Hlsa _ _ Hfin (is_square_tabulate2 _ _)) as (rows & cols & Hcall & Hopt).
  exists rows, cols. eexists. split_and!; [exact Hfin|apply length_tabulate2|done..|].
  rewrite TrackIdentity_eval_sequence_main by done.
  rewrite accumulate_counts by done. cbn [mbind result_bind]. fold tb.
  rewrite Hcall. cbn [mbind result_bind]. f_equal.
  by apply TrackIdentity_finish_counts.
Qed.

(** C5.  For a valid sequence with detections on both sides and a solver
    that meets its contract, [TrackIdentity.eval_sequence] returns a result
    whose [IDFN] and [IDFP] are the sums, over the pairs of the optimal
    assignment, of the units below.  A matched real pair [(g, t)] whose ratio
    [matchCount g t / trackerCount t] is at most [TRACK_IOU_THRESH], equality
    included, adds one unit to [IDFN] and one to [IDFP]; a real pair whose
    ratio is strictly greater adds to neither.  (A ground-truth row matched to
    a sink column adds one unit to [IDFN] only, a sink row matched to a
    tracker column one unit to [IDFP] only.) *)
Theorem track_rejection_boundary
    (lsa : list (list npfloat) → result (list nat * list nat))
    (cfg : Config) (data : SequenceData) :
  solver_contract lsa → valid_data data = true →
  num_tracker_dets data ≠ 0 → num_gt_dets data ≠ 0 →
  let G := num_gt_ids data in
  let T := num_tracker_ids data in
  let tb := count_tables (THRESHOLD cfg) data in
  let ratio := overlap_ratio (THRESHOLD cfg) data in
  ∃ match_rows match_cols Mq res,
    to_finite (TrackIdentity.cost_matrix data tb) = Some Mq
    ∧ lsa (TrackIdentity.cost_matrix data tb) = Ok (match_rows, match_cols)
    ∧ optimal_assignment Mq match_rows match_cols
    ∧ TrackIdentity.eval_sequence lsa cfg data = Ok res
    ∧ IDFN res = sumZ (track_fn_units cfg data) (zip match_rows match_cols)
    ∧ IDFP res = sumZ (track_fp_units cfg data) (zip match_rows match_cols)
    ∧ (∀ g t, g < G → t < T →
         0 < trackerCount data t
         ∧ ((ratio g t ≤ TRACK_IOU_THRESH cfg)%Qc →
              track_fn_units cfg data g t = 1%Z ∧ track_fp_units cfg data g t = 1%Z)
         ∧ ((TRACK_IOU_THRESH cfg < ratio g t)%Qc →
              track_fn_units cfg data g t = 0%Z ∧ track_fp_units cfg data g t = 0%Z))
    ∧ (∀ g c, g < G → T ≤ c →
         track_fn_units cfg data g c = 1%Z ∧ track_fp_units cfg data g c = 0%Z)
    ∧ (∀ r t, G ≤ r → t < T →
         track_fn_units cfg data r t = 0%Z ∧ track_fp_units cfg data r t = 1%Z)
    ∧ (∀ r c, G ≤ r → T ≤ c →
         track_fn_units cfg data r c = 0%Z ∧ track_fp_units cfg data r c = 0%Z).
Proof.
  intros Hlsa Hv Ht Hg G T tb ratio.
  destruct (TrackIdentity_eval_main lsa cfg data Hlsa Hv Ht Hg)
    as (rows & cols & Mq & Hfin & _ & Hcall & Hopt & Heval).
  apply valid_data_spec in Hv as [_ [_ Hpt]%ids_present_spec].
  exists rows, cols, Mq. eexists. split_and!; [done..|exact Heval| | | | | | ].
  - apply final_fields_counts.
  - apply final_fields_counts.
  - intros g t Hg' Ht'. split_and!; [by apply Hpt| |].
    + intros Hle. unfold track_fn_units, track_fp_units, rejected. fold G T ratio.
      by rewrite !bool_decide_eq_true_2.
    + intros Hlt. unfold track_fn_units, track_fp_units, rejected. fold G T ratio.
      rewrite !(bool_decide_eq_true_2 (_ < _)) by done.
      rewrite bool_decide_eq_false_2; [done|]. by apply Qclt_not_le.
  - intros g c Hg' Hc. unfold track_fn_units, track_fp_units. fold G T.
    rewrite (bool_decide_eq_true_2 (g < G)), !(bool_decide_eq_false_2 (c < T))
      by (done || lia). done.
  - intros r t Hr Ht'. unfold track_fn_units, track_fp_units. fold G T.
    rewrite (bool_decide_eq_true_2 (t < T)), !(bool_decide_eq_false_2 (r < G))
      by (done || lia). done.
  - intros r c Hr Hc. unfold track_fn_units, track_fp_units. fold G T.
    rewrite !(bool_decide_eq_false_2 (r < G)), !(bool_decide_eq_false_2 (c < T))
      by lia. done.
Qed.

(** ** Sums over an assignment *)

Lemma sumZ_cons (f : nat → nat → Z) i j pairs :
  sumZ f ((i, j) :: pairs) = (f i j + sumZ f pairs)%Z.
Proof. done. Qed.

Lemma sumZ_app (f : nat → nat → Z) l k :
  sumZ f (l ++ k) = (sumZ f l + sumZ f k)%Z.
Proof.
  induction l as [|[i j] l IH]; [done|].
  rewrite <-app_comm_cons, !sumZ_cons, IH. lia.
Qed.

Lemma sumZ_add (f g : nat → nat → Z) pairs :
  sumZ (λ i j, f i j + g i j)%Z pairs = (sumZ f pairs + sumZ g pairs)%Z.
Proof.
  induction pairs as [|[i j] l IH]; [done|]. rewrite !sumZ_cons, IH. lia.
Qed.

Lemma sumZ_sub (f g : nat → nat → Z) pairs :
  sumZ (λ i j, f i j - g i j)%Z pairs = (sumZ f pairs - sumZ g pairs)%Z.
Proof.
  induction pairs as [|[i j] l IH]; [done|]. rewrite !sumZ_cons, IH. lia.
Qed.

Lemma sumZ_le (f g : nat → nat → Z) pairs :
  (∀ i j, (i, j) ∈ pairs → (f i j ≤ g i j)%Z) → (sumZ f pairs ≤ sumZ g pairs)%Z.
Proof.
  induction pairs as [|[i j] l IH]; intros Hfg; [done|]. rewrite !sumZ_cons.
  assert (f i j ≤ g i j)%Z by (apply Hfg; left).
  assert (sumZ f l ≤ sumZ g l)%Z by (apply IH; intros; apply Hfg; by right).
  lia.
Qed.

Lemma sumZ_ext (f g : nat → nat → Z) pairs :
  (∀ i j, (i, j) ∈ pairs → f i j = g i j) → sumZ f pairs = sumZ g pairs.
Proof.
  intros Hfg. apply Z.le_antisymm; apply sumZ_le; intros i j Hin;
    rewrite (Hfg i j Hin); lia.
Qed.

Lemma sumZ_nonneg (f : nat → nat → Z) pairs :
  (∀ i j, (i, j) ∈ pairs → (0 ≤ f i j)%Z) → (0 ≤ sumZ f pairs)%Z.
Proof.
  intros Hf. etrans; [|apply (sumZ_le (λ _ _, 0%Z)); exact Hf].
  clear Hf. induction pairs as [|[i j] l IH]; [done|]. rewrite sumZ_cons. lia.
Qed.

Lemma sumZ_elem_le (f : nat → nat → Z) pairs i j :
  (∀ i j, (i, j) ∈ pairs → (0 ≤ f i j)%Z) → (i, j) ∈ pairs →
  (f i j ≤ sumZ f pairs)%Z.
Proof.
  induction pairs as [|[i' j'] l IH]; intros Hf Hin; [by apply elem_of_nil in Hin|].
  rewrite sumZ_cons.
  assert (0 ≤ f i' j')%Z by (apply Hf; left).
  assert (0 ≤ sumZ f l)%Z by (apply sumZ_nonneg; intros; apply Hf; by right).
  apply elem_of_cons in Hin as [[= -> ->]|Hin]; [lia|].
  assert (f i j ≤ sumZ f l)%Z by (apply IH; [intros; apply Hf; by right|done]).
  lia.
Qed.

Lemma foldr_Zadd_perm (l k : list Z) :
  l ≡ₚ k → foldr Z.add 0%Z l = foldr Z.add 0%Z k.
Proof. induction 1; simpl; lia. Qed.

(** A function of the row alone sums to the sum over the rows, a function of
    the column alone to the sum over the columns. *)
Lemma sumZ_rows (a : nat → Z) rows cols :
  length rows = length cols →
  sumZ (λ i _, a i) (zip rows cols) = foldr Z.add 0%Z (a <$> rows).
Proof.
  revert cols. induction rows as [|i rows IH]; intros [|j cols] Hlen;
    simpl in Hlen; try done; try lia.
  cbn [zip zip_with]. rewrite sumZ_cons, fmap_cons. cbn [foldr].
  rewrite IH by lia. done.
Qed.

Lemma sumZ_cols (b : nat → Z) rows cols :
  length rows = length cols →
  sumZ (λ _ j, b j) (zip rows cols) = foldr Z.add 0%Z (b <$> cols).
Proof.
  revert cols. induction rows as [|i rows IH]; intros [|j cols] Hlen;
    simpl in Hlen; try done; try lia.
  cbn [zip zip_with]. rewrite sumZ_cons, fmap_cons. cbn [foldr].
  rewrite IH by lia. done.
Qed.

Lemma sumZ_assignment_rows (a : nat → Z) n rows cols :
  is_assignment n rows cols → sumZ (λ i _, a i) (zip rows cols) = sumN n a.
Proof.
  intros [-> Hperm]. rewrite sumZ_rows; [done|].
  by rewrite (Permutation_length Hperm).
Qed.

Lemma sumZ_assignment_cols (b : nat → Z) n rows cols :
  is_assignment n rows cols → sumZ (λ _ j, b j) (zip rows cols) = sumN n b.
Proof.
  intros [-> Hperm]. rewrite sumZ_cols by (by rewrite (Permutation_length Hperm)).
  apply foldr_Zadd_perm. by rewrite Hperm.
Qed.

Lemma foldr_Zadd_acc (l : list Z) z :
  foldr Z.add z l = (foldr Z.add 0 l + z)%Z.
Proof. revert z. induction l as [|x l IH]; intros z; simpl; [lia|]. rewrite IH. lia. Qed.

Lemma sumN_app n m (h : nat → Z) :
  sumN (n + m) h = Z.add (sumN n h) (sumN m (λ i, h (n + i))).
Proof.
  unfold sumN. rewrite seq_app, fmap_app, foldr_app, foldr_Zadd_acc.
  f_equal. simpl.
  replace (seq n m) with (Nat.add n <$> seq 0 m)
    by (rewrite fmap_add_seq; f_equal; lia).
  by rewrite <-list_fmap_compose.
Qed.

Lemma sumN_ext n (h k : nat → Z) :
  (∀ i, i < n → h i = k i) → sumN n h = sumN n k.
Proof. intros Hhk. unfold sumN. f_equal. by apply tabulate_ext. Qed.

Lemma sumN_of_nat n (c : nat → nat) :
  sumN n (λ i, Z.of_nat (c i)) = Z.of_nat (sum_list (c <$> seq 0 n)).
Proof.
  unfold sumN. induction (seq 0 n) as [|i l IH]; [done|].
  rewrite !fmap_cons. cbn [foldr]. rewrite IH.
  change (sum_list (c i :: (c <$> l))) with (c i + sum_list (c <$> l)). lia.
Qed.

Lemma sumN_zero n : sumN n (λ _, 0%Z) = 0%Z.
Proof. unfold sumN. induction (seq 0 n) as [|i l IH]; [done|]. cbn. by rewrite IH. Qed.

(** ** Threshold monotonicity of the counts *)

Lemma similar_mono thr1 thr2 fr g t :
  (thr1 ≤ thr2)%Qc → similar thr2 fr g t = true → similar thr1 fr g t = true.
Proof.
  intros Hle. destruct fr as [[gs ts] sim]. rewrite !similar_true.
  intros (i & j & x & Hg & Ht & Hx & Hthr). exists i, j, x. split_and!; try done.
  by etrans.
Qed.

Lemma matchCount_mono thr1 thr2 data g t :
  (thr1 ≤ thr2)%Qc → matchCount thr2 data g t ≤ matchCount thr1 data g t.
Proof.
  intros Hle. apply count_frames_le. intros fr _. by apply similar_mono.
Qed.

(** ** Optimal assignments of the detection-level matrix *)

Lemma fnZ_nonneg thr data i j : (0 ≤ fnZ thr data i j)%Z.
Proof.
  unfold fnZ. pose proof (matchCount_le_gtCount thr data i j).
  repeat case_bool_decide; lia.
Qed.

Lemma fpZ_nonneg thr data i j : (0 ≤ fpZ thr data i j)%Z.
Proof.
  unfold fpZ. pose proof (matchCount_le_trackerCount thr data i j).
  repeat case_bool_decide; lia.
Qed.

Lemma costZ_mono thr1 thr2 data i j :
  (thr1 ≤ thr2)%Qc → (costZ thr1 data i j ≤ costZ thr2 data i j)%Z.
Proof.
  intros Hle. pose proof (matchCount_mono thr1 thr2 data i j Hle).
  unfold costZ, fnZ, fpZ. repeat case_bool_decide; lia.
Qed.

Lemma optimal_Z thr data rows cols :
  let n := num_gt_ids data + num_tracker_ids data in
  optimal_assignment (tabulate2 n n (λ i j, Qc_of_Z (costZ thr data i j))) rows cols →
  is_assignment n rows cols
  ∧ ∀ cols', cols' ≡ₚ seq 0 n →
      (sumZ (costZ thr data) (zip rows cols)
       ≤ sumZ (costZ thr data) (zip rows cols'))%Z.
Proof.
  intros n [Hassign Hmin]. rewrite length_tabulate2 in Hassign, Hmin.
  split; [done|]. intros cols' Hperm. specialize (Hmin cols' Hperm).
  unfold assignment_cost in Hmin.
  rewrite !sumZ_cost in Hmin.
  - by apply Z2Qc_inj_le.
  - apply assignment_in_range. split; [apply Hassign|done].
  - by apply assignment_in_range.
Qed.

Lemma all_unmatched_assignment G T :
  is_assignment (G + T) (seq 0 (G + T)) (all_unmatched G T).
Proof.
  split; [done|]. unfold all_unmatched.
  rewrite (Nat.add_comm G T), seq_app. apply Permutation_app_comm.
Qed.

Lemma sumZ_zip_seq (f : nat → nat → Z) k :
  ∀ a b, sumZ f (zip (seq a k) (seq b k)) = sumN k (λ i, f (a + i) (b + i)).
Proof.
  induction k as [|k IH]; intros a b; [done|].
  cbn [seq zip zip_with]. rewrite sumZ_cons, IH.
  unfold sumN. cbn [seq fmap list_fmap foldr]. rewrite !Nat.add_0_r. f_equal.
  rewrite <-(fmap_S_seq 0 k), <-list_fmap_compose. f_equal.
  apply list_fmap_ext. intros _ i _. simpl. f_equal; lia.
Qed.

Lemma all_unmatched_cost thr data :
  wf_data data = true →
  sumZ (costZ thr data)
    (zip (seq 0 (num_gt_ids data + num_tracker_ids data))
         (all_unmatched (num_gt_ids data) (num_tracker_ids data)))
  = Z.of_nat (num_gt_dets data + num_tracker_dets data).
Proof.
  intros Hwf. unfold all_unmatched. rewrite seq_app.
  rewrite zip_with_app by (by rewrite !length_seq).
  rewrite sumZ_app, !sumZ_zip_seq. simpl.
  rewrite (sumN_ext (num_gt_ids data) _ (λ g, Z.of_nat (gtCount data g))).
  - rewrite (sumN_ext (num_tracker_ids data) _ (λ t, Z.of_nat (trackerCount data t))).
    + rewrite !sumN_of_nat, gtCount_sum, trackerCount_sum by done. lia.
    + intros t Ht. unfold costZ, fnZ, fpZ.
      repeat case_bool_decide; lia.
  - intros g Hg. unfold costZ, fnZ, fpZ.
    repeat case_bool_decide; lia.
Qed.

(** No detection is lost or made up where no penalty is paid. *)
Lemma fnZ_sub_fpZ thr data i j :
  (fnZ thr data i j < 10000000000)%Z → (fpZ thr data i j < 10000000000)%Z →
  (fnZ thr data i j - fpZ thr data i j)%Z = (row_dets data i - col_dets data j)%Z.
Proof.
  unfold fnZ, fpZ, row_dets, col_dets. repeat case_bool_decide; lia.
Qed.

Lemma sumN_row_dets data :
  wf_data data = true →
  sumN (num_gt_ids data + num_tracker_ids data) (row_dets data)
  = Z.of_nat (num_gt_dets data).
Proof.
  intros Hwf. rewrite sumN_app.
  rewrite (sumN_ext (num_gt_ids data) _ (λ g, Z.of_nat (gtCount data g))).
  - rewrite (sumN_ext (num_tracker_ids data) _ (λ _, 0%Z)).
    + rewrite sumN_zero, sumN_of_nat, gtCount_sum by done. lia.
    + intros t _. unfold row_dets. rewrite bool_decide_eq_false_2 by lia. done.
  - intros g Hg. unfold row_dets. by rewrite bool_decide_eq_true_2.
Qed.

Lemma sumN_col_dets data :
  wf_data data = true →
  sumN (num_gt_ids data + num_tracker_ids data) (col_dets data)
  = Z.of_nat (num_tracker_dets data).
Proof.
  intros Hwf. rewrite Nat.add_comm, sumN_app.
  rewrite (sumN_ext (num_tracker_ids data) _ (λ t, Z.of_nat (trackerCount data t))).
  - rewrite (sumN_ext (num_gt_ids data) _ (λ _, 0%Z)).
    + rewrite sumN_zero, sumN_of_nat, trackerCount_sum by done. lia.
    + intros t _. unfold col_dets. rewrite bool_decide_eq_false_2 by lia. done.
  - intros g Hg. unfold col_dets. by rewrite bool_decide_eq_true_2.
Qed.

(** Below [1e10] detections an optimal assignment pays no penalty, and its
    [fn] and [fp] sums are fixed by its cost. *)
Lemma optimal_no_penalty thr data rows cols :
  let n := num_gt_ids data + num_tracker_ids data in
  wf_data data = true →
  (Z.of_nat (num_gt_dets data + num_tracker_dets data) < 10000000000)%Z →
  optimal_assignment (tabulate2 n n (λ i j, Qc_of_Z (costZ thr data i j))) rows cols →
  (sumZ (costZ thr data) (zip rows cols)
   ≤ Z.of_nat (num_gt_dets data + num_tracker_dets data))%Z
  ∧ (sumZ (fnZ thr data) (zip rows cols) - sumZ (fpZ thr data) (zip rows cols))%Z
    = (Z.of_nat (num_gt_dets data) - Z.of_nat (num_tracker_dets data))%Z.
Proof.
  intros n Hwf Hsmall [Hassign Hmin]%optimal_Z. fold n in Hassign, Hmin.
  assert (Hcost : (sumZ (costZ thr data) (zip rows cols)
                   ≤ Z.of_nat (num_gt_dets data + num_tracker_dets data))%Z).
  { rewrite <-(all_unmatched_cost thr data Hwf).
    destruct Hassign as [-> _]. apply Hmin. apply all_unmatched_assignment. }
  split; [done|].
  rewrite <-sumZ_sub.
  rewrite (sumZ_ext _ (λ i j, row_dets data i - col_dets data j)%Z).
  - rewrite sumZ_sub, (sumZ_assignment_rows _ n), (sumZ_assignment_cols _ n) by done.
    subst n. by rewrite sumN_row_dets, sumN_col_dets.
  - intros i j Hin.
    assert (costZ thr data i j ≤ sumZ (costZ thr data) (zip rows cols))%Z.
    { apply sumZ_elem_le; [|done]. intros i' j' _. unfold costZ.
      pose proof (fnZ_nonneg thr data i' j'). pose proof (fpZ_nonneg thr data i' j').
      lia. }
    pose proof (fnZ_nonneg thr data i j). pose proof (fpZ_nonneg thr data i j).
    unfold costZ in *. apply fnZ_sub_fpZ; lia.
Qed.

Lemma Identity_no_tracker lsa cfg data :
  num_tracker_dets data = 0 →
  Identity.eval_sequence lsa cfg data
  = Ok (Identity._compute_final_fields
          (set_IDFN (Z.of_nat (num_gt_dets data)) init_res)).
Proof. intros H0. unfold Identity.eval_sequence. by rewrite decide_True. Qed.

Lemma Identity_no_gt lsa cfg data :
  num_tracker_dets data ≠ 0 → num_gt_dets data = 0 →
  Identity.eval_sequence lsa cfg data
  = Ok (Identity._compute_final_fields
          (set_IDFP (Z.of_nat (num_tracker_dets data)) init_res)).
Proof.
  intros Ht Hg. unfold Identity.eval_sequence.
  by rewrite decide_False, decide_True.
Qed.

(** C6, with the bound the code needs.  Raising the threshold never raises
    a match count.  For a well-formed sequence with fewer than [1e10]
    detections in total, and a solver that meets its contract, the results of
    [Identity.eval_sequence] at thresholds [t1 ≤ t2] satisfy
    [IDTP(t2) ≤ IDTP(t1)], [IDFN(t1) ≤ IDFN(t2)] and [IDFP(t1) ≤ IDFP(t2)]. *)
Theorem identity_threshold_monotone
    (lsa : list (list npfloat) → result (list nat * list nat))
    (cfg1 cfg2 : Config) (data : SequenceData) :
  solver_contract lsa → wf_data data = true →
  (Z.of_nat (num_gt_dets data + num_tracker_dets data) < 10000000000)%Z →
  (THRESHOLD cfg1 ≤ THRESHOLD cfg2)%Qc →
  (∀ g t, matchCount (THRESHOLD cfg2) data g t ≤ matchCount (THRESHOLD cfg1) data g t)
  ∧ ∃ res1 res2,
      Identity.eval_sequence lsa cfg1 data = Ok res1
      ∧ Identity.eval_sequence lsa cfg2 data = Ok res2
      ∧ (IDTP res2 ≤ IDTP res1)%Z
      ∧ (IDFN res1 ≤ IDFN res2)%Z
      ∧ (IDFP res1 ≤ IDFP res2)%Z.
Proof.
  intros Hlsa Hwf Hsmall Hthr. split; [intros; by apply matchCount_mono|].
  destruct (decide (num_tracker_dets data = 0)) as [Ht|Ht].
  { eexists _, _. rewrite !Identity_no_tracker by done.
    split; [reflexivity|]. split; [reflexivity|]. lia. }
  destruct (decide (num_gt_dets data = 0)) as [Hg|Hg].
  { eexists _, _. rewrite !Identity_no_gt by done.
    split; [reflexivity|]. split; [reflexivity|]. lia. }
  destruct (Identity_eval_main lsa cfg1 data Hlsa Hwf Ht Hg)
    as (rows1 & cols1 & _ & Hopt1 & ->).
  destruct (Identity_eval_main lsa cfg2 data Hlsa Hwf Ht Hg)
    as (rows2 & cols2 & _ & Hopt2 & ->).
  eexists _, _. split; [done|]. split; [done|].
  repeat match goal with |- context [Identity._compute_final_fields ?r] =>
    let H := fresh in
    destruct (final_fields_counts r) as (-> & -> & ->) end.
  cbn [IDTP IDFN IDFP].
  destruct (optimal_no_penalty _ data rows1 cols1 Hwf Hsmall Hopt1) as [_ Hd1].
  destruct (optimal_no_penalty _ data rows2 cols2 Hwf Hsmall Hopt2) as [_ Hd2].
  apply optimal_Z in Hopt1 as [[-> Hp1] Hmin1]. apply optimal_Z in Hopt2 as [[-> Hp2] _].
  specialize (Hmin1 cols2 Hp2).
  assert (Hmono : (sumZ (costZ (THRESHOLD cfg1) data)
                     (zip (seq 0 (num_gt_ids data + num_tracker_ids data)) cols2)
                   ≤ sumZ (costZ (THRESHOLD cfg2) data)
                       (zip (seq 0 (num_gt_ids data + num_tracker_ids data)) cols2))%Z).
  { apply sumZ_le. intros i j _. by apply costZ_mono. }
  unfold costZ in Hmin1, Hmono. rewrite !sumZ_add in Hmin1, Hmono.
  lia.
Qed.

(** ** An optimal assignment never loses more detections than there are *)

Lemma sumN_S n (h : nat → Z) : sumN (S n) h = (sumN n h + h n)%Z.
Proof.
  rewrite <-Nat.add_1_r, sumN_app. unfold sumN at 2. simpl.
  rewrite Nat.add_0_r. lia.
Qed.

Lemma sumN_le n (h k : nat → Z) :
  (∀ i, i < n → (h i ≤ k i)%Z) → (sumN n h ≤ sumN n k)%Z.
Proof.
  induction n as [|n IH]; intros Hhk; [done|]. rewrite !sumN_S.
  assert (h n ≤ k n)%Z by (apply Hhk; lia).
  assert (sumN n h ≤ sumN n k)%Z by (apply IH; intros; apply Hhk; lia). lia.
Qed.

Lemma sumN_lt n (h k : nat → Z) g :
  (∀ i, i < n → (h i ≤ k i)%Z) → g < n → (h g < k g)%Z →
  (sumN n h < sumN n k)%Z.
Proof.
  induction n as [|n IH]; intros Hhk Hg Hlt; [lia|]. rewrite !sumN_S.
  assert (h n ≤ k n)%Z by (apply Hhk; lia).
  assert (sumN n h ≤ sumN n k)%Z by (apply sumN_le; intros; apply Hhk; lia).
  destruct (decide (g = n)) as [->|Hne]; [lia|].
  assert (sumN n h < sumN n k)%Z by (apply IH; [intros; apply Hhk; lia|lia|done]).
  lia.
Qed.

Lemma sumZ_seq_lookup (f : nat → nat → Z) (l : list nat) :
  ∀ a, sumZ f (zip (seq a (length l)) l)
       = sumN (length l) (λ i, f (a + i) (l !!! i)).
Proof.
  induction l as [|x l IH]; intros a; [done|].
  cbn [length seq zip zip_with]. rewrite sumZ_cons, IH.
  rewrite <-(Nat.add_1_l (length l)), sumN_app. unfold sumN at 2. simpl.
  rewrite Nat.add_0_r, Z.add_0_r. f_equal.
  apply sumN_ext. intros i _. f_equal. lia.
Qed.

Lemma sumZ_assignment_lookup (f : nat → nat → Z) n cols :
  cols ≡ₚ seq 0 n →
  sumZ f (zip (seq 0 n) cols) = sumN n (λ i, f i (cols !!! i)).
Proof.
  intros Hperm. pose proof (Permutation_length Hperm) as Hlen.
  rewrite length_seq in Hlen. rewrite <-Hlen. apply sumZ_seq_lookup.
Qed.

Lemma costZ_relaxed thr data i j :
  bad_pair (num_gt_ids data) (num_tracker_ids data) i j = false →
  fnZ thr data i j = fn_relaxed thr data i j.
Proof.
  unfold bad_pair, fnZ, fn_relaxed. repeat case_bool_decide; simpl; try done; lia.
Qed.

Lemma fn_relaxed_sink thr data i j j' :
  num_tracker_ids data ≤ j → num_tracker_ids data ≤ j' →
  fn_relaxed thr data i j = fn_relaxed thr data i j'
  ∧ fpZ thr data i j = fpZ thr data i j'.
Proof.
  intros Hj Hj'. unfold fn_relaxed, fpZ. repeat case_bool_decide; try lia; done.
Qed.

Lemma fnZ_le_relaxed thr data i j :
  (fn_relaxed thr data i j ≤ row_dets data i)%Z.
Proof.
  unfold fn_relaxed, row_dets. repeat case_bool_decide; lia.
Qed.

Section exchange.
Variables (thr : Qc) (data : SequenceData).
Local Abbreviation G := (num_gt_ids data).
Local Abbreviation T := (num_tracker_ids data).
Local Abbreviation n := (num_gt_ids data + num_tracker_ids data).
Local Abbreviation bad_count := (misplaced_rows data).
Local Abbreviation relaxed := (relaxed_cost thr data).

Lemma bad_count_nonneg cols : (0 ≤ bad_count cols)%Z.
Proof.
  unfold misplaced_rows. etrans; [|apply (sumN_le n (λ _, 0%Z))].
  - by rewrite sumN_zero.
  - intros i _. simpl. destruct (bad_pair _ _ _ _); lia.
Qed.

(** Handing a misplaced ground-truth row its own sink, and the row that
    held it the sink that becomes free. *)
Lemma swap_bad_pair cols g :
  cols ≡ₚ seq 0 n → g < n → bad_pair G T g (cols !!! g) = true →
  ∃ cols1, cols1 ≡ₚ seq 0 n
           ∧ (bad_count cols1 < bad_count cols)%Z
           ∧ relaxed cols1 = relaxed cols.
Proof.
  intros Hperm Hg Hbad.
  pose proof (Permutation_length Hperm) as Hlen. rewrite length_seq in Hlen.
  assert (HgG : g < G ∧ T ≤ cols !!! g ∧ cols !!! g ≠ T + g).
  { unfold bad_pair in Hbad. apply andb_true_iff in Hbad as [Hb Hne].
    apply andb_true_iff in Hb as [H1 H2].
    apply bool_decide_eq_true in H1, H2. apply negb_true_iff in Hne.
    apply bool_decide_eq_false in Hne. done. }
  destruct HgG as (HgG & HTj & Hjne).
  assert (Hgj : cols !! g = Some (cols !!! g)).
  { apply list_lookup_lookup_total_lt. lia. }
  assert (Hin : T + g ∈ cols).
  { rewrite Hperm. apply elem_of_seq. lia. }
  apply list_elem_of_lookup_1 in Hin as [r Hr].
  assert (Hrn : r < n) by (apply lookup_lt_Some in Hr; lia).
  assert (Hrg : r ≠ g) by (intros ->; congruence).
  exists (<[r:=cols !!! g]> (<[g:=T + g]> cols)).
  assert (Hlook : ∀ k, <[r:=cols !!! g]> (<[g:=T + g]> cols) !!! k
                      = if decide (k = r) then cols !!! g
                        else if decide (k = g) then T + g else cols !!! k).
  { intros k. rewrite !list_lookup_total_insert, length_insert.
    repeat case_decide; try done; try lia; destruct_and?; lia. }
  split_and!.
  - rewrite <-Hperm. by apply Permutation_insert_swap.
  - unfold misplaced_rows. apply (sumN_lt _ _ _ g); [|done|].
    + intros k Hk. rewrite Hlook. repeat case_decide; subst.
      * rewrite (list_lookup_total_correct _ _ _ Hr).
        unfold bad_pair. repeat case_bool_decide; simpl; lia.
      * rewrite Hbad. destruct (bad_pair G T g (T + g)); simpl; lia.
      * lia.
    + rewrite Hlook. rewrite decide_False, decide_True by done.
      rewrite Hbad. unfold bad_pair.
      rewrite (bool_decide_eq_true_2 (T + g = T + g)) by done.
      rewrite andb_false_r. simpl. lia.
  - unfold relaxed_cost. apply sumN_ext. intros k Hk. rewrite Hlook.
    repeat case_decide; subst; try done.
    + rewrite (list_lookup_total_correct _ _ _ Hr).
      destruct (fn_relaxed_sink thr data r (cols !!! g) (T + g)) as [-> ->];
        [done|lia|done].
    + destruct (fn_relaxed_sink thr data g (T + g) (cols !!! g)) as [-> ->];
        [lia|done|done].
Qed.

Lemma relax_assignment m :
  ∀ cols, cols ≡ₚ seq 0 n → (bad_count cols ≤ Z.of_nat m)%Z →
  ∃ cols', cols' ≡ₚ seq 0 n
           ∧ (sumZ (costZ thr data) (zip (seq 0 n) cols') ≤ relaxed cols)%Z.
Proof.
  induction m as [|m IH]; intros cols Hperm Hcount.
  - destruct (decide (Forall (λ i, bad_pair G T i (cols !!! i) = false)
                        (seq 0 n))) as [Hnone|Hsome].
    + exists cols. split; [done|]. rewrite sumZ_assignment_lookup by done.
      unfold relaxed_cost. apply Z.eq_le_incl, sumN_ext. intros i Hi.
      unfold costZ. rewrite costZ_relaxed; [done|].
      rewrite Forall_forall in Hnone. apply Hnone, elem_of_seq. lia.
    + apply not_Forall_Exists in Hsome; [|apply _].
      apply Exists_exists in Hsome as (g & Hg%elem_of_seq & Hbad).
      apply not_false_iff_true in Hbad.
      destruct (swap_bad_pair cols g Hperm) as (cols1 & _ & Hlt & _);
        [lia|done|].
      pose proof (bad_count_nonneg cols1). lia.
  - destruct (decide (Forall (λ i, bad_pair G T i (cols !!! i) = false)
                        (seq 0 n))) as [Hnone|Hsome].
    + exists cols. split; [done|]. rewrite sumZ_assignment_lookup by done.
      unfold relaxed_cost. apply Z.eq_le_incl, sumN_ext. intros i Hi.
      unfold costZ. rewrite costZ_relaxed; [done|].
      rewrite Forall_forall in Hnone. apply Hnone, elem_of_seq. lia.
    + apply not_Forall_Exists in Hsome; [|apply _].
      apply Exists_exists in Hsome as (g & Hg%elem_of_seq & Hbad).
      apply not_false_iff_true in Hbad.
      destruct (swap_bad_pair cols g Hperm) as (cols1 & Hp1 & Hlt & Hrel);
        [lia|done|].
      destruct (IH cols1 Hp1) as (cols' & Hp' & Hle); [lia|].
      exists cols'. split; [done|]. by rewrite <-Hrel.
Qed.

(** The [fn] sum of an optimal assignment is at most the number of
    ground-truth detections. *)
Lemma optimal_fn_le rows cols :
  wf_data data = true →
  optimal_assignment (tabulate2 n n (λ i j, Qc_of_Z (costZ thr data i j)))
    rows cols →
  (sumZ (fnZ thr data) (zip rows cols) ≤ Z.of_nat (num_gt_dets data))%Z.
Proof.
  intros Hwf [[-> Hperm] Hmin]%optimal_Z.
  destruct (relax_assignment (Z.to_nat (bad_count cols)) cols Hperm)
    as (cols' & Hp' & Hle).
  { pose proof (bad_count_nonneg cols). lia. }
  specialize (Hmin cols' Hp').
  assert (Hrel : (relaxed cols
                  = sumN n (λ i, fn_relaxed thr data i (cols !!! i))
                    + sumZ (fpZ thr data) (zip (seq 0 n) cols))%Z).
  { unfold relaxed_cost. rewrite (sumZ_assignment_lookup (fpZ thr data)) by done.
    clear. generalize n. intros m.
    induction m as [|k IHk]; [done|]. rewrite !sumN_S, IHk. lia. }
  unfold costZ in Hmin at 1. rewrite sumZ_add in Hmin.
  assert (sumN n (λ i, fn_relaxed thr data i (cols !!! i))
          ≤ Z.of_nat (num_gt_dets data))%Z.
  { rewrite <-(sumN_row_dets data Hwf). apply sumN_le.
    intros i _. apply fnZ_le_relaxed. }
  lia.
Qed.
End exchange.

(** ** The output contract *)

Lemma Qc_le_add_r (a b : Qc) : (0 ≤ b)%Qc → (a ≤ a + b)%Qc.
Proof.
  intros Hb. rewrite <-(Qcplus_0_r a) at 1. by apply Qcplus_le_mono_l.
Qed.

Lemma quotient_in_unit (a d : Qc) :
  (0 ≤ a)%Qc → (a ≤ d)%Qc → (1 ≤ d)%Qc → in_unit_interval (np_divide a d).
Proof.
  intros Ha Had Hd.
  assert (Hpos : (0 < d)%Qc) by (eapply Qclt_le_trans; [|exact Hd]; done).
  assert (Hnz : d ≠ 0%Qc) by (intros Hz; rewrite Hz in Hpos; done).
  pose proof (Qcinv_pos _ Hpos) as Hinv.
  exists (a / d)%Qc. split; [by apply np_divide_finite|]. unfold Qcdiv. split.
  - apply Qcmult_nonneg_nonneg; [done|]. by apply Qclt_le_weak.
  - rewrite <-(Qcmult_inv_r d) by done.
    apply Qcmult_le_mono_nonneg_r; [by apply Qclt_le_weak|done].
Qed.

Lemma one_in_unit : in_unit_interval (Fin 1).
Proof. exists 1%Qc. split_and!; done. Qed.

Lemma zero_in_unit : in_unit_interval (Fin 0).
Proof. exists 0%Qc. split_and!; done. Qed.

Lemma final_fields_in_unit res :
  (0 ≤ IDTP res)%Z → (0 ≤ IDFN res)%Z → (0 ≤ IDFP res)%Z →
  in_unit_interval (IDF1 (Identity._compute_final_fields res))
  ∧ in_unit_interval (IDR (Identity._compute_final_fields res))
  ∧ in_unit_interval (IDP (Identity._compute_final_fields res)).
Proof.
  intros Htp Hfn Hfp.
  assert (Htpq : (0 ≤ Qc_of_Z (IDTP res))%Qc) by (qc_of_Z; lia).
  assert (Hfnq : (0 ≤ Qc_of_Z (IDFN res))%Qc) by (qc_of_Z; lia).
  assert (Hfpq : (0 ≤ Qc_of_Z (IDFP res))%Qc) by (qc_of_Z; lia).
  assert (Hhalf : (0 ≤ lit_half)%Qc) by done.
  unfold Identity._compute_final_fields. split_and!.
  - repeat case_decide; simpl; try apply one_in_unit.
    all: apply quotient_in_unit; [done| |apply np_maximum_ge_l].
    all: etrans; [|apply np_maximum_ge_r].
    all: rewrite <-Qcplus_assoc; apply Qc_le_add_r.
    all: apply Qcplus_nonneg_nonneg; by apply Qcmult_nonneg_nonneg.
  - repeat case_decide; simpl; try apply one_in_unit.
    all: apply quotient_in_unit; [done| |apply np_maximum_ge_l].
    all: etrans; [|apply np_maximum_ge_r].
    all: rewrite Z2Qc_inj_add; by apply Qc_le_add_r.
  - repeat case_decide; simpl; try apply one_in_unit.
    all: apply quotient_in_unit; [done| |apply np_maximum_ge_l].
    all: etrans; [|apply np_maximum_ge_r].
    all: rewrite Z2Qc_inj_add; by apply Qc_le_add_r.
Qed.

Lemma sumN_ones G T :
  sumN (G + T) (λ i, if bool_decide (i < G) then 1%Z else 0%Z) = Z.of_nat G.
Proof.
  rewrite sumN_app.
  rewrite (sumN_ext G _ (λ _, Z.of_nat 1)),
          (sumN_ext T _ (λ _, 0%Z)).
  - rewrite sumN_zero, (sumN_of_nat G (λ _, 1)), sum_list_fmap_const, length_seq.
    lia.
  - intros i _. by rewrite bool_decide_eq_false_2 by lia.
  - intros i Hi. by rewrite bool_decide_eq_true_2.
Qed.

Lemma track_units_bounds cfg data rows cols :
  let n := num_gt_ids data + num_tracker_ids data in
  is_assignment n rows cols →
  (0 ≤ sumZ (track_fn_units cfg data) (zip rows cols))%Z
  ∧ (sumZ (track_fn_units cfg data) (zip rows cols) ≤ Z.of_nat (num_gt_ids data))%Z
  ∧ (0 ≤ sumZ (track_fp_units cfg data) (zip rows cols))%Z.
Proof.
  intros n Hassign. split_and!.
  - apply sumZ_nonneg. intros i j _. unfold track_fn_units.
    repeat case_bool_decide; try lia. destruct (rejected _ _ _ _); lia.
  - rewrite <-(sumN_ones _ (num_tracker_ids data)).
    rewrite <-(sumZ_assignment_rows _ n rows cols) by done.
    apply sumZ_le. intros i j _. unfold track_fn_units.
    repeat case_bool_decide; try lia. destruct (rejected _ _ _ _); lia.
  - apply sumZ_nonneg. intros i j _. unfold track_fp_units.
    repeat case_bool_decide; try lia. destruct (rejected _ _ _ _); lia.
Qed.

Lemma final_fields_contract res :
  (0 ≤ IDTP res)%Z → (0 ≤ IDFN res)%Z → (0 ≤ IDFP res)%Z →
  let r := Identity._compute_final_fields res in
  (0 ≤ IDTP r)%Z ∧ (0 ≤ IDFN r)%Z ∧ (0 ≤ IDFP r)%Z
  ∧ in_unit_interval (IDF1 r) ∧ in_unit_interval (IDR r)
  ∧ in_unit_interval (IDP r).
Proof.
  intros Htp Hfn Hfp r. subst r.
  destruct (final_fields_counts res) as (-> & -> & ->).
  split_and!; [done..| | |]; by apply final_fields_in_unit.
Qed.

(** C9.  For every valid sequence and a solver that meets its contract, both
    [Identity.eval_sequence] and [TrackIdentity.eval_sequence] return a
    result; it is a record of exactly the six fields named in [fields]; its
    three counts are non-negative (in the track-level result [IDFN] is at
    most [numGtIdentities]) and its three ratios are finite numbers between 0
    and 1. *)
Theorem eval_sequence_output_contract
    (lsa : list (list npfloat) → result (list nat * list nat))
    (cfg : Config) (data : SequenceData) :
  solver_contract lsa → valid_data data = true →
  fields = ["IDF1"; "IDR"; "IDP"; "IDTP"; "IDFN"; "IDFP"]%string
  ∧ (∃ res, Identity.eval_sequence lsa cfg data = Ok res
       ∧ (0 ≤ IDTP res)%Z ∧ (0 ≤ IDFN res)%Z ∧ (0 ≤ IDFP res)%Z
       ∧ in_unit_interval (IDF1 res) ∧ in_unit_interval (IDR res)
       ∧ in_unit_interval (IDP res))
  ∧ (∃ res, TrackIdentity.eval_sequence lsa cfg data = Ok res
       ∧ (IDFN res ≤ Z.of_nat (num_gt_ids data))%Z
       ∧ (0 ≤ IDTP res)%Z ∧ (0 ≤ IDFN res)%Z ∧ (0 ≤ IDFP res)%Z
       ∧ in_unit_interval (IDF1 res) ∧ in_unit_interval (IDR res)
       ∧ in_unit_interval (IDP res)).
Proof.
  intros Hlsa Hv. pose proof Hv as [Hwf Hp]%valid_data_spec.
  split; [done|].
  destruct (decide (num_tracker_dets data = 0)) as [Ht|Ht].
  { split.
    - eexists. split; [by apply Identity_no_tracker|].
      apply final_fields_contract; simpl; lia.
    - eexists. split; [by apply TrackIdentity_no_tracker|].
      split_and!; simpl; try lia; apply zero_in_unit. }
  destruct (decide (num_gt_dets data = 0)) as [Hg|Hg].
  { split.
    - eexists. split; [by apply Identity_no_gt|].
      apply final_fields_contract; simpl; lia.
    - eexists. split; [by apply TrackIdentity_no_gt|].
      split_and!; simpl; try lia; apply zero_in_unit. }
  split.
  - destruct (Identity_eval_main lsa cfg data Hlsa Hwf Ht Hg)
      as (rows & cols & _ & Hopt & ->).
    eexists. split; [done|].
    pose proof (optimal_fn_le (THRESHOLD cfg) data rows cols Hwf Hopt).
    assert (0 ≤ sumZ (fnZ (THRESHOLD cfg) data) (zip rows cols))%Z
      by (apply sumZ_nonneg; intros; apply fnZ_nonneg).
    assert (0 ≤ sumZ (fpZ (THRESHOLD cfg) data) (zip rows cols))%Z
      by (apply sumZ_nonneg; intros; apply fpZ_nonneg).
    apply final_fields_contract; simpl; lia.
  - destruct (TrackIdentity_eval_main lsa cfg data Hlsa Hv Ht Hg)
      as (rows & cols & Mq & _ & Hlen & _ & [Hassign _] & ->).
    rewrite Hlen in Hassign.
    destruct (track_units_bounds cfg data rows cols Hassign) as (H0 & HG & H0').
    eexists. split; [done|]. split.
    + match goal with |- context [Identity._compute_final_fields ?r] =>
        destruct (final_fields_counts r) as (_ & -> & _) end. done.
    + apply final_fields_contract; simpl; lia.
Qed.

(** ** A sequence with more than [1e10] detections *)

Lemma half_len_Z : Z.of_nat half_len = 15000000000%Z.
Proof. exact (proj2_sig half_len_sig). Qed.

Lemma count_frames_replicate {A} (p : A → bool) n x :
  count_frames p (replicate n x) = if p x then n else 0.
Proof.
  induction n as [|n IH]; [by destruct (p x)|].
  cbn [replicate]. rewrite count_frames_cons, IH. by destruct (p x).
Qed.

Lemma forallb_replicate {A} (p : A → bool) n x :
  p x = true → forallb p (replicate n x) = true.
Proof. intros Hp. induction n as [|n IH]; [done|]. simpl. by rewrite Hp, IH. Qed.

Lemma long_frames :
  frames long_data
  = replicate half_len long_frame_a ++ replicate half_len long_frame_b.
Proof.
  unfold frames, long_data. cbn [gt_ids tracker_ids similarity_scores].
  rewrite zip_with_app by (by rewrite !length_replicate).
  rewrite !zip_with_replicate.
  rewrite zip_with_app by (by rewrite !length_replicate).
  by rewrite !zip_with_replicate.
Qed.

Lemma long_count (p : list nat * list nat * list (list Qc) → bool) :
  count_frames p (frames long_data)
  = (if p long_frame_a then half_len else 0)
    + (if p long_frame_b then half_len else 0).
Proof. by rewrite long_frames, count_frames_app, !count_frames_replicate. Qed.

Lemma wf_data_intro data :
  length (tracker_ids data) = length (gt_ids data) →
  length (similarity_scores data) = length (gt_ids data) →
  forallb (wf_frame (num_gt_ids data) (num_tracker_ids data)) (frames data) = true →
  num_gt_dets data = sum_list (length <$> gt_ids data) →
  num_tracker_dets data = sum_list (length <$> tracker_ids data) →
  wf_data data = true.
Proof.
  intros H1 H2 H3 H4 H5. unfold wf_data.
  rewrite H3, !bool_decide_eq_true_2 by done. done.
Qed.

Lemma long_data_wf : wf_data long_data = true.
Proof.
  apply wf_data_intro.
  - unfold long_data. cbn [gt_ids tracker_ids].
    by rewrite !length_app, !length_replicate.
  - unfold long_data. cbn [gt_ids similarity_scores].
    by rewrite !length_app, !length_replicate.
  - rewrite long_frames, forallb_app.
    change (num_gt_ids long_data) with 2. change (num_tracker_ids long_data) with 1.
    rewrite !forallb_replicate by reflexivity. done.
  - unfold long_data. cbn [gt_ids num_gt_dets].
    rewrite fmap_app, !fmap_replicate, sum_list_with_app, !sum_list_replicate.
    cbn [length]. lia.
  - unfold long_data. cbn [tracker_ids num_tracker_dets].
    rewrite fmap_app, !fmap_replicate, sum_list_with_app, !sum_list_replicate.
    cbn [length]. lia.
Qed.

Lemma Qc_of_nat_half_len :
  Qc_of_nat half_len = Qc_of_Z 15000000000
  ∧ Qc_of_nat (half_len + half_len) = Qc_of_Z 30000000000
  ∧ Qc_of_nat (half_len + 0) = Qc_of_Z 15000000000
  ∧ Qc_of_nat (0 + 0) = Qc_of_Z 0.
Proof.
  pose proof half_len_Z. unfold Qc_of_nat. split_and!; f_equal; lia.
Qed.

Lemma long_count_tables_low :
  count_tables (Q_of 1 2) long_data = long_tables_low.
Proof.
  unfold count_tables.
  change (num_gt_ids long_data) with 2. change (num_tracker_ids long_data) with 1.
  unfold tabulate2, tabulate. cbn [seq fmap list_fmap].
  unfold matchCount, gtCount, trackerCount. rewrite !long_count.
  change (similar (Q_of 1 2) long_frame_a 0 0) with true.
  change (similar (Q_of 1 2) long_frame_b 0 0) with false.
  change (similar (Q_of 1 2) long_frame_a 1 0) with false.
  change (similar (Q_of 1 2) long_frame_b 1 0) with false.
  change (bool_decide (0 ∈ long_frame_a.1.1)) with true.
  change (bool_decide (0 ∈ long_frame_b.1.1)) with true.
  change (bool_decide (1 ∈ long_frame_a.1.1)) with true.
  change (bool_decide (1 ∈ long_frame_b.1.1)) with true.
  change (bool_decide (0 ∈ long_frame_a.1.2)) with true.
  change (bool_decide (0 ∈ long_frame_b.1.2)) with false.
  destruct Qc_of_nat_half_len as (_ & -> & -> & ->). done.
Qed.

Lemma long_count_tables_high :
  count_tables (Q_of 7 10) long_data = long_tables_high.
Proof.
  unfold count_tables.
  change (num_gt_ids long_data) with 2. change (num_tracker_ids long_data) with 1.
  unfold tabulate2, tabulate. cbn [seq fmap list_fmap].
  unfold matchCount, gtCount, trackerCount. rewrite !long_count.
  change (similar (Q_of 7 10) long_frame_a 0 0) with false.
  change (similar (Q_of 7 10) long_frame_b 0 0) with false.
  change (similar (Q_of 7 10) long_frame_a 1 0) with false.
  change (similar (Q_of 7 10) long_frame_b 1 0) with false.
  change (bool_decide (0 ∈ long_frame_a.1.1)) with true.
  change (bool_decide (0 ∈ long_frame_b.1.1)) with true.
  change (bool_decide (1 ∈ long_frame_a.1.1)) with true.
  change (bool_decide (1 ∈ long_frame_b.1.1)) with true.
  change (bool_decide (0 ∈ long_frame_a.1.2)) with true.
  change (bool_decide (0 ∈ long_frame_b.1.2)) with false.
  destruct Qc_of_nat_half_len as (_ & -> & -> & ->). done.
Qed.

Lemma Identity_shape d1 d2 tb :
  num_gt_ids d1 = num_gt_ids d2 → num_tracker_ids d1 = num_tracker_ids d2 →
  Identity.cost_matrix d1 tb = Identity.cost_matrix d2 tb
  ∧ ∀ rows cols, Identity_finish d1 tb rows cols = Identity_finish d2 tb rows cols.
Proof.
  intros HG HT. unfold Identity.cost_matrix, Identity_finish.
  rewrite !Identity_cost_matrices_gen, HG, HT. done.
Qed.

Lemma long_data_dets : num_tracker_dets long_data ≠ 0 ∧ num_gt_dets long_data ≠ 0.
Proof.
  pose proof half_len_Z. unfold long_data. cbn [num_tracker_dets num_gt_dets]. lia.
Qed.

Lemma long_eval (cfg : Config) (tb : Tables) :
  count_tables (THRESHOLD cfg) long_data = tb →
  Identity.eval_sequence exhaustive_lsa cfg long_data
  = ('(match_rows, match_cols) ← exhaustive_lsa (Identity.cost_matrix long_shape tb);
     Identity_finish long_shape tb match_rows match_cols).
Proof.
  intros Htb. destruct long_data_dets as [Ht Hg].
  rewrite Identity_eval_sequence_main by done.
  rewrite accumulate_counts by apply long_data_wf. cbn [mbind result_bind].
  rewrite Htb.
  destruct (Identity_shape long_data long_shape tb) as [-> Hfin]; [done..|].
  apply result_bind_ext. intros [rows cols]. apply Hfin.
Qed.

(** The large sequence at the thresholds 0.5 and 0.7: raising the threshold
    lowers [IDFN] from 25 to 20 thousand million and raises [IDTP] from 35 to
    40 thousand million. *)
Lemma threshold_monotonicity_fails :
  solver_contract exhaustive_lsa
  ∧ wf_data long_data = true
  ∧ (THRESHOLD default_config ≤ THRESHOLD config_high)%Qc
  ∧ ∃ res1 res2,
      Identity.eval_sequence exhaustive_lsa default_config long_data = Ok res1
      ∧ Identity.eval_sequence exhaustive_lsa config_high long_data = Ok res2
      ∧ IDFN res1 = 25000000000%Z ∧ IDFN res2 = 20000000000%Z
      ∧ IDTP res1 = 35000000000%Z ∧ IDTP res2 = 40000000000%Z
      ∧ ¬ (IDFN res1 ≤ IDFN res2)%Z ∧ ¬ (IDTP res2 ≤ IDTP res1)%Z.
Proof.
  split; [apply exhaustive_lsa_contract|]. split; [apply long_data_wf|].
  split; [done|].
  pose proof (long_eval default_config long_tables_low long_count_tables_low) as H1.
  pose proof (long_eval config_high long_tables_high long_count_tables_high) as H2.
  remember (_ ≫= _) as r1 eqn:Hr1 in H1. vm_compute in Hr1.
  remember (_ ≫= _) as r2 eqn:Hr2 in H2. vm_compute in Hr2.
  subst r1 r2. eexists _, _. split; [exact H1|]. split; [exact H2|].
  cbn [IDFN IDTP]. split_and!; try reflexivity; lia.
Qed.

(** In the large sequence the literal [1e10] of the cross-sink cell
    [(0, T + 1)] is below the cost of the real cell [(0, 0)] and below the
    cost of the self-sink cell [(0, T + 0)]. *)
Lemma penalty_not_dominating :
  wf_data long_data = true
  ∧ num_gt_dets long_data ≠ 0 ∧ num_tracker_dets long_data ≠ 0
  ∧ let M := Identity.cost_matrix long_data (count_tables (Q_of 7 10) long_data) in
    accumulate (Q_of 7 10) long_data = Ok (count_tables (Q_of 7 10) long_data)
    ∧ mat_get M 0 (1 + 1) = Some (Fin lit_1e10)
    ∧ mat_get M 0 0 = Some (Fin (Qc_of_Z 45000000000))
    ∧ mat_get M 0 (1 + 0) = Some (Fin (Qc_of_Z 30000000000))
    ∧ (lit_1e10 < Qc_of_Z 45000000000)%Qc
    ∧ (lit_1e10 < Qc_of_Z 30000000000)%Qc.
Proof.
  split; [apply long_data_wf|]. destruct long_data_dets as [Ht Hg].
  split; [done|]. split; [done|]. intros M. subst M.
  split; [apply accumulate_counts, long_data_wf|].
  rewrite long_count_tables_high.
  destruct (Identity_shape long_data long_shape long_tables_high) as [-> _];
    [done..|].
  split_and!; vm_compute; try reflexivity;
    do 2 f_equal; apply Qc_is_canon; reflexivity.
Qed.

(** ** The theorems at the example sequence *)

Lemma identity_cost_matrix_cells_example :
  wf_data example_data = true
  ∧ num_gt_dets example_data ≠ 0 ∧ num_tracker_dets example_data ≠ 0
  ∧ accumulate (Q_of 1 2) example_data
    = Ok (count_tables (Q_of 1 2) example_data).
Proof.
  assert (H1 : wf_data example_data = true) by reflexivity.
  assert (H2 : num_gt_dets example_data ≠ 0) by (simpl; lia).
  assert (H3 : num_tracker_dets example_data ≠ 0) by (simpl; lia).
  split; [exact H1|]. split; [exact H2|]. split; [exact H3|].
  exact (proj1 (identity_cost_matrix_cells (Q_of 1 2) example_data H1 H2 H3)).
Defined.

Lemma track_cost_matrix_cells_example :
  valid_data example_data = true
  ∧ num_gt_dets example_data ≠ 0 ∧ num_tracker_dets example_data ≠ 0
  ∧ accumulate (Q_of 1 2) example_data
    = Ok (count_tables (Q_of 1 2) example_data).
Proof.
  assert (H1 : valid_data example_data = true) by reflexivity.
  assert (H2 : num_gt_dets example_data ≠ 0) by (simpl; lia).
  assert (H3 : num_tracker_dets example_data ≠ 0) by (simpl; lia).
  split; [exact H1|]. split; [exact H2|]. split; [exact H3|].
  exact (proj1 (track_cost_matrix_cells (Q_of 1 2) example_data H1 H2 H3)).
Defined.

Lemma identity_gt_detections_accounted_example :
  solver_contract exhaustive_lsa
  ∧ wf_data example_data = true
  ∧ ∃ res, Identity.eval_sequence exhaustive_lsa default_config example_data = Ok res
           ∧ (IDTP res + IDFN res)%Z = Z.of_nat (num_gt_dets example_data).
Proof.
  assert (H1 : wf_data example_data = true) by reflexivity.
  split; [exact exhaustive_lsa_contract|]. split; [exact H1|].
  destruct (identity_gt_detections_accounted exhaustive_lsa default_config
              example_data exhaustive_lsa_contract H1) as (res & Hres & Hsum & _).
  exists res. split; [exact Hres|exact Hsum].
Defined.

Lemma track_rejection_boundary_example :
  solver_contract exhaustive_lsa
  ∧ valid_data example_data = true
  ∧ num_tracker_dets example_data ≠ 0 ∧ num_gt_dets example_data ≠ 0
  ∧ ∃ match_rows match_cols res,
      TrackIdentity.eval_sequence exhaustive_lsa default_config example_data = Ok res
      ∧ IDFN res = sumZ (track_fn_units default_config example_data)
                     (zip match_rows match_cols)
      ∧ IDFP res = sumZ (track_fp_units default_config example_data)
                     (zip match_rows match_cols).
Proof.
  assert (H1 : valid_data example_data = true) by reflexivity.
  assert (H2 : num_tracker_dets example_data ≠ 0) by (simpl; lia).
  assert (H3 : num_gt_dets example_data ≠ 0) by (simpl; lia).
  split; [exact exhaustive_lsa_contract|]. split; [exact H1|].
  split; [exact H2|]. split; [exact H3|].
  destruct (track_rejection_boundary exhaustive_lsa default_config example_data
              exhaustive_lsa_contract H1 H2 H3)
    as (rows & cols & Mq & res & _ & _ & _ & Hres & Hfn & Hfp & _).
  exists rows, cols, res. split; [exact Hres|]. split; [exact Hfn|exact Hfp].
Defined.

Lemma identity_threshold_monotone_example :
  solver_contract exhaustive_lsa
  ∧ wf_data example_data = true
  ∧ (Z.of_nat (num_gt_dets example_data + num_tracker_dets example_data)
     < 10000000000)%Z
  ∧ (THRESHOLD default_config ≤ THRESHOLD config_high)%Qc
  ∧ ∃ res1 res2,
      Identity.eval_sequence exhaustive_lsa default_config example_data = Ok res1
      ∧ Identity.eval_sequence exhaustive_lsa config_high example_data = Ok res2
      ∧ (IDTP res2 ≤ IDTP res1)%Z
      ∧ (IDFN res1 ≤ IDFN res2)%Z
      ∧ (IDFP res1 ≤ IDFP res2)%Z.
Proof.
  assert (H1 : wf_data example_data = true) by reflexivity.
  assert (H2 : (Z.of_nat (num_gt_dets example_data + num_tracker_dets example_data)
                < 10000000000)%Z) by (simpl; lia).
  assert (H3 : (THRESHOLD default_config ≤ THRESHOLD config_high)%Qc)
    by (vm_compute; discriminate).
  split; [exact exhaustive_lsa_contract|]. split; [exact H1|].
  split; [exact H2|]. split; [exact H3|].
  exact (proj2 (identity_threshold_monotone exhaustive_lsa default_config
                  config_high example_data exhaustive_lsa_contract H1 H2 H3)).
Defined.

Lemma eval_sequence_output_contract_example :
  solver_contract exhaustive_lsa
  ∧ valid_data example_data = true
  ∧ ∃ res, TrackIdentity.eval_sequence exhaustive_lsa default_config example_data
           = Ok res
           ∧ (IDFN res ≤ Z.of_nat (num_gt_ids example_data))%Z
           ∧ (0 ≤ IDTP res)%Z ∧ (0 ≤ IDFN res)%Z ∧ (0 ≤ IDFP res)%Z
           ∧ in_unit_interval (IDF1 res) ∧ in_unit_interval (IDR res)
           ∧ in_unit_interval (IDP res).
Proof.
  assert (H1 : valid_data example_data = true) by reflexivity.
  split; [exact exhaustive_lsa_contract|]. split; [exact H1|].
  exact (proj2 (proj2 (eval_sequence_output_contract exhaustive_lsa default_config
                         example_data exhaustive_lsa_contract H1))).
Defined.

Lemma track_division_defined_example :
  wf_data example_data = true
  ∧ ids_present example_data = true
  ∧ accumulate (Q_of 1 2) example_data
    = Ok (count_tables (Q_of 1 2) example_data).
Proof.
  assert (H1 : wf_data example_data = true) by reflexivity.
  assert (H2 : ids_present example_data = true) by reflexivity.
  split; [exact H1|]. split; [exact H2|].
  exact (proj1 (track_division_defined (Q_of 1 2) example_data H1 H2)).
Defined.

(** * Further properties *)

(** ** Further properties of [_compute_final_fields] *)

Lemma np_maximum_of_ge (b : Qc) : (1 ≤ b)%Qc → np_maximum 1 b = b.
Proof. intros Hb. unfold np_maximum. by rewrite decide_True. Qed.

Lemma np_divide_zero (b : Qc) : np_divide 0 (np_maximum 1 b) = Fin 0.
Proof.
  rewrite np_divide_finite by apply np_maximum_nonzero. f_equal.
  unfold Qcdiv. ring.
Qed.

(** The record [_compute_final_fields] returns, field by field. *)
Lemma final_fields_record (res : MetricResult) :
  Identity._compute_final_fields res
  = {| IDF1 := if decide (IDFN res = 0%Z ∧ IDFP res = 0%Z) then Fin 1
               else np_divide (Qc_of_Z (IDTP res))
                      (np_maximum 1 (Qc_of_Z (IDTP res)
                                     + lit_half * Qc_of_Z (IDFP res)
                                     + lit_half * Qc_of_Z (IDFN res))%Qc);
       IDR := if decide (IDFN res = 0%Z) then Fin 1
              else np_divide (Qc_of_Z (IDTP res))
                     (np_maximum 1 (Qc_of_Z (IDTP res + IDFN res)));
       IDP := if decide (IDFP res = 0%Z) then Fin 1
              else np_divide (Qc_of_Z (IDTP res))
                     (np_maximum 1 (Qc_of_Z (IDTP res + IDFP res)));
       IDTP := IDTP res; IDFN := IDFN res; IDFP := IDFP res |}.
Proof.
  destruct res as [f r p tp fn fp]. unfold Identity._compute_final_fields.
  cbn [IDF1 IDP IDR set_IDF1 set_IDP set_IDR IDTP IDFN IDFP].
  destruct (decide (fn = 0%Z)) as [->|Hfn], (decide (fp = 0%Z)) as [->|Hfp];
    cbn [IDF1 IDP IDR set_IDF1 set_IDP set_IDR IDTP IDFN IDFP];
    repeat case_decide; try done; try (exfalso; tauto); exfalso; lia.
Qed.

(** X1.  For non-negative counts the three ratios are finite and [IDF1] is
    the harmonic mean of [IDP] and [IDR], in the form
    [IDF1 * (IDP + IDR) = 2 * IDP * IDR] that also covers [IDP = IDR = 0]. *)
Theorem final_fields_harmonic_mean (res : MetricResult) :
  (0 ≤ IDTP res)%Z → (0 ≤ IDFN res)%Z → (0 ≤ IDFP res)%Z →
  ∃ f p r : Qc,
    IDF1 (Identity._compute_final_fields res) = Fin f
    ∧ IDP (Identity._compute_final_fields res) = Fin p
    ∧ IDR (Identity._compute_final_fields res) = Fin r
    ∧ (f * (p + r) = 2 * p * r)%Qc.
Proof.
  intros Htp Hfn Hfp. rewrite final_fields_record.
  cbn [IDF1 IDP IDR].
  destruct (decide (IDTP res = 0%Z)) as [Hz|Hnz].
  - rewrite Hz, Z2Qc_inj_0, !np_divide_zero.
    repeat case_decide; eexists _, _, _;
      (split; [reflexivity|]); (split; [reflexivity|]); (split; [reflexivity|]);
      try ring; exfalso; tauto.
  - assert (Htp1 : (1 ≤ Qc_of_Z (IDTP res))%Qc) by (qc_of_Z; lia).
    assert (Hfnq : (0 ≤ Qc_of_Z (IDFN res))%Qc) by (qc_of_Z; lia).
    assert (Hfpq : (0 ≤ Qc_of_Z (IDFP res))%Qc) by (qc_of_Z; lia).
    assert (Hhalf : (0 ≤ lit_half)%Qc) by done.
    assert (H1 : (1 ≤ Qc_of_Z (IDTP res + IDFN res))%Qc) by (qc_of_Z; lia).
    assert (H2 : (1 ≤ Qc_of_Z (IDTP res + IDFP res))%Qc) by (qc_of_Z; lia).
    assert (H3 : (1 ≤ Qc_of_Z (IDTP res) + lit_half * Qc_of_Z (IDFP res)
                      + lit_half * Qc_of_Z (IDFN res))%Qc).
    { etrans; [exact Htp1|]. rewrite <-Qcplus_assoc. apply Qc_le_add_r.
      apply Qcplus_nonneg_nonneg; by apply Qcmult_nonneg_nonneg. }
    rewrite !np_maximum_of_ge by done.
    rewrite Z2Qc_inj_add in H1. rewrite Z2Qc_inj_add in H2.
    rewrite !Z2Qc_inj_add.
    set (tp := Qc_of_Z (IDTP res)) in *.
    set (fn := Qc_of_Z (IDFN res)) in *.
    set (fp := Qc_of_Z (IDFP res)) in *.
    assert (Hnz1 : (tp + fn)%Qc ≠ 0%Qc).
    { intros Hq. rewrite Hq in H1. done. }
    assert (Hnz2 : (tp + fp)%Qc ≠ 0%Qc).
    { intros Hq. rewrite Hq in H2. done. }
    assert (Hnz3 : (tp + lit_half * fp + lit_half * fn)%Qc ≠ 0%Qc).
    { intros Hq. rewrite Hq in H3. done. }
    assert (Hnz0 : tp ≠ 0%Qc).
    { intros Hq. rewrite Hq in Htp1. done. }
    assert (Hfn0 : IDFN res = 0%Z → fn = 0%Qc) by (intros Hq; subst fn; rewrite Hq; apply Z2Qc_inj_0).
    assert (Hfp0 : IDFP res = 0%Z → fp = 0%Qc) by (intros Hq; subst fp; rewrite Hq; apply Z2Qc_inj_0).
    rewrite !np_divide_finite by done.
    exists (tp / (tp + lit_half * fp + lit_half * fn))%Qc,
           (tp / (tp + fp))%Qc, (tp / (tp + fn))%Qc.
    assert (Hhm : (tp / (tp + lit_half * fp + lit_half * fn)
                   * (tp / (tp + fp) + tp / (tp + fn))
                   = 2 * (tp / (tp + fp)) * (tp / (tp + fn)))%Qc).
    { unfold lit_half, Q_of.
      replace (Q2Qc (1 # 2)) with (/ 2)%Qc by (by apply Qc_is_canon).
      field. split_and!; try done.
      change {| this := 2; canon := Qred_involutive 2 |} with (1 + 1)%Qc.
      match goal with |- ?x ≠ _ => assert (Hge : (1 ≤ x)%Qc) end; [|intros Hq].
      { etrans; [exact Htp1|].
        match goal with |- (_ ≤ ?x)%Qc =>
          replace x with (tp + (tp + fp + fn))%Qc by ring end.
        apply Qc_le_add_r. repeat apply Qcplus_nonneg_nonneg; try done.
        etrans; [|exact Htp1]. done. }
      rewrite Hq in Hge. done. }
    split_and!; [| | |exact Hhm].
    + case_decide as Hc; [|done]. destruct Hc as [Hc1 Hc2].
      rewrite (Hfn0 Hc1), (Hfp0 Hc2). f_equal. field. done.
    + case_decide as Hc; [|done]. rewrite (Hfp0 Hc). f_equal. field. done.
    + case_decide as Hc; [|done]. rewrite (Hfn0 Hc). f_equal. field. done.
Qed.

Lemma final_fields_harmonic_mean_example :
  ∃ f p r : Qc,
    IDF1 (Identity._compute_final_fields
            {| IDF1 := Fin 0; IDR := Fin 0; IDP := Fin 0;
               IDTP := 2; IDFN := 1; IDFP := 0 |}) = Fin f
    ∧ IDP (Identity._compute_final_fields
            {| IDF1 := Fin 0; IDR := Fin 0; IDP := Fin 0;
               IDTP := 2; IDFN := 1; IDFP := 0 |}) = Fin p
    ∧ IDR (Identity._compute_final_fields
            {| IDF1 := Fin 0; IDR := Fin 0; IDP := Fin 0;
               IDTP := 2; IDFN := 1; IDFP := 0 |}) = Fin r
    ∧ (f * (p + r) = 2 * p * r)%Qc.
Proof.
  apply (final_fields_harmonic_mean
           {| IDF1 := Fin 0; IDR := Fin 0; IDP := Fin 0;
              IDTP := 2; IDFN := 1; IDFP := 0 |}); simpl; lia.
Defined.

(** X2.  [_compute_final_fields] reads the three counts only, keeps them,
    and applying it a second time changes nothing. *)
Theorem final_fields_idempotent (res res' : MetricResult) :
  (IDTP res = IDTP res' → IDFN res = IDFN res' → IDFP res = IDFP res' →
   Identity._compute_final_fields res = Identity._compute_final_fields res')
  ∧ Identity._compute_final_fields (Identity._compute_final_fields res)
    = Identity._compute_final_fields res.
Proof.
  split.
  - intros H1 H2 H3. rewrite !final_fields_record. by rewrite H1, H2, H3.
  - rewrite (final_fields_record (Identity._compute_final_fields res)).
    destruct (final_fields_counts res) as (-> & -> & ->).
    by rewrite <-final_fields_record.
Qed.

(** ** A sequence that is empty on one side *)

(** X3.  When the sequence has no tracker detections or no ground-truth
    detections, [Identity.eval_sequence] consults neither the frames nor the
    solver and raises nothing: it returns [IDTP = 0], every ground-truth
    detection as [IDFN], every tracker detection as [IDFP], and a ratio is 1
    exactly when the count in its denominator is zero, 0 otherwise. *)
Theorem identity_empty_side
    (lsa : list (list npfloat) → result (list nat * list nat))
    (cfg : Config) (data : SequenceData) :
  num_tracker_dets data = 0 ∨ num_gt_dets data = 0 →
  Identity.eval_sequence lsa cfg data
  = Ok {| IDF1 := if decide (num_gt_dets data = 0 ∧ num_tracker_dets data = 0)
                  then Fin 1 else Fin 0;
          IDR := if decide (num_gt_dets data = 0) then Fin 1 else Fin 0;
          IDP := if decide (num_tracker_dets data = 0) then Fin 1 else Fin 0;
          IDTP := 0;
          IDFN := Z.of_nat (num_gt_dets data);
          IDFP := Z.of_nat (num_tracker_dets data) |}.
Proof.
  intros Hempty.
  destruct (decide (num_tracker_dets data = 0)) as [Ht|Ht].
  - rewrite Identity_no_tracker, final_fields_record by done. rewrite Ht.
    unfold set_IDFN, init_res. cbn [IDF1 IDR IDP IDTP IDFN IDFP].
    rewrite Z2Qc_inj_0, !np_divide_zero.
    repeat case_decide; try done; try lia; exfalso; intuition lia.
  - destruct Hempty as [?|Hg]; [done|].
    rewrite Identity_no_gt, final_fields_record by done. rewrite Hg.
    unfold set_IDFP, init_res. cbn [IDF1 IDR IDP IDTP IDFN IDFP].
    rewrite Z2Qc_inj_0, !np_divide_zero.
    repeat case_decide; try done; try lia; exfalso; intuition lia.
Qed.

Lemma identity_empty_side_example :
  Identity.eval_sequence exhaustive_lsa default_config no_tracker_data
  = Ok {| IDF1 := Fin 0; IDR := Fin 0; IDP := Fin 1;
          IDTP := 0; IDFN := 3; IDFP := 0 |}.
Proof.
  apply (identity_empty_side exhaustive_lsa default_config no_tracker_data).
  left. reflexivity.
Defined.

(** ** Indices out of range *)

Lemma take_idx_IndexError {A} (a : list A) idx :
  (∃ l, take_idx a idx = Ok l) ∨ take_idx a idx = Raise IndexError.
Proof.
  unfold take_idx. induction idx as [|i idx IH]; [left; by eexists|].
  cbn [mapM]. destruct (a !! i); [|by right]. cbn [mbind result_bind].
  destruct IH as [[l ->]| ->]; [left; by eexists|by right].
Qed.

Lemma incr_at_IndexError n a idx :
  (∃ l, incr_at n a idx = Ok l) ∨ incr_at n a idx = Raise IndexError.
Proof. unfold incr_at. destruct (forallb _ _); [left; by eexists|by right]. Qed.

Lemma incr_at2_IndexError r c M rs cs :
  (∃ l, incr_at2 r c M rs cs = Ok l) ∨ incr_at2 r c M rs cs = Raise IndexError.
Proof. unfold incr_at2. destruct (forallb _ _); [left; by eexists|by right]. Qed.

Lemma incr_at_out_of_range n a idx i :
  i ∈ idx → n ≤ i → incr_at n a idx = Raise IndexError.
Proof.
  intros Hin Hle. unfold incr_at.
  destruct (forallb _ idx) eqn:Hall; [|done].
  apply Is_true_true, forallb_True in Hall. rewrite Forall_forall in Hall.
  specialize (Hall i Hin). apply bool_decide_unpack in Hall. lia.
Qed.

(** The loop body raises nothing but [IndexError]. *)
Lemma accumulate_step_IndexError thr data tb fr :
  (∃ tb', accumulate_step thr data tb fr = Ok tb')
  ∨ accumulate_step thr data tb fr = Raise IndexError.
Proof.
  destruct fr as [t [gs ts]]. unfold accumulate_step.
  destruct (similarity_scores data !! t) as [sim|]; [|by right].
  cbn [mbind result_bind].
  destruct (take_idx_IndexError gs (nonzero_ge sim thr).*1) as [[l1 ->]| ->];
    [|by right]. cbn [mbind result_bind].
  destruct (take_idx_IndexError ts (nonzero_ge sim thr).*2) as [[l2 ->]| ->];
    [|by right]. cbn [mbind result_bind].
  destruct (incr_at2_IndexError (num_gt_ids data) (num_tracker_ids data)
              (potential_matches_count tb) l1 l2) as [[pmc ->]| ->];
    [|by right]. cbn [mbind result_bind].
  destruct (incr_at_IndexError (num_gt_ids data) (gt_id_count tb) gs)
    as [[gc ->]| ->]; [|by right]. cbn [mbind result_bind].
  destruct (incr_at_IndexError (num_tracker_ids data) (tracker_id_count tb) ts)
    as [[tc ->]| ->]; [|by right]. cbn [mbind result_bind].
  left. by eexists.
Qed.

Lemma accumulate_step_bad thr data tb fr :
  bad_frame data fr → accumulate_step thr data tb fr = Raise IndexError.
Proof.
  destruct fr as [t [gs ts]]. unfold bad_frame. cbn [fst snd]. intros Hbad.
  destruct (accumulate_step_IndexError thr data tb (t, (gs, ts)))
    as [[tb' Hok]|Hraise]; [exfalso|done].
  unfold accumulate_step in Hok.
  destruct (similarity_scores data !! t) as [sim|] eqn:Hsim; [|done].
  cbn [mbind result_bind] in Hok.
  destruct (take_idx gs _) as [l1|]; [|done]. cbn [mbind result_bind] in Hok.
  destruct (take_idx ts _) as [l2|]; [|done]. cbn [mbind result_bind] in Hok.
  destruct (incr_at2 _ _ _ _ _) as [pmc|]; [|done]. cbn [mbind result_bind] in Hok.
  destruct (incr_at _ (gt_id_count tb) gs) as [gc|] eqn:Hgc; [|done].
  cbn [mbind result_bind] in Hok.
  destruct (incr_at _ (tracker_id_count tb) ts) as [tc|] eqn:Htc; [|done].
  destruct Hbad as [Hlen|[(g & Hin & Hle)|(k & Hin & Hle)]].
  - apply lookup_lt_Some in Hsim. lia.
  - by rewrite (incr_at_out_of_range _ _ _ g) in Hgc.
  - by rewrite (incr_at_out_of_range _ _ _ k) in Htc.
Qed.

Lemma foldM_raises {A B} (f : B → A → result B) (e : pyexn) (l : list A) :
  (∀ b x, (∃ b', f b x = Ok b') ∨ f b x = Raise e) →
  (∃ x, x ∈ l ∧ ∀ b, f b x = Raise e) →
  ∀ b, foldM f b l = Raise e.
Proof.
  intros Hf (x & Hin & Hx). induction l as [|y l IH]; intros b.
  - by apply elem_of_nil in Hin.
  - cbn [foldM]. apply elem_of_cons in Hin as [<-|Hin].
    + by rewrite Hx.
    + destruct (Hf b y) as [[b' ->]| ->]; [|done]. cbn [mbind result_bind].
      by apply IH.
Qed.

(** X4.  With detections on both sides, a timestep that lacks its similarity
    matrix or lists an identity index outside the declared range makes both
    [eval_sequence] methods raise [IndexError], before the solver is
    called. *)
Theorem eval_sequence_index_error
    (lsa : list (list npfloat) → result (list nat * list nat))
    (cfg : Config) (data : SequenceData) (k : nat) (gs ts : list nat) :
  num_tracker_dets data ≠ 0 → num_gt_dets data ≠ 0 →
  gt_ids data !! k = Some gs → tracker_ids data !! k = Some ts →
  bad_frame data (k, (gs, ts)) →
  Identity.eval_sequence lsa cfg data = Raise IndexError
  ∧ TrackIdentity.eval_sequence lsa cfg data = Raise IndexError.
Proof.
  intros Ht Hg Hgs Hts Hbad.
  assert (Hacc : accumulate (THRESHOLD cfg) data = Raise IndexError).
  { unfold accumulate. apply foldM_raises.
    - intros. apply accumulate_step_IndexError.
    - exists (k, (gs, ts)). split.
      + apply list_elem_of_lookup. exists k. rewrite list_lookup_imap.
        by rewrite (proj2 (lookup_zip_Some _ _ k gs ts) (conj Hgs Hts)).
      + intros b. by apply accumulate_step_bad. }
  rewrite Identity_eval_sequence_main, TrackIdentity_eval_sequence_main by done.
  by rewrite Hacc.
Qed.

(** ** Invariants of the accumulated counts *)

Lemma vec_sum_tracker_id_count thr data :
  wf_data data = true →
  vec_sum (tracker_id_count (count_tables thr data))
  = Qc_of_nat (num_tracker_dets data).
Proof.
  intros Hwf. rewrite <-(trackerCount_sum data Hwf), <-vec_sum_of_nat.
  unfold count_tables, tabulate. simpl. by rewrite <-list_fmap_compose.
Qed.

(** X5.  On a well-formed sequence the accumulation loop raises nothing and
    ends with arrays of the declared shapes in which the per-identity counts
    add up to the detection totals and no pair of identities is counted as a
    potential match more often than either of the two identities occurs. *)
Theorem accumulate_invariants (thr : Qc) (data : SequenceData) :
  wf_data data = true →
  ∃ tb, accumulate thr data = Ok tb
    ∧ length (gt_id_count tb) = num_gt_ids data
    ∧ length (tracker_id_count tb) = num_tracker_ids data
    ∧ length (potential_matches_count tb) = num_gt_ids data
    ∧ Forall (λ row, length row = num_tracker_ids data) (potential_matches_count tb)
    ∧ vec_sum (gt_id_count tb) = Qc_of_nat (num_gt_dets data)
    ∧ vec_sum (tracker_id_count tb) = Qc_of_nat (num_tracker_dets data)
    ∧ ∀ g t, g < num_gt_ids data → t < num_tracker_ids data →
        (0 ≤ mat_at (potential_matches_count tb) g t)%Qc
        ∧ (mat_at (potential_matches_count tb) g t ≤ vec_at (gt_id_count tb) g)%Qc
        ∧ (mat_at (potential_matches_count tb) g t
           ≤ vec_at (tracker_id_count tb) t)%Qc.
Proof.
  intros Hwf. exists (count_tables thr data).
  split; [by apply accumulate_counts|].
  split_and!.
  - apply length_tabulate.
  - apply length_tabulate.
  - apply length_tabulate2.
  - cbn [count_tables potential_matches_count]. unfold tabulate2.
    apply Forall_forall. intros row (g & -> & _)%list_elem_of_fmap.
    apply length_tabulate.
  - by apply vec_sum_gt_id_count.
  - by apply vec_sum_tracker_id_count.
  - intros g t Hg Ht.
    rewrite count_tables_match, count_tables_gt, count_tables_tracker by done.
    pose proof (matchCount_le_gtCount thr data g t).
    pose proof (matchCount_le_trackerCount thr data g t).
    split_and!; qc_of_Z; lia.
Qed.

Lemma accumulate_invariants_example :
  ∃ tb, accumulate (Q_of 1 2) example_data = Ok tb
    ∧ length (gt_id_count tb) = num_gt_ids example_data
    ∧ length (tracker_id_count tb) = num_tracker_ids example_data
    ∧ length (potential_matches_count tb) = num_gt_ids example_data
    ∧ Forall (λ row, length row = num_tracker_ids example_data)
        (potential_matches_count tb)
    ∧ vec_sum (gt_id_count tb) = Qc_of_nat (num_gt_dets example_data)
    ∧ vec_sum (tracker_id_count tb) = Qc_of_nat (num_tracker_dets example_data)
    ∧ ∀ g t, g < num_gt_ids example_data → t < num_tracker_ids example_data →
        (0 ≤ mat_at (potential_matches_count tb) g t)%Qc
        ∧ (mat_at (potential_matches_count tb) g t ≤ vec_at (gt_id_count tb) g)%Qc
        ∧ (mat_at (potential_matches_count tb) g t
           ≤ vec_at (tracker_id_count tb) t)%Qc.
Proof. apply (accumulate_invariants (Q_of 1 2) example_data). reflexivity. Defined.

(** ** The order of the timesteps *)

Lemma count_frames_perm {A} (p : A → bool) (l k : list A) :
  l ≡ₚ k → count_frames p l = count_frames p k.
Proof. intros Hp. unfold count_frames. by rewrite Hp. Qed.

Lemma count_tables_perm thr d1 d2 :
  num_gt_ids d1 = num_gt_ids d2 → num_tracker_ids d1 = num_tracker_ids d2 →
  frames d1 ≡ₚ frames d2 →
  count_tables thr d1 = count_tables thr d2.
Proof.
  intros HG HT Hp. unfold count_tables, matchCount, gtCount, trackerCount.
  rewrite HG, HT. f_equal.
  - unfold tabulate2. apply tabulate_ext; intros g _. apply tabulate_ext; intros t _.
    f_equal. by apply count_frames_perm.
  - apply tabulate_ext; intros g _. f_equal. by apply count_frames_perm.
  - apply tabulate_ext; intros g _. f_equal. by apply count_frames_perm.
Qed.

Lemma TrackIdentity_shape cfg d1 d2 tb :
  num_gt_ids d1 = num_gt_ids d2 → num_tracker_ids d1 = num_tracker_ids d2 →
  TrackIdentity.cost_matrix d1 tb = TrackIdentity.cost_matrix d2 tb
  ∧ ∀ rows cols, TrackIdentity_finish cfg d1 tb rows cols
                 = TrackIdentity_finish cfg d2 tb rows cols.
Proof.
  intros HG HT.
  unfold TrackIdentity.cost_matrix, TrackIdentity_finish, TrackIdentity.re_assigned.
  rewrite HG, HT. done.
Qed.

(** X6.  The metrics do not depend on the order of the timesteps: two
    well-formed sequences with the same declared counts whose frames (the
    two identity lists with their similarity matrix) are a rearrangement of
    each other get the same result from [Identity.eval_sequence] and from
    [TrackIdentity.eval_sequence], whatever the solver. *)
Theorem eval_sequence_frame_order
    (lsa : list (list npfloat) → result (list nat * list nat))
    (cfg : Config) (d1 d2 : SequenceData) :
  wf_data d1 = true → wf_data d2 = true →
  num_gt_ids d1 = num_gt_ids d2 → num_tracker_ids d1 = num_tracker_ids d2 →
  num_gt_dets d1 = num_gt_dets d2 → num_tracker_dets d1 = num_tracker_dets d2 →
  frames d1 ≡ₚ frames d2 →
  Identity.eval_sequence lsa cfg d1 = Identity.eval_sequence lsa cfg d2
  ∧ TrackIdentity.eval_sequence lsa cfg d1 = TrackIdentity.eval_sequence lsa cfg d2.
Proof.
  intros Hwf1 Hwf2 HG HT Hgd Htd Hp.
  pose proof (count_tables_perm (THRESHOLD cfg) d1 d2 HG HT Hp) as Htb.
  destruct (decide (num_tracker_dets d1 = 0)) as [Ht|Ht].
  { assert (Ht2 : num_tracker_dets d2 = 0) by congruence. split.
    - rewrite !Identity_no_tracker by done. by rewrite Hgd.
    - rewrite !TrackIdentity_no_tracker by done. by rewrite HG. }
  destruct (decide (num_gt_dets d1 = 0)) as [Hg|Hg].
  { assert (Ht2 : num_tracker_dets d2 ≠ 0) by congruence.
    assert (Hg2 : num_gt_dets d2 = 0) by congruence. split.
    - rewrite !Identity_no_gt by done. by rewrite Htd.
    - rewrite !TrackIdentity_no_gt by done. by rewrite HT. }
  assert (Ht2 : num_tracker_dets d2 ≠ 0) by congruence.
  assert (Hg2 : num_gt_dets d2 ≠ 0) by congruence.
  rewrite !Identity_eval_sequence_main, !TrackIdentity_eval_sequence_main by done.
  rewrite !accumulate_counts by done. cbn [mbind result_bind]. rewrite Htb.
  destruct (Identity_shape d1 d2 (count_tables (THRESHOLD cfg) d2) HG HT)
    as [-> Hfin].
  destruct (TrackIdentity_shape cfg d1 d2 (count_tables (THRESHOLD cfg) d2) HG HT)
    as [-> Hfin'].
  split; apply result_bind_ext; intros [rows cols]; [apply Hfin|by rewrite Hfin'].
Qed.

(** ** Tracker detections are accounted for below [1e10] detections *)

(** X7.  For a well-formed sequence with fewer than [1e10] detections in
    total and a solver that meets its contract, the result of
    [Identity.eval_sequence] accounts for every tracker detection as well:
    [IDTP + IDFP = numTrackerDetections], so that [IDTP] is at most the
    smaller of the two detection totals. *)
Theorem identity_tracker_detections_accounted
    (lsa : list (list npfloat) → result (list nat * list nat))
    (cfg : Config) (data : SequenceData) :
  solver_contract lsa → wf_data data = true →
  (Z.of_nat (num_gt_dets data + num_tracker_dets data) < 10000000000)%Z →
  ∃ res, Identity.eval_sequence lsa cfg data = Ok res
    ∧ (IDTP res + IDFP res)%Z = Z.of_nat (num_tracker_dets data)
    ∧ (IDTP res ≤ Z.of_nat (num_gt_dets data))%Z
    ∧ (IDTP res ≤ Z.of_nat (num_tracker_dets data))%Z.
Proof.
  intros Hlsa Hwf Hsmall.
  destruct (decide (num_tracker_dets data = 0)) as [Ht|Ht].
  { eexists. split; [by apply Identity_no_tracker|].
    match goal with |- context [Identity._compute_final_fields ?r] =>
      destruct (final_fields_counts r) as (-> & _ & ->) end.
    simpl. lia. }
  destruct (decide (num_gt_dets data = 0)) as [Hg|Hg].
  { eexists. split; [by apply Identity_no_gt|].
    match goal with |- context [Identity._compute_final_fields ?r] =>
      destruct (final_fields_counts r) as (-> & _ & ->) end.
    simpl. lia. }
  destruct (Identity_eval_main lsa cfg data Hlsa Hwf Ht Hg)
    as (rows & cols & _ & Hopt & ->).
  eexists. split; [done|].
  match goal with |- context [Identity._compute_final_fields ?r] =>
    destruct (final_fields_counts r) as (-> & _ & ->) end.
  cbn [IDTP IDFP].
  destruct (optimal_no_penalty _ data rows cols Hwf Hsmall Hopt) as [_ Hd].
  assert (0 ≤ sumZ (fnZ (THRESHOLD cfg) data) (zip rows cols))%Z
    by (apply sumZ_nonneg; intros; apply fnZ_nonneg).
  assert (0 ≤ sumZ (fpZ (THRESHOLD cfg) data) (zip rows cols))%Z
    by (apply sumZ_nonneg; intros; apply fpZ_nonneg).
  lia.
Qed.

Lemma identity_tracker_detections_accounted_example :
  ∃ res, Identity.eval_sequence exhaustive_lsa default_config example_data = Ok res
    ∧ (IDTP res + IDFP res)%Z = Z.of_nat (num_tracker_dets example_data)
    ∧ (IDTP res ≤ Z.of_nat (num_gt_dets example_data))%Z
    ∧ (IDTP res ≤ Z.of_nat (num_tracker_dets example_data))%Z.
Proof.
  apply (identity_tracker_detections_accounted exhaustive_lsa default_config
           example_data).
  - apply exhaustive_lsa_contract.
  - reflexivity.
  - simpl. lia.
Defined.

(** ** The result does not depend on the solver *)

(** X8.  For a well-formed sequence with fewer than [1e10] detections in
    total, any two solvers that meet the contract lead
    [Identity.eval_sequence] to the same result, whichever optimal
    assignment each of them picks. *)
Theorem identity_solver_independent
    (lsa1 lsa2 : list (list npfloat) → result (list nat * list nat))
    (cfg : Config) (data : SequenceData) :
  solver_contract lsa1 → solver_contract lsa2 → wf_data data = true →
  (Z.of_nat (num_gt_dets data + num_tracker_dets data) < 10000000000)%Z →
  Identity.eval_sequence lsa1 cfg data = Identity.eval_sequence lsa2 cfg data.
Proof.
  intros Hlsa1 Hlsa2 Hwf Hsmall.
  destruct (decide (num_tracker_dets data = 0)) as [Ht|Ht].
  { by rewrite !Identity_no_tracker. }
  destruct (decide (num_gt_dets data = 0)) as [Hg|Hg].
  { by rewrite !Identity_no_gt. }
  destruct (Identity_eval_main lsa1 cfg data Hlsa1 Hwf Ht Hg)
    as (rows1 & cols1 & _ & Hopt1 & ->).
  destruct (Identity_eval_main lsa2 cfg data Hlsa2 Hwf Ht Hg)
    as (rows2 & cols2 & _ & Hopt2 & ->).
  destruct (optimal_no_penalty _ data rows1 cols1 Hwf Hsmall Hopt1) as [_ Hd1].
  destruct (optimal_no_penalty _ data rows2 cols2 Hwf Hsmall Hopt2) as [_ Hd2].
  apply optimal_Z in Hopt1 as [[-> Hp1] Hmin1].
  apply optimal_Z in Hopt2 as [[-> Hp2] Hmin2].
  specialize (Hmin1 cols2 Hp2). specialize (Hmin2 cols1 Hp1).
  unfold costZ in Hmin1, Hmin2. rewrite !sumZ_add in Hmin1, Hmin2.
  assert (Hfn : sumZ (fnZ (THRESHOLD cfg) data)
                  (zip (seq 0 (num_gt_ids data + num_tracker_ids data)) cols1)
                = sumZ (fnZ (THRESHOLD cfg) data)
                    (zip (seq 0 (num_gt_ids data + num_tracker_ids data)) cols2))
    by lia.
  assert (Hfp : sumZ (fpZ (THRESHOLD cfg) data)
                  (zip (seq 0 (num_gt_ids data + num_tracker_ids data)) cols1)
                = sumZ (fpZ (THRESHOLD cfg) data)
                    (zip (seq 0 (num_gt_ids data + num_tracker_ids data)) cols2))
    by lia.
  by rewrite Hfn, Hfp.
Qed.

(** ** A tracker that reproduces the ground truth *)

Lemma sumN_nonneg n (h : nat → Z) : (∀ i, i < n → (0 ≤ h i)%Z) → (0 ≤ sumN n h)%Z.
Proof.
  intros Hh. etrans; [|apply (sumN_le n (λ _, 0%Z))]; [by rewrite sumN_zero|].
  intros i Hi. by apply Hh.
Qed.

(** X9.  If the identities are paired off one to one, ground-truth identity
    [g] with tracker identity [g], so that the two occur in the same number
    of timesteps and are potential matches in every one of them, then
    [Identity.eval_sequence] reports no false negative, no false positive and
    the three ratios at 1.  No bound on the size of the sequence is needed
    here. *)
Theorem identity_perfect_tracking
    (lsa : list (list npfloat) → result (list nat * list nat))
    (cfg : Config) (data : SequenceData) :
  solver_contract lsa → wf_data data = true →
  num_tracker_ids data = num_gt_ids data →
  (∀ g, g < num_gt_ids data →
        matchCount (THRESHOLD cfg) data g g = gtCount data g
        ∧ trackerCount data g = gtCount data g) →
  Identity.eval_sequence lsa cfg data
  = Ok {| IDF1 := Fin 1; IDR := Fin 1; IDP := Fin 1;
          IDTP := Z.of_nat (num_gt_dets data); IDFN := 0; IDFP := 0 |}.
Proof.
  intros Hlsa Hwf HT Hperfect.
  assert (Hdets : num_tracker_dets data = num_gt_dets data).
  { rewrite <-(gtCount_sum data Hwf), <-(trackerCount_sum data Hwf), HT.
    f_equal. apply list_fmap_ext. intros i g [-> Hg]%lookup_seq.
    by apply Hperfect. }
  destruct (decide (num_tracker_dets data = 0)) as [Ht|Ht].
  { rewrite Identity_no_tracker, final_fields_record by done.
    rewrite <-Hdets, Ht. done. }
  assert (Hg : num_gt_dets data ≠ 0) by lia.
  destruct (Identity_eval_main lsa cfg data Hlsa Hwf Ht Hg)
    as (rows & cols & _ & Hopt & ->).
  apply optimal_Z in Hopt as [[-> Hp] Hmin].
  specialize (Hmin (seq 0 (num_gt_ids data + num_tracker_ids data))
                (reflexivity _)).
  rewrite sumZ_zip_seq in Hmin.
  rewrite (sumN_ext _ _ (λ _, 0%Z)), sumN_zero in Hmin.
  2:{ intros i Hi. simpl. unfold costZ, fnZ, fpZ. rewrite HT.
      repeat case_bool_decide; try lia.
      destruct (Hperfect i) as [-> ->]; [done|]. lia. }
  unfold costZ in Hmin. rewrite sumZ_add in Hmin.
  set (pairs := zip (seq 0 (num_gt_ids data + num_tracker_ids data)) cols) in *.
  assert (0 ≤ sumZ (fnZ (THRESHOLD cfg) data) pairs)%Z
    by (apply sumZ_nonneg; intros; apply fnZ_nonneg).
  assert (0 ≤ sumZ (fpZ (THRESHOLD cfg) data) pairs)%Z
    by (apply sumZ_nonneg; intros; apply fpZ_nonneg).
  assert (Hfn0 : sumZ (fnZ (THRESHOLD cfg) data) pairs = 0%Z) by lia.
  assert (Hfp0 : sumZ (fpZ (THRESHOLD cfg) data) pairs = 0%Z) by lia.
  rewrite Hfn0, Hfp0, final_fields_record. cbn [IDTP IDFN IDFP].
  rewrite Z.sub_0_r. done.
Qed.

(** ** Every identity is accounted for at track level *)

Lemma sumN_ones_cols G T :
  sumN (G + T) (λ j, if bool_decide (j < T) then 1%Z else 0%Z) = Z.of_nat T.
Proof.
  rewrite Nat.add_comm. apply sumN_ones.
Qed.

Lemma track_units_diff cfg data rows cols :
  let n := num_gt_ids data + num_tracker_ids data in
  is_assignment n rows cols →
  (sumZ (track_fn_units cfg data) (zip rows cols)
   - sumZ (track_fp_units cfg data) (zip rows cols))%Z
  = (Z.of_nat (num_gt_ids data) - Z.of_nat (num_tracker_ids data))%Z.
Proof.
  intros n Hassign. rewrite <-sumZ_sub.
  rewrite (sumZ_ext _ (λ i j, Z.sub
                         (if bool_decide (i < num_gt_ids data) then 1 else 0)
                         (if bool_decide (j < num_tracker_ids data) then 1 else 0))).
  - rewrite sumZ_sub, (sumZ_assignment_rows _ n), (sumZ_assignment_cols _ n) by done.
    subst n. by rewrite sumN_ones, sumN_ones_cols.
  - intros i j _. unfold track_fn_units, track_fp_units.
    repeat case_bool_decide; try lia; destruct (rejected cfg data i j); lia.
Qed.

(** X10.  For every valid sequence and a solver that meets its contract, the
    result of [TrackIdentity.eval_sequence] accounts for every identity on
    both sides: [IDTP + IDFN = numGtIdentities] and
    [IDTP + IDFP = numTrackerIdentities], in the shortcut branches as
    well. *)
Theorem track_identities_accounted
    (lsa : list (list npfloat) → result (list nat * list nat))
    (cfg : Config) (data : SequenceData) :
  solver_contract lsa → valid_data data = true →
  ∃ res, TrackIdentity.eval_sequence lsa cfg data = Ok res
    ∧ (IDTP res + IDFN res)%Z = Z.of_nat (num_gt_ids data)
    ∧ (IDTP res + IDFP res)%Z = Z.of_nat (num_tracker_ids data).
Proof.
  intros Hlsa Hv. pose proof Hv as [Hwf Hp]%valid_data_spec.
  destruct (ids_present_spec data Hp) as [Hpg Hpt].
  destruct (decide (num_tracker_dets data = 0)) as [Ht|Ht].
  { eexists. split; [by apply TrackIdentity_no_tracker|]. cbn [IDTP IDFN IDFP].
    split; [lia|].
    destruct (num_tracker_ids data) as [|T] eqn:HT; [done|].
    pose proof (Hpt 0 ltac:(lia)).
    pose proof (trackerCount_le_dets data 0 Hwf ltac:(lia)). lia. }
  destruct (decide (num_gt_dets data = 0)) as [Hg|Hg].
  { eexists. split; [by apply TrackIdentity_no_gt|]. cbn [IDTP IDFN IDFP].
    split; [|lia].
    destruct (num_gt_ids data) as [|G] eqn:HG; [done|].
    pose proof (Hpg 0 ltac:(lia)).
    pose proof (gtCount_le_dets data 0 Hwf ltac:(lia)). lia. }
  destruct (TrackIdentity_eval_main lsa cfg data Hlsa Hv Ht Hg)
    as (rows & cols & Mq & _ & Hlen & _ & [Hassign _] & ->).
  rewrite Hlen in Hassign.
  eexists. split; [done|].
  match goal with |- context [Identity._compute_final_fields ?r] =>
    destruct (final_fields_counts r) as (-> & -> & ->) end.
  cbn [IDTP IDFN IDFP].
  pose proof (track_units_diff cfg data rows cols Hassign). lia.
Qed.

Lemma track_identities_accounted_example :
  ∃ res, TrackIdentity.eval_sequence exhaustive_lsa default_config example_data
         = Ok res
    ∧ (IDTP res + IDFN res)%Z = Z.of_nat (num_gt_ids example_data)
    ∧ (IDTP res + IDFP res)%Z = Z.of_nat (num_tracker_ids example_data).
Proof.
  apply (track_identities_accounted exhaustive_lsa default_config example_data).
  - apply exhaustive_lsa_contract.
  - reflexivity.
Defined.

(** ** A track threshold that rejects every match *)

Lemma overlap_ratio_le_1 thr data g t :
  0 < trackerCount data t → (overlap_ratio thr data g t ≤ 1)%Qc.
Proof.
  intros Hpos. unfold overlap_ratio.
  pose proof (matchCount_le_trackerCount thr data g t) as Hle.
  assert (Hq : (0 < Qc_of_nat (trackerCount data t))%Qc) by (qc_of_Z; lia).
  assert (Hnz : Qc_of_nat (trackerCount data t) ≠ 0%Qc).
  { intros Hz. rewrite Hz in Hq. done. }
  unfold Qcdiv. rewrite <-(Qcmult_inv_r (Qc_of_nat (trackerCount data t))) by done.
  apply Qcmult_le_mono_nonneg_r.
  - apply Qclt_le_weak. by apply Qcinv_pos.
  - qc_of_Z. lia.
Qed.

(** X11.  With [TRACK_IOU_THRESH] at 1 or above every matched pair of
    tracks is rejected, since a ratio [matchCount / trackerCount] never
    exceeds 1: for every valid sequence [TrackIdentity.eval_sequence] then
    reports no true positive, every ground-truth identity as a false
    negative and every tracker identity as a false positive. *)
Theorem track_threshold_rejects_all
    (lsa : list (list npfloat) → result (list nat * list nat))
    (cfg : Config) (data : SequenceData) :
  solver_contract lsa → valid_data data = true →
  (1 ≤ TRACK_IOU_THRESH cfg)%Qc →
  ∃ res, TrackIdentity.eval_sequence lsa cfg data = Ok res
    ∧ IDTP res = 0%Z
    ∧ IDFN res = Z.of_nat (num_gt_ids data)
    ∧ IDFP res = Z.of_nat (num_tracker_ids data).
Proof.
  intros Hlsa Hv Hthr. pose proof Hv as [Hwf Hp]%valid_data_spec.
  destruct (ids_present_spec data Hp) as [Hpg Hpt].
  destruct (decide (num_tracker_dets data = 0)) as [Ht|Ht].
  { eexists. split; [by apply TrackIdentity_no_tracker|]. cbn [IDTP IDFN IDFP].
    split_and!; [done..|].
    destruct (num_tracker_ids data) as [|T] eqn:HT; [done|].
    pose proof (Hpt 0 ltac:(lia)).
    pose proof (trackerCount_le_dets data 0 Hwf ltac:(lia)). lia. }
  destruct (decide (num_gt_dets data = 0)) as [Hg|Hg].
  { eexists. split; [by apply TrackIdentity_no_gt|]. cbn [IDTP IDFN IDFP].
    split_and!; [done| |done].
    destruct (num_gt_ids data) as [|G] eqn:HG; [done|].
    pose proof (Hpg 0 ltac:(lia)).
    pose proof (gtCount_le_dets data 0 Hwf ltac:(lia)). lia. }
  destruct (TrackIdentity_eval_main lsa cfg data Hlsa Hv Ht Hg)
    as (rows & cols & Mq & _ & Hlen & _ & [Hassign _] & ->).
  rewrite Hlen in Hassign.
  eexists. split; [done|].
  match goal with |- context [Identity._compute_final_fields ?r] =>
    destruct (final_fields_counts r) as (-> & -> & ->) end.
  cbn [IDTP IDFN IDFP].
  pose proof (track_units_diff cfg data rows cols Hassign) as Hdiff.
  assert (Hfn : sumZ (track_fn_units cfg data) (zip rows cols)
                = Z.of_nat (num_gt_ids data)).
  { rewrite <-(sumN_ones _ (num_tracker_ids data)).
    rewrite <-(sumZ_assignment_rows _ _ rows cols Hassign).
    apply sumZ_ext. intros i j Hin. unfold track_fn_units.
    repeat case_bool_decide; try done.
    unfold rejected. rewrite bool_decide_eq_true_2; [done|].
    etrans; [|exact Hthr]. apply overlap_ratio_le_1. by apply Hpt. }
  lia.
Qed.

(** ** Averages of ratios *)

Lemma vec_sum_bounds (qs : list Qc) :
  Forall (λ q, (0 ≤ q)%Qc ∧ (q ≤ 1)%Qc) qs →
  (0 ≤ vec_sum qs)%Qc ∧ (vec_sum qs ≤ Qc_of_nat (length qs))%Qc.
Proof.
  induction 1 as [|q qs [Hq0 Hq1] _ [IH0 IH1]].
  - split; [done|]. cbn [length]. by rewrite Qc_of_nat_0.
  - cbn [vec_sum foldr length]. fold (vec_sum qs). rewrite Qc_of_nat_S. split.
    + by apply Qcplus_nonneg_nonneg.
    + rewrite (Qcplus_comm (Qc_of_nat _)). by apply Qcplus_le_compat.
Qed.

Lemma in_unit_finite (l : list npfloat) :
  Forall in_unit_interval l →
  ∃ qs, l = Fin <$> qs ∧ Forall (λ q, (0 ≤ q)%Qc ∧ (q ≤ 1)%Qc) qs.
Proof.
  induction 1 as [|x l (q & -> & Hq) _ (qs & -> & Hqs)].
  - by exists [].
  - exists (q :: qs). split; [done|]. by constructor.
Qed.

(** The mean of ratios between 0 and 1 lies between 0 and 1. *)
Lemma np_mean_in_unit (l : list npfloat) :
  l ≠ [] → Forall in_unit_interval l → in_unit_interval (np_mean l).
Proof.
  intros Hne (qs & -> & Hqs)%in_unit_finite.
  assert (Hqne : qs ≠ []) by (by destruct qs).
  destruct (vec_sum_bounds qs Hqs) as [H0 H1].
  rewrite np_mean_finite by done.
  rewrite <-(np_divide_finite (vec_sum qs) (Qc_of_nat (length qs))).
  - apply quotient_in_unit; [done..|].
    destruct qs as [|q qs]; [done|]. cbn [length]. rewrite Qc_of_nat_S.
    rewrite Qcplus_comm. apply Qc_le_add_r, Qc_of_nat_nonneg.
  - intros Hz. destruct qs as [|q qs]; [done|]. cbn [length] in Hz.
    rewrite Qc_of_nat_S in Hz.
    pose proof (Qc_of_nat_nonneg (length qs)) as Hle.
    assert (Hlt : (0 < Qc_of_nat (length qs) + 1)%Qc)
      by (by apply Qcplus_nonneg_pos).
    rewrite Hz in Hlt. done.
Qed.

Lemma map_values_nonempty (all_res : gmap string MetricResult) :
  all_res ≠ ∅ → (map_to_list all_res).*2 ≠ [].
Proof.
  intros Hne Hnil. apply fmap_nil_inv in Hnil.
  by apply map_to_list_empty_iff in Hnil.
Qed.

Lemma map_values_Forall (P : MetricResult → Prop)
    (all_res : gmap string MetricResult) :
  (∀ k v, all_res !! k = Some v → P v) → Forall P (map_to_list all_res).*2.
Proof.
  intros HP. apply Forall_forall. intros v ([k v'] & -> & Hin)%list_elem_of_fmap.
  apply elem_of_map_to_list in Hin. by apply (HP k).
Qed.

(** X12.  The macro average of [TrackIdentity.combine_sequences] keeps the
    ratios in range: over a non-empty mapping of results whose three ratios
    lie between 0 and 1, each averaged ratio is a finite number between 0
    and 1. *)
Theorem track_macro_average_in_unit (all_res : gmap string MetricResult) :
  all_res ≠ ∅ →
  (∀ k v, all_res !! k = Some v →
     in_unit_interval (IDF1 v) ∧ in_unit_interval (IDR v)
     ∧ in_unit_interval (IDP v)) →
  ∃ res, TrackIdentity.combine_sequences all_res "macro" = Ok res
    ∧ in_unit_interval (IDF1 res) ∧ in_unit_interval (IDR res)
    ∧ in_unit_interval (IDP res).
Proof.
  intros Hne Hunit. eexists. split; [reflexivity|].
  cbn [IDF1 IDR IDP set_IDF1 set_IDR set_IDP].
  pose proof (map_values_nonempty all_res Hne) as Hvals.
  split_and!; apply np_mean_in_unit.
  all: try (intros Hnil; by apply fmap_nil_inv in Hnil).
  all: apply Forall_fmap; apply (map_values_Forall _ all_res);
    intros k v Hkv; simpl; by apply (Hunit k v).
Qed.

(** X13.  Over an empty mapping the macro average is the mean of an empty
    list: [TrackIdentity.combine_sequences] returns the three ratios as
    [nan] and the three counts as 0, whereas the micro average, like
    [Identity.combine_sequences], returns the ratios as 1. *)
Theorem track_macro_average_empty :
  TrackIdentity.combine_sequences ∅ "macro"
  = Ok {| IDF1 := NaN; IDR := NaN; IDP := NaN; IDTP := 0; IDFN := 0; IDFP := 0 |}
  ∧ TrackIdentity.combine_sequences ∅ "micro"
    = Ok {| IDF1 := Fin 1; IDR := Fin 1; IDP := Fin 1;
            IDTP := 0; IDFN := 0; IDFP := 0 |}
  ∧ Identity.combine_sequences ∅
    = {| IDF1 := Fin 1; IDR := Fin 1; IDP := Fin 1;
         IDTP := 0; IDFN := 0; IDFP := 0 |}.
Proof.
  unfold TrackIdentity.combine_sequences, Identity.combine_sequences, _combine_sum.
  rewrite map_to_list_empty. split_and!; reflexivity.
Qed.

(** ** Combining the result of a single sequence *)

Lemma combine_sum_singleton (k : string) (r : MetricResult) (field : MetricResult → Z) :
  _combine_sum {[k := r]} field = field r.
Proof.
  unfold _combine_sum. rewrite map_to_list_singleton. simpl. lia.
Qed.

Lemma Identity_eval_derived lsa cfg data r :
  Identity.eval_sequence lsa cfg data = Ok r →
  ∃ r0, r = Identity._compute_final_fields r0.
Proof.
  unfold Identity.eval_sequence.
  repeat case_decide; try (intros [= <-]; by eexists).
  destruct (accumulate _ _) as [tb|]; [|done]. cbn [mbind result_bind].
  destruct (Identity.cost_matrices data tb) as [fn_mat fp_mat].
  destruct (lsa _) as [[rows cols]|]; [|done]. cbn [mbind result_bind].
  destruct (take_idx2 fn_mat _ _); [|done]. cbn [mbind result_bind].
  destruct (take_idx2 fp_mat _ _); [|done]. cbn [mbind result_bind].
  intros [= <-]. by eexists.
Qed.

Lemma final_fields_fixpoint r0 :
  let r := Identity._compute_final_fields r0 in
  Identity._compute_final_fields
    (set_IDFP (IDFP r) (set_IDFN (IDFN r) (set_IDTP (IDTP r) init_res))) = r.
Proof.
  intros r. subst r. rewrite (final_fields_record r0) at 4.
  rewrite final_fields_record.
  destruct (final_fields_counts r0) as (-> & -> & ->). done.
Qed.

(** X14.  Combining the result of one sequence gives that result back:
    whatever [Identity.eval_sequence] returns, for any input and any solver,
    [Identity.combine_sequences] and [combine_classes_det_averaged] of the
    mapping that holds just this result return it unchanged.  (The sum over
    the mapping is [_combine_sum] as the specification describes it.) *)
Theorem identity_combine_single
    (lsa : list (list npfloat) → result (list nat * list nat))
    (cfg : Config) (data : SequenceData) (k : string) (r : MetricResult) :
  Identity.eval_sequence lsa cfg data = Ok r →
  Identity.combine_sequences {[k := r]} = r
  ∧ combine_classes_det_averaged {[k := r]} = r.
Proof.
  intros [r0 ->]%Identity_eval_derived.
  unfold Identity.combine_sequences, combine_classes_det_averaged.
  rewrite !combine_sum_singleton. split; apply final_fields_fixpoint.
Qed.

(** ** Averaging over classes *)

Lemma combine_sum_insert (m : gmap string MetricResult) k v
    (field : MetricResult → Z) :
  m !! k = None →
  _combine_sum (<[k:=v]> m) field = (field v + _combine_sum m field)%Z.
Proof.
  intros Hk. unfold _combine_sum.
  rewrite (foldr_Zadd_perm _ (field <$> ((k, v) :: map_to_list m).*2)).
  - done.
  - by rewrite (map_to_list_insert m k v Hk).
Qed.

Lemma class_empty_counts v :
  (0 ≤ IDTP v)%Z → (0 ≤ IDFN v)%Z → (0 ≤ IDFP v)%Z →
  class_not_empty v = false → IDTP v = 0%Z ∧ IDFN v = 0%Z ∧ IDFP v = 0%Z.
Proof.
  intros Htp Hfn Hfp Hempty. unfold class_not_empty in Hempty.
  apply bool_decide_eq_false in Hempty. apply Qcnot_lt_le in Hempty.
  assert (Hlt : (Qc_of_Z (IDTP v + IDFN v + IDFP v) < Qc_of_Z 1)%Qc).
  { eapply Qcle_lt_trans; [exact Hempty|]. done. }
  apply Z2Qc_inj_lt in Hlt. lia.
Qed.

Lemma combine_sum_filter (m : gmap string MetricResult)
    (field : MetricResult → Z) :
  (∀ k v, m !! k = Some v → class_not_empty v = false → field v = 0%Z) →
  _combine_sum (filter (λ kv, Is_true (class_not_empty kv.2)) m) field
  = _combine_sum m field.
Proof.
  induction m as [|k v m Hk _ IH] using map_first_key_ind; intros Hzero.
  - by rewrite map_filter_empty.
  - rewrite map_filter_insert, combine_sum_insert by done.
    assert (IH' : _combine_sum (filter (λ kv, Is_true (class_not_empty kv.2)) m)
                    field = _combine_sum m field).
    { apply IH. intros k' v' Hkv. apply (Hzero k').
      rewrite lookup_insert_ne; [done|]. intros ->. congruence. }
    case_decide as Hc; simpl in Hc.
    + rewrite combine_sum_insert, IH'; [done|].
      by apply map_lookup_filter_None_2; left.
    + rewrite delete_id by done. rewrite IH'.
      rewrite (Hzero k v); [lia|by rewrite lookup_insert_eq|].
      by destruct (class_not_empty v).
Qed.

(** X15.  [combine_classes_class_averaged] sums the same counts whether or
    not classes without any detection are ignored, provided no count is
    negative; without the flag its ratios are the macro averages of
    [TrackIdentity.combine_sequences], and with the flag set and every class
    empty they are the mean of an empty list, [nan].  (The sum over the
    mapping is [_combine_sum] as the specification describes it.) *)
Theorem class_average_ignores_empty (all_res : gmap string MetricResult) :
  (∀ k v, all_res !! k = Some v →
     (0 ≤ IDTP v)%Z ∧ (0 ≤ IDFN v)%Z ∧ (0 ≤ IDFP v)%Z) →
  let kept := combine_classes_class_averaged all_res true in
  let all := combine_classes_class_averaged all_res false in
  IDTP kept = IDTP all ∧ IDFN kept = IDFN all ∧ IDFP kept = IDFP all
  ∧ TrackIdentity.combine_sequences all_res "macro" = Ok all
  ∧ ((∀ k v, all_res !! k = Some v → class_not_empty v = false) →
     IDF1 kept = NaN ∧ IDR kept = NaN ∧ IDP kept = NaN).
Proof.
  intros Hnonneg kept all. subst kept all.
  unfold combine_classes_class_averaged.
  cbn [IDTP IDFN IDFP IDF1 IDR IDP set_IDTP set_IDFN set_IDFP set_IDF1 set_IDR
       set_IDP init_res].
  split_and!.
  - apply combine_sum_filter. intros k v Hkv Hempty.
    destruct (Hnonneg k v Hkv) as (? & ? & ?).
    by destruct (class_empty_counts v) as (? & ? & ?).
  - apply combine_sum_filter. intros k v Hkv Hempty.
    destruct (Hnonneg k v Hkv) as (? & ? & ?).
    by destruct (class_empty_counts v) as (? & ? & ?).
  - apply combine_sum_filter. intros k v Hkv Hempty.
    destruct (Hnonneg k v Hkv) as (? & ? & ?).
    by destruct (class_empty_counts v) as (? & ? & ?).
  - reflexivity.
  - intros Hempty.
    assert (Hnil : filter (λ v, Is_true (class_not_empty v))
                     (map_to_list all_res).*2 = []).
    { pose proof (map_values_Forall (λ v, class_not_empty v = false) all_res Hempty)
        as Hall.
      induction Hall as [|v l Hv _ IH]; [done|].
      rewrite filter_cons, decide_False; [done|]. rewrite Hv. by intros []. }
    rewrite Hnil. done.
Qed.

(** ** [IDTP] is the largest number of matches a pairing can realise *)

Lemma fpZ_relaxed thr data i j :
  bad_pair_fp (num_gt_ids data) (num_tracker_ids data) i j = false →
  fpZ thr data i j = fp_relaxed thr data i j.
Proof.
  unfold bad_pair_fp, fpZ, fp_relaxed.
  repeat case_bool_decide; simpl; try done; lia.
Qed.

Lemma relaxed_both_matched thr data i j :
  (fn_relaxed thr data i j + fp_relaxed thr data i j)%Z
  = (row_dets data i + col_dets data j - 2 * matched thr data i j)%Z.
Proof.
  unfold fn_relaxed, fp_relaxed, row_dets, col_dets, matched.
  repeat case_bool_decide; simpl; lia.
Qed.

Lemma sumN_add n (h k : nat → Z) :
  sumN n (λ i, h i + k i)%Z = (sumN n h + sumN n k)%Z.
Proof. induction n as [|n IH]; [done|]. rewrite !sumN_S, IH. lia. Qed.

Lemma sumN_sub n (h k : nat → Z) :
  sumN n (λ i, h i - k i)%Z = (sumN n h - sumN n k)%Z.
Proof. induction n as [|n IH]; [done|]. rewrite !sumN_S, IH. lia. Qed.

Lemma sumN_scale n (c : Z) (h : nat → Z) :
  sumN n (λ i, c * h i)%Z = (c * sumN n h)%Z.
Proof. induction n as [|n IH]; [unfold sumN; simpl; lia|]. rewrite !sumN_S, IH. lia. Qed.

Lemma sumN_perm n (b : nat → Z) cols :
  cols ≡ₚ seq 0 n → sumN n (λ i, b (cols !!! i)) = sumN n b.
Proof.
  intros Hperm.
  rewrite <-(sumZ_assignment_lookup (λ _ j, b j) n cols Hperm).
  by apply sumZ_assignment_cols.
Qed.

Lemma relaxed_cost_both_matched' thr data cols :
  cols ≡ₚ seq 0 (num_gt_ids data + num_tracker_ids data) →
  relaxed_cost_both thr data cols
  = (sumN (num_gt_ids data + num_tracker_ids data) (row_dets data)
     + sumN (num_gt_ids data + num_tracker_ids data) (col_dets data)
     - 2 * sumN (num_gt_ids data + num_tracker_ids data)
             (λ i, matched thr data i (cols !!! i)))%Z.
Proof.
  intros Hperm. unfold relaxed_cost_both.
  rewrite (sumN_ext _ _ (λ i, (row_dets data i + col_dets data (cols !!! i))
                              - 2 * matched thr data i (cols !!! i))%Z)
    by (intros; apply relaxed_both_matched).
  rewrite sumN_sub, sumN_add, sumN_scale.
  by rewrite (sumN_perm _ (col_dets data)) by done.
Qed.

Lemma relaxed_cost_both_matched thr data cols :
  wf_data data = true →
  cols ≡ₚ seq 0 (num_gt_ids data + num_tracker_ids data) →
  relaxed_cost_both thr data cols
  = (Z.of_nat (num_gt_dets data) + Z.of_nat (num_tracker_dets data)
     - 2 * sumN (num_gt_ids data + num_tracker_ids data)
             (λ i, matched thr data i (cols !!! i)))%Z.
Proof.
  intros Hwf Hperm. rewrite relaxed_cost_both_matched' by done.
  by rewrite sumN_row_dets, sumN_col_dets.
Qed.

Section exchange_sinks.
Variables (thr : Qc) (data : SequenceData).
Local Abbreviation G := (num_gt_ids data).
Local Abbreviation T := (num_tracker_ids data).
Local Abbreviation n := (num_gt_ids data + num_tracker_ids data).

Lemma misplaced_sinks_nonneg cols : (0 ≤ misplaced_sinks data cols)%Z.
Proof.
  unfold misplaced_sinks. apply sumN_nonneg.
  intros i _. destruct (bad_pair_fp _ _ _ _); lia.
Qed.

(** Handing a misplaced tracker identity to its own sink row, and the row
    that held it the column that becomes free. *)
Lemma swap_bad_sink cols i :
  cols ≡ₚ seq 0 n → i < n → bad_pair_fp G T i (cols !!! i) = true →
  ∃ cols1, cols1 ≡ₚ seq 0 n
           ∧ (misplaced_sinks data cols1 < misplaced_sinks data cols)%Z
           ∧ relaxed_cost_both thr data cols1 = relaxed_cost_both thr data cols.
Proof.
  intros Hperm Hi Hbad.
  pose proof (Permutation_length Hperm) as Hlen. rewrite length_seq in Hlen.
  assert (Hnd : NoDup cols) by (rewrite Hperm; apply NoDup_seq).
  remember (cols !!! i) as j eqn:Hj.
  assert (HiG : G ≤ i ∧ j < T ∧ i ≠ j + G).
  { unfold bad_pair_fp in Hbad. apply andb_true_iff in Hbad as [Hb Hne].
    apply andb_true_iff in Hb as [H1 H2].
    apply bool_decide_eq_true in H1, H2. apply negb_true_iff in Hne.
    apply bool_decide_eq_false in Hne. done. }
  destruct HiG as (HiG & HjT & Hne).
  remember (cols !!! (j + G)) as c eqn:Hc.
  assert (Hij : cols !! i = Some j).
  { rewrite Hj. apply list_lookup_lookup_total_lt. lia. }
  assert (Hrc : cols !! (j + G) = Some c).
  { rewrite Hc. apply list_lookup_lookup_total_lt. lia. }
  assert (Hcj : c ≠ j).
  { intros ->. pose proof (NoDup_lookup _ _ _ _ Hnd Hij Hrc). lia. }
  exists (<[i:=c]> (<[j + G:=j]> cols)).
  assert (Hlook : ∀ k, <[i:=c]> (<[j + G:=j]> cols) !!! k
                      = if decide (k = i) then c
                        else if decide (k = j + G) then j else cols !!! k).
  { intros k. rewrite !list_lookup_total_insert, length_insert.
    repeat case_decide; try done; try lia; destruct_and?; lia. }
  assert (Hperm1 : <[i:=c]> (<[j + G:=j]> cols) ≡ₚ seq 0 n).
  { rewrite <-Hperm. by apply Permutation_insert_swap. }
  assert (Hown : bad_pair_fp G T (j + G) j = false).
  { unfold bad_pair_fp. rewrite (bool_decide_eq_true_2 (j + G = j + G)) by done.
    by rewrite andb_false_r. }
  split_and!; [done| |].
  - unfold misplaced_sinks.
    destruct (bad_pair_fp G T (j + G) c) eqn:Hrbad.
    + apply (sumN_lt _ _ _ (j + G)); [|lia|].
      * intros k Hk. rewrite Hlook.
        destruct (decide (k = i)) as [->|Hki];
          [|destruct (decide (k = j + G)) as [->|Hkr]].
        -- rewrite <-Hj, Hbad. destruct (bad_pair_fp G T i c); lia.
        -- rewrite Hown, <-Hc, Hrbad. lia.
        -- lia.
      * rewrite Hlook, decide_False, decide_True by (done || lia).
        rewrite Hown, <-Hc, Hrbad. lia.
    + assert (HcT : T ≤ c).
      { unfold bad_pair_fp in Hrbad.
        destruct (decide (c < T)) as [Hlt|]; [|lia].
        rewrite (bool_decide_eq_true_2 (G ≤ _)), (bool_decide_eq_true_2 (_ < T)),
          bool_decide_eq_false_2 in Hrbad by (done || lia). done. }
      assert (Hic : bad_pair_fp G T i c = false).
      { unfold bad_pair_fp. rewrite (bool_decide_eq_false_2 (c < T)) by lia.
        by rewrite andb_false_r. }
      apply (sumN_lt _ _ _ i); [|done|].
      * intros k Hk. rewrite Hlook.
        destruct (decide (k = i)) as [->|Hki];
          [|destruct (decide (k = j + G)) as [->|Hkr]].
        -- rewrite <-Hj, Hbad, Hic. lia.
        -- rewrite Hown, <-Hc, Hrbad. lia.
        -- lia.
      * rewrite Hlook, decide_True by done. rewrite <-Hj, Hbad, Hic. lia.
  - rewrite !relaxed_cost_both_matched' by done.
    f_equal. f_equal. apply sumN_ext. intros k Hk. rewrite Hlook.
    unfold matched.
    destruct (decide (k = i)) as [->|Hki];
      [|destruct (decide (k = j + G)) as [->|Hkr]]; [| |done].
    + by rewrite !(bool_decide_eq_false_2 (i < G)) by lia.
    + by rewrite !(bool_decide_eq_false_2 (j + G < G)) by lia.
Qed.

Lemma relax_sinks m :
  ∀ cols, cols ≡ₚ seq 0 n → (misplaced_sinks data cols ≤ Z.of_nat m)%Z →
  ∃ cols', cols' ≡ₚ seq 0 n
           ∧ (relaxed_cost thr data cols' ≤ relaxed_cost_both thr data cols)%Z.
Proof.
  induction m as [|m IH]; intros cols Hperm Hcount.
  all: destruct (decide (Forall (λ i, bad_pair_fp G T i (cols !!! i) = false)
                           (seq 0 n))) as [Hnone|Hsome].
  all: try (exists cols; split; [done|];
            unfold relaxed_cost, relaxed_cost_both;
            apply Z.eq_le_incl, sumN_ext; intros i Hi;
            rewrite fpZ_relaxed; [done|];
            rewrite Forall_forall in Hnone; apply Hnone, elem_of_seq; lia).
  all: apply not_Forall_Exists in Hsome; [|apply _].
  all: apply Exists_exists in Hsome as (g & Hg%elem_of_seq & Hbad).
  all: apply not_false_iff_true in Hbad.
  all: destruct (swap_bad_sink cols g Hperm) as (cols1 & Hp1 & Hlt & Hrel);
         [lia|done|].
  - pose proof (misplaced_sinks_nonneg cols1). lia.
  - destruct (IH cols1 Hp1) as (cols' & Hp' & Hle); [lia|].
    exists cols'. split; [done|]. by rewrite <-Hrel.
Qed.

(** Every pairing is realised, at the cost of its real pairs, by an
    assignment without penalty cells. *)
Lemma relax_both cols :
  cols ≡ₚ seq 0 n →
  ∃ cols', cols' ≡ₚ seq 0 n
           ∧ (sumZ (costZ thr data) (zip (seq 0 n) cols')
              ≤ relaxed_cost_both thr data cols)%Z.
Proof.
  intros Hperm.
  destruct (relax_sinks (Z.to_nat (misplaced_sinks data cols)) cols Hperm)
    as (cols1 & Hp1 & Hle1).
  { pose proof (misplaced_sinks_nonneg cols). lia. }
  destruct (relax_assignment thr data (Z.to_nat (misplaced_rows data cols1))
              cols1 Hp1) as (cols2 & Hp2 & Hle2).
  { pose proof (bad_count_nonneg data cols1). lia. }
  exists cols2. split; [done|]. lia.
Qed.
End exchange_sinks.

Lemma fn_relaxed_matched thr data i j :
  fn_relaxed thr data i j = (row_dets data i - matched thr data i j)%Z.
Proof.
  unfold fn_relaxed, row_dets, matched. repeat case_bool_decide; simpl; lia.
Qed.

Lemma fnZ_small_relaxed thr data i j :
  (fnZ thr data i j < 10000000000)%Z → fnZ thr data i j = fn_relaxed thr data i j.
Proof. unfold fnZ, fn_relaxed. repeat case_bool_decide; lia. Qed.

Lemma fpZ_small_relaxed thr data i j :
  (fpZ thr data i j < 10000000000)%Z → fpZ thr data i j = fp_relaxed thr data i j.
Proof. unfold fpZ, fp_relaxed. repeat case_bool_decide; lia. Qed.

Lemma matched_bounds thr data i j :
  wf_data data = true →
  (0 ≤ matched thr data i j)%Z
  ∧ (matched thr data i j ≤ Z.of_nat (num_gt_dets data))%Z
  ∧ (matched thr data i j ≤ Z.of_nat (num_tracker_dets data))%Z.
Proof.
  intros Hwf. unfold matched.
  destruct (decide (i < num_gt_ids data)) as [Hi|Hi];
    destruct (decide (j < num_tracker_ids data)) as [Hj|Hj].
  2-4: rewrite ?(bool_decide_eq_false_2 (i < _)),
         ?(bool_decide_eq_false_2 (j < _)), ?andb_false_r by done; simpl; lia.
  rewrite !bool_decide_eq_true_2 by done. simpl.
  pose proof (matchCount_le_gtCount thr data i j).
  pose proof (matchCount_le_trackerCount thr data i j).
  pose proof (gtCount_le_dets data i Hwf Hi).
  pose proof (trackerCount_le_dets data j Hwf Hj). lia.
Qed.

Lemma sumZ_zero pairs : sumZ (λ _ _, 0%Z) pairs = 0%Z.
Proof. induction pairs as [|[i j] l IH]; [done|]. rewrite sumZ_cons. lia. Qed.

(** X16.  For a well-formed sequence with fewer than [1e10] detections in
    total and a solver that meets its contract, the [IDTP] that
    [Identity.eval_sequence] returns is the largest number of potential
    matches that a one-to-one pairing of ground-truth with tracker identities
    can realise: it is the sum of [matchCount g t] over the real pairs of some
    assignment, and no assignment has a larger sum. *)
Theorem identity_idtp_maximal
    (lsa : list (list npfloat) → result (list nat * list nat))
    (cfg : Config) (data : SequenceData) :
  solver_contract lsa → wf_data data = true →
  (Z.of_nat (num_gt_dets data + num_tracker_dets data) < 10000000000)%Z →
  let n := num_gt_ids data + num_tracker_ids data in
  ∃ res, Identity.eval_sequence lsa cfg data = Ok res
    ∧ (∃ cols, cols ≡ₚ seq 0 n
         ∧ IDTP res = sumZ (matched (THRESHOLD cfg) data) (zip (seq 0 n) cols))
    ∧ (∀ cols, cols ≡ₚ seq 0 n →
         (sumZ (matched (THRESHOLD cfg) data) (zip (seq 0 n) cols) ≤ IDTP res)%Z).
Proof.
  intros Hlsa Hwf Hsmall n.
  assert (Hzero : num_tracker_dets data = 0 ∨ num_gt_dets data = 0 →
                  ∀ cols, sumZ (matched (THRESHOLD cfg) data) (zip (seq 0 n) cols)
                          = 0%Z).
  { intros Hz cols. rewrite <-(sumZ_zero (zip (seq 0 n) cols)).
    apply sumZ_ext. intros i j _.
    pose proof (matched_bounds (THRESHOLD cfg) data i j Hwf). lia. }
  destruct (decide (num_tracker_dets data = 0)) as [Ht|Ht].
  { eexists. split; [by apply Identity_no_tracker|].
    match goal with |- context [Identity._compute_final_fields ?r] =>
      destruct (final_fields_counts r) as (-> & _ & _) end.
    cbn [IDTP set_IDFN init_res]. split.
    - exists (seq 0 n). split; [done|]. rewrite Hzero; [done|by left].
    - intros cols _. rewrite Hzero; [done|by left]. }
  destruct (decide (num_gt_dets data = 0)) as [Hg|Hg].
  { eexists. split; [by apply Identity_no_gt|].
    match goal with |- context [Identity._compute_final_fields ?r] =>
      destruct (final_fields_counts r) as (-> & _ & _) end.
    cbn [IDTP set_IDFP init_res]. split.
    - exists (seq 0 n). split; [done|]. rewrite Hzero; [done|by right].
    - intros cols _. rewrite Hzero; [done|by right]. }
  destruct (Identity_eval_main lsa cfg data Hlsa Hwf Ht Hg)
    as (rows & cols & _ & Hopt & ->).
  eexists. split; [done|].
  match goal with |- context [Identity._compute_final_fields ?r] =>
    destruct (final_fields_counts r) as (-> & _ & _) end.
  cbn [IDTP].
  destruct (optimal_no_penalty _ data rows cols Hwf Hsmall Hopt) as [Hcost _].
  apply optimal_Z in Hopt as [[-> Hp] Hmin]. fold n in Hp, Hmin, Hcost.
  set (thr := THRESHOLD cfg) in *.
  assert (Hcell : ∀ i j, (i, j) ∈ zip (seq 0 n) cols →
            fnZ thr data i j = fn_relaxed thr data i j
            ∧ fpZ thr data i j = fp_relaxed thr data i j).
  { intros i j Hin.
    assert (costZ thr data i j ≤ sumZ (costZ thr data) (zip (seq 0 n) cols))%Z.
    { apply sumZ_elem_le; [|done]. intros i' j' _. unfold costZ.
      pose proof (fnZ_nonneg thr data i' j'). pose proof (fpZ_nonneg thr data i' j').
      lia. }
    pose proof (fnZ_nonneg thr data i j). pose proof (fpZ_nonneg thr data i j).
    unfold costZ in *.
    split; [apply fnZ_small_relaxed|apply fpZ_small_relaxed]; lia. }
  assert (Hfn : sumZ (fnZ thr data) (zip (seq 0 n) cols)
                = (Z.of_nat (num_gt_dets data)
                   - sumZ (matched thr data) (zip (seq 0 n) cols))%Z).
  { rewrite (sumZ_ext _ (λ i j, Z.sub (row_dets data i) (matched thr data i j))).
    - rewrite sumZ_sub, (sumZ_assignment_rows _ n) by done.
      subst n. by rewrite sumN_row_dets.
    - intros i j Hin. destruct (Hcell i j Hin) as [-> _].
      apply fn_relaxed_matched. }
  assert (Hopt_cost : sumZ (costZ thr data) (zip (seq 0 n) cols)
                      = relaxed_cost_both thr data cols).
  { rewrite sumZ_assignment_lookup by done. unfold relaxed_cost_both.
    apply sumN_ext. intros i Hi. unfold costZ.
    destruct (Hcell i (cols !!! i)) as [-> ->]; [|done].
    apply list_elem_of_lookup. exists i. apply lookup_zip_Some. split.
    - by apply lookup_seq.
    - apply list_lookup_lookup_total_lt.
      rewrite (Permutation_length Hp), length_seq. done. }
  fold n. split.
  - exists cols. split; [done|]. lia.
  - intros cols' Hp'.
    destruct (relax_both thr data cols' Hp') as (cols2 & Hp2 & Hle).
    specialize (Hmin cols2 Hp2).
    rewrite relaxed_cost_both_matched in Hle by done.
    rewrite Hopt_cost, relaxed_cost_both_matched in Hmin by done.
    rewrite <-!sumZ_assignment_lookup in Hle, Hmin by done.
    subst n. lia.
Qed.

(** ** The further properties at example sequences *)

Lemma exhaustive_lsa_last_contract : solver_contract exhaustive_lsa_last.
Proof.
  intros M Mq HM Hsq. unfold exhaustive_lsa_last. rewrite HM.
  set (rows := seq 0 (length Mq)).
  destruct (argmin_spec (assignment_cost Mq rows) (reverse (permutations rows)) rows)
    as [Hin Hmin].
  eexists _, _. split; [done|]. split; [split; [done|]|].
  - symmetry. apply permutations_Permutation.
    apply elem_of_cons in Hin as [->|Hin]; [apply permutations_refl|].
    apply elem_of_reverse. exact Hin.
  - intros cols' Hc. apply Hmin. right. apply elem_of_reverse_2.
    by apply permutations_Permutation.
Qed.

Lemma eval_sequence_index_error_example :
  Identity.eval_sequence exhaustive_lsa default_config out_of_range_data
  = Raise IndexError
  ∧ TrackIdentity.eval_sequence exhaustive_lsa default_config out_of_range_data
    = Raise IndexError.
Proof.
  apply (eval_sequence_index_error exhaustive_lsa default_config
           out_of_range_data 0 [1] [0]).
  - simpl. lia.
  - simpl. lia.
  - reflexivity.
  - reflexivity.
  - right. left. exists 1. split; [apply list_elem_of_singleton; reflexivity|].
    simpl. lia.
Defined.

Lemma eval_sequence_frame_order_example :
  Identity.eval_sequence exhaustive_lsa default_config example_data
  = Identity.eval_sequence exhaustive_lsa default_config example_data_reversed
  ∧ TrackIdentity.eval_sequence exhaustive_lsa default_config example_data
    = TrackIdentity.eval_sequence exhaustive_lsa default_config
        example_data_reversed.
Proof.
  apply (eval_sequence_frame_order exhaustive_lsa default_config
           example_data example_data_reversed); try reflexivity.
  apply perm_swap.
Defined.

Lemma identity_solver_independent_example :
  Identity.eval_sequence exhaustive_lsa default_config example_data
  = Identity.eval_sequence exhaustive_lsa_last default_config example_data.
Proof.
  apply (identity_solver_independent exhaustive_lsa exhaustive_lsa_last
           default_config example_data).
  - apply exhaustive_lsa_contract.
  - apply exhaustive_lsa_last_contract.
  - reflexivity.
  - simpl. lia.
Defined.

Lemma identity_perfect_tracking_example :
  Identity.eval_sequence exhaustive_lsa default_config perfect_data
  = Ok {| IDF1 := Fin 1; IDR := Fin 1; IDP := Fin 1;
          IDTP := Z.of_nat (num_gt_dets perfect_data); IDFN := 0; IDFP := 0 |}.
Proof.
  apply (identity_perfect_tracking exhaustive_lsa default_config perfect_data).
  - apply exhaustive_lsa_contract.
  - reflexivity.
  - reflexivity.
  - intros g Hg. simpl in Hg.
    destruct g as [|[|g]]; [split; reflexivity..|lia].
Defined.

Lemma track_threshold_rejects_all_example :
  ∃ res, TrackIdentity.eval_sequence exhaustive_lsa config_strict example_data
         = Ok res
    ∧ IDTP res = 0%Z
    ∧ IDFN res = Z.of_nat (num_gt_ids example_data)
    ∧ IDFP res = Z.of_nat (num_tracker_ids example_data).
Proof.
  apply (track_threshold_rejects_all exhaustive_lsa config_strict example_data).
  - apply exhaustive_lsa_contract.
  - reflexivity.
  - done.
Defined.

Lemma track_macro_average_in_unit_example :
  ∃ res, TrackIdentity.combine_sequences {["seq"%string := missed_result]} "macro"
         = Ok res
    ∧ in_unit_interval (IDF1 res) ∧ in_unit_interval (IDR res)
    ∧ in_unit_interval (IDP res).
Proof.
  apply (track_macro_average_in_unit {["seq"%string := missed_result]}).
  - apply map_non_empty_singleton.
  - intros k v [_ <-]%lookup_singleton_Some.
    split_and!; [apply zero_in_unit|apply zero_in_unit|apply one_in_unit].
Defined.

Lemma identity_combine_single_example :
  Identity.combine_sequences
    {["seq"%string := Identity._compute_final_fields (set_IDFN 3 init_res)]}
  = Identity._compute_final_fields (set_IDFN 3 init_res)
  ∧ combine_classes_det_averaged
      {["seq"%string := Identity._compute_final_fields (set_IDFN 3 init_res)]}
    = Identity._compute_final_fields (set_IDFN 3 init_res).
Proof.
  apply (identity_combine_single exhaustive_lsa default_config no_tracker_data).
  reflexivity.
Defined.

Lemma class_average_ignores_empty_example :
  let kept := combine_classes_class_averaged {["car"%string := init_res]} true in
  let all := combine_classes_class_averaged {["car"%string := init_res]} false in
  IDTP kept = IDTP all ∧ IDFN kept = IDFN all ∧ IDFP kept = IDFP all
  ∧ TrackIdentity.combine_sequences {["car"%string := init_res]} "macro" = Ok all
  ∧ ((∀ k v, ({["car"%string := init_res]} : gmap string MetricResult) !! k = Some v
             → class_not_empty v = false) →
     IDF1 kept = NaN ∧ IDR kept = NaN ∧ IDP kept = NaN).
Proof.
  apply (class_average_ignores_empty {["car"%string := init_res]}).
  intros k v [_ <-]%lookup_singleton_Some. simpl. lia.
Defined.

Lemma identity_idtp_maximal_example :
  let n := num_gt_ids example_data + num_tracker_ids example_data in
  ∃ res, Identity.eval_sequence exhaustive_lsa default_config example_data = Ok res
    ∧ (∃ cols, cols ≡ₚ seq 0 n
         ∧ IDTP res = sumZ (matched (THRESHOLD default_config) example_data)
                        (zip (seq 0 n) cols))
    ∧ (∀ cols, cols ≡ₚ seq 0 n →
         (sumZ (matched (THRESHOLD default_config) example_data)
            (zip (seq 0 n) cols) ≤ IDTP res)%Z).
Proof.
  apply (identity_idtp_maximal exhaustive_lsa default_config example_data).
  - apply exhaustive_lsa_contract.
  - reflexivity.
  - simpl. lia.
Defined.

(** ** The solver's choice among optimal assignments *)

(** X17.  The contract of the solver does not fix the result of
    [TrackIdentity.eval_sequence].  In [tie_data] the two ground-truth tracks
    overlap the tracker track at the same normalised cost [4/5], but with
    the ratios [1/5] and [2/5] to the length of the tracker track, so that
    one of the two optimal assignments is rejected at
    [TRACK_IOU_THRESH = 0.2] and the other is not: of two solvers that meet
    the contract, one leads to [IDTP = 1], [IDFN = 1], [IDFP = 0] and the
    other to [IDTP = 0], [IDFN = 2], [IDFP = 1]. *)
Theorem track_result_depends_on_solver :
  solver_contract exhaustive_lsa ∧ solver_contract exhaustive_lsa_last
  ∧ valid_data tie_data = true
  ∧ result_counts
      (TrackIdentity.eval_sequence exhaustive_lsa default_config tie_data)
    = Some (1, 1, 0)%Z
  ∧ result_counts
      (TrackIdentity.eval_sequence exhaustive_lsa_last default_config tie_data)
    = Some (0, 2, 1)%Z.
Proof.
  split; [apply exhaustive_lsa_contract|].
  split; [apply exhaustive_lsa_last_contract|].
  split_and!; vm_compute; reflexivity.
Qed.
